(** * GraphForestProgram: a shallow embedding of the forest-fire simulation

    The development follows the Python sources under
    [GraphForestProgram/classes]: the patch classes ([Landpatch],
    [Treepatch], [Rockpatch]), the [Firefighter] agent, the [GraphBuilder]
    and the [Land] orchestrator.

    Python objects have identity and are shared by reference (every
    neighbour dictionary stores references to patch objects, and [mutate]
    hands the very same dictionary to the replacement patch), so objects and
    dictionaries live in an explicit store and are named by addresses.
    Python's [float] is IEEE binary64 and is modelled by Rocq's primitive
    floats; Python's [int] is [Z]; a [dict] is an insertion-ordered
    association list.  The module-level [random] generator is an explicit
    tape of raw draws that is consumed from left to right. *)

From Stdlib Require Import ZArith Floats Uint63 Lia.
From stdpp Require Import base list.

Open Scope Z_scope.

(** ** Python runtime values *)

(** [int] to [float] conversion, exact on the non-negative range below
    2^53 that counters and percentage rolls live in. *)
Definition float_of_int (z : Z) : float := PrimFloat.of_uint63 (Uint63.of_Z z).

(** [a / b] on two ints (true division). *)
Definition int_truediv (a b : Z) : float :=
  PrimFloat.div (float_of_int a) (float_of_int b).

(** Mixed comparisons [int <= float] and [int < float]. *)
Definition int_le_float (r : Z) (p : float) : bool :=
  PrimFloat.leb (float_of_int r) p.
Definition int_lt_float (r : Z) (p : float) : bool :=
  PrimFloat.ltb (float_of_int r) p.

(** Insertion-ordered dictionaries with integer keys. *)
Module Dict.
Section Dict.
Context {V : Type}.

Definition t := list (Z * V).

Definition empty : t := [].

Fixpoint get (d : t) (k : Z) : option V :=
  match d with
  | [] => None
  | (k', v) :: d' => if Z.eqb k' k then Some v else get d' k
  end.

(** [d[k] = v]: an existing key keeps its place, a new key goes last. *)
Fixpoint set (d : t) (k : Z) (v : V) : t :=
  match d with
  | [] => [(k, v)]
  | (k', v') :: d' =>
      if Z.eqb k' k then (k', v) :: d' else (k', v') :: set d' k v
  end.

(** [d.pop(k)] / [del d[k]], the remaining entries keep their order. *)
Fixpoint remove (d : t) (k : Z) : t :=
  match d with
  | [] => []
  | (k', v') :: d' =>
      if Z.eqb k' k then d' else (k', v') :: remove d' k
  end.

Definition keys (d : t) : list Z := map fst d.
Definition values (d : t) : list V := map snd d.
Definition len (d : t) : Z := Z.of_nat (length d).
End Dict.
Arguments t : clear implicits.
End Dict.

(** [x in xs] on a list of ints. *)
Definition list_in (x : Z) (xs : list Z) : bool := existsb (Z.eqb x) xs.

(** [xs.remove(x)]: drops the first occurrence. *)
Fixpoint list_remove (x : Z) (xs : list Z) : list Z :=
  match xs with
  | [] => []
  | y :: ys => if Z.eqb y x then ys else y :: list_remove x ys
  end.

(** ** The patch classes *)

(** Addresses of patch objects and of neighbour dictionaries. *)
Definition ref := nat.
Definition dref := nat.

(** Fields of the abstract base class [Landpatch]. *)
Record Base := mkBase {
  patch_id : Z;
  neighbors : dref;
  position : float * float;
  color : option Z;
  firefighter : bool
}.

Definition tree_stats_max : Z := 256.
Definition tree_stats_min : Z := 0.

Record Treepatch := mkTree {
  tree_base : Base;
  prob_autcombustion : float;
  lit_state : bool;
  tree_stats : Z
}.

Record Rockpatch := mkRock {
  rock_base : Base;
  prob_treepatch : float
}.

(** A patch object is an instance of one of the two subclasses. *)
Inductive Landpatch :=
| IsTree (t : Treepatch)
| IsRock (r : Rockpatch).

Definition base (p : Landpatch) : Base :=
  match p with
  | IsTree t => tree_base t
  | IsRock r => rock_base r
  end.

Definition map_base (f : Base -> Base) (p : Landpatch) : Landpatch :=
  match p with
  | IsTree t => IsTree (mkTree (f (tree_base t)) (prob_autcombustion t)
                               (lit_state t) (tree_stats t))
  | IsRock r => IsRock (mkRock (f (rock_base r)) (prob_treepatch r))
  end.

Definition isinstance_Treepatch (p : Landpatch) : bool :=
  match p with IsTree _ => true | IsRock _ => false end.

(** [Landpatch.__init__] with its default arguments
    [position = (0.0, 0.0)], [color = 0], [firefighter = False]. *)
Definition Landpatch_init (id : Z) (nbrs : dref) : Base :=
  mkBase id nbrs (0%float, 0%float) (Some 0) false.

Definition base_set_position (pos : float * float) (b : Base) : Base :=
  mkBase (patch_id b) (neighbors b) pos (color b) (firefighter b).
Definition base_set_color (c : option Z) (b : Base) : Base :=
  mkBase (patch_id b) (neighbors b) (position b) c (firefighter b).
Definition base_set_firefighter (f : bool) (b : Base) : Base :=
  mkBase (patch_id b) (neighbors b) (position b) (color b) f.

Module TreepatchM.

Definition set_color (c : option Z) (self : Treepatch) : Treepatch :=
  mkTree (base_set_color c (tree_base self)) (prob_autcombustion self)
         (lit_state self) (tree_stats self).

Definition set_lit_state (state : bool) (self : Treepatch) : Treepatch :=
  mkTree (tree_base self) (prob_autcombustion self) state (tree_stats self).

Definition assign_tree_stats (stats : Z) (self : Treepatch) : Treepatch :=
  mkTree (tree_base self) (prob_autcombustion self) (lit_state self) stats.

(** [Treepatch.__init__]: full health, colour 256. *)
Definition init (id : Z) (nbrs : dref) (lit : bool) (prob : float)
  : Treepatch :=
  set_color (Some 256) (mkTree (Landpatch_init id nbrs) prob lit tree_stats_max).

(** [Treepatch.set_tree_stats]. *)
Definition set_tree_stats (stats : Z) (self : Treepatch) : Treepatch :=
  let self := assign_tree_stats stats self in
  if tree_stats_max <=? tree_stats self
  then set_lit_state false (assign_tree_stats tree_stats_max self)
  else self.

(** [Treepatch.update]; [roll] is the value of [random.randint(1, 100)].
    The boolean is the method's result: [true] asks for a mutation. *)
Definition update (roll : Z) (self : Treepatch) : Treepatch * bool :=
  let self :=
    if int_le_float roll (prob_autcombustion self)
    then set_lit_state true self else self in
  if negb (lit_state self) then
    let self :=
      if tree_stats self + 10 <=? tree_stats_max
      then assign_tree_stats (tree_stats self + 10) self
      else assign_tree_stats tree_stats_max self in
    (set_color (Some (tree_stats self)) self, false)
  else
    if tree_stats_min <=? tree_stats self - 20 then
      let self := assign_tree_stats (tree_stats self - 20) self in
      (set_color (Some (-256 - (-1 * tree_stats self))) self, false)
    else (self, true).

End TreepatchM.

Module RockpatchM.

Definition set_color (c : option Z) (self : Rockpatch) : Rockpatch :=
  mkRock (base_set_color c (rock_base self)) (prob_treepatch self).

(** [Rockpatch.__init__]: no colour. *)
Definition init (id : Z) (nbrs : dref) (prob : float) : Rockpatch :=
  set_color None (mkRock (Landpatch_init id nbrs) prob).

(** [Rockpatch.update]. *)
Definition update (roll : Z) (self : Rockpatch) : bool :=
  int_le_float roll (prob_treepatch self).

End RockpatchM.

(** The default value of the [prob_treepatch] / [prob_autcombustion]
    keyword arguments, the binary64 number nearest to 0.1. *)
Definition default_prob : float :=
  Eval cbv in PrimFloat.div 1%float 10%float.

(** [Treepatch.mutate] and [Rockpatch.mutate]: the replacement object is
    built around [self.get_patch_id()] and [self.get_neighbors()], that is
    the same dictionary object, and everything else is constructor
    defaults. *)
Definition Treepatch_mutate (self : Treepatch) : Rockpatch :=
  RockpatchM.init (patch_id (tree_base self)) (neighbors (tree_base self))
                  default_prob.

Definition Rockpatch_mutate (self : Rockpatch) : Treepatch :=
  TreepatchM.set_tree_stats 1
    (TreepatchM.init (patch_id (rock_base self)) (neighbors (rock_base self))
                     false default_prob).

(** Dynamic dispatch of the abstract method [Landpatch.mutate]. *)
Definition mutate (self : Landpatch) : Landpatch :=
  match self with
  | IsTree t => IsRock (Treepatch_mutate t)
  | IsRock r => IsTree (Rockpatch_mutate r)
  end.

(** ** The firefighter *)

Record Firefighter := mkFirefighter {
  firefighter_id : Z;
  avg_skill : Z
}.

(** [Firefighter.fight_fire]. *)
Definition fight_fire (self : Firefighter) (treepatch : Treepatch) : Treepatch :=
  if negb (lit_state treepatch) then treepatch
  else
    let stats := tree_stats treepatch in
    if stats + avg_skill self <=? 256
    then TreepatchM.set_tree_stats (stats + avg_skill self) treepatch
    else TreepatchM.set_tree_stats 256 treepatch.

(** ** The object store and the interpreter monad *)

(** Exceptions a modelled method can end with.  [Dangling] stands for a
    reference outside the store (Python never produces one) and
    [OutOfFuel] for a [while] loop cut off by the bound given to it. *)
Inductive exn :=
| KeyError | IndexError | AttributeError | UnboundLocalError
| ValueError | RuntimeError | Dangling | OutOfFuel.

Record World := mkWorld {
  objs : list Landpatch;
  dicts : list (Dict.t ref);
  tape : nat -> nat;
  cursor : nat
}.

Inductive outcome (A : Type) :=
| Ok (a : A) (w : World)
| Raise (e : exn).
Arguments Ok {A} a w.
Arguments Raise {A} e.

Definition Py (A : Type) : Type := World -> outcome A.

Definition ret {A} (a : A) : Py A := fun w => Ok a w.
Definition raise {A} (e : exn) : Py A := fun _ => Raise e.
Definition bind {A B} (c : Py A) (k : A -> Py B) : Py B :=
  fun w => match c w with
           | Ok a w' => k a w'
           | Raise e => Raise e
           end.

Declare Scope py_scope.
Delimit Scope py_scope with py.
Notation "x <- c ;; k" := (bind c (fun x => k))
  (at level 100, c at next level, right associativity) : py_scope.
Notation "c ;; k" := (bind c (fun _ => k))
  (at level 100, right associativity) : py_scope.
Open Scope py_scope.

Definition of_option {A} (e : exn) (o : option A) : Py A :=
  match o with Some a => ret a | None => raise e end.

Definition deref (a : ref) : Py Landpatch :=
  fun w => of_option Dangling (objs w !! a) w.

Definition assign (a : ref) (o : Landpatch) : Py unit :=
  fun w => Ok tt (mkWorld (<[a:=o]> (objs w)) (dicts w) (tape w) (cursor w)).

Definition new (o : Landpatch) : Py ref :=
  fun w => Ok (length (objs w))
              (mkWorld (objs w ++ [o]) (dicts w) (tape w) (cursor w)).

Definition deref_dict (d : dref) : Py (Dict.t ref) :=
  fun w => of_option Dangling (dicts w !! d) w.

Definition assign_dict (d : dref) (v : Dict.t ref) : Py unit :=
  fun w => Ok tt (mkWorld (objs w) (<[d:=v]> (dicts w)) (tape w) (cursor w)).

Definition new_dict (v : Dict.t ref) : Py dref :=
  fun w => Ok (length (dicts w))
              (mkWorld (objs w) (dicts w ++ [v]) (tape w) (cursor w)).

(** One raw draw of the generator. *)
Definition draw : Py nat :=
  fun w => Ok (tape w (cursor w))
              (mkWorld (objs w) (dicts w) (tape w) (S (cursor w))).

(** [random.randint(lo, hi)], for [lo <= hi]: the raw draw [x] is brought
    into the range [lo .. hi]. *)
Definition randint_of (lo hi : Z) (x : nat) : Z :=
  lo + Z.of_nat x mod (hi - lo + 1).

Definition randint (lo hi : Z) : Py Z :=
  x <- draw ;; ret (randint_of lo hi x).

(** [random.choice(xs)]; an empty sequence raises [IndexError]. *)
Definition choice {A} (xs : list A) : Py A :=
  match xs with
  | [] => raise IndexError
  | _ => x <- draw ;; of_option IndexError (xs !! (x mod length xs)%nat)
  end.

(** *** Methods, called through a reference *)

Definition get_patch_id (self : ref) : Py Z :=
  o <- deref self ;; ret (patch_id (base o)).

Definition get_neighbors (self : ref) : Py dref :=
  o <- deref self ;; ret (neighbors (base o)).

Definition get_neighbors_id (self : ref) : Py (list Z) :=
  d <- get_neighbors self ;; nd <- deref_dict d ;; ret (Dict.keys nd).

Definition set_position (self : ref) (pos : float * float) : Py unit :=
  o <- deref self ;; assign self (map_base (base_set_position pos) o).

Definition set_firefighter (self : ref) (has_firefighter : bool) : Py unit :=
  o <- deref self ;;
  assign self (map_base (base_set_firefighter has_firefighter) o).

Definition add_landpatch_to_neighbour (self new_neighbour : ref) : Py unit :=
  d <- get_neighbors self ;;
  nd <- deref_dict d ;;
  id <- get_patch_id new_neighbour ;;
  assign_dict d (Dict.set nd id new_neighbour).

(** [del self._neighbors[patch_id_to_remove]]: a missing key raises
    [KeyError]. *)
Definition remove_landpatch_to_neighbour (self : ref) (patch_id_to_remove : Z)
  : Py unit :=
  d <- get_neighbors self ;;
  nd <- deref_dict d ;;
  match Dict.get nd patch_id_to_remove with
  | Some _ => assign_dict d (Dict.remove nd patch_id_to_remove)
  | None => raise KeyError
  end.

Definition as_tree (self : ref) : Py Treepatch :=
  o <- deref self ;;
  match o with IsTree t => ret t | IsRock _ => raise AttributeError end.

Definition get_lit_state (self : ref) : Py bool :=
  t <- as_tree self ;; ret (lit_state t).

Definition set_lit_state (self : ref) (state : bool) : Py unit :=
  t <- as_tree self ;; assign self (IsTree (TreepatchM.set_lit_state state t)).

(** [landpatch.update()], dispatched on the object's class. *)
Definition Landpatch_update (self : ref) : Py bool :=
  o <- deref self ;;
  roll <- randint 1 100 ;;
  match o with
  | IsTree t =>
      let '(t', res) := TreepatchM.update roll t in
      assign self (IsTree t') ;; ret res
  | IsRock r => ret (RockpatchM.update roll r)
  end.

(** [landpatch.mutate()]: a new object is allocated. *)
Definition Landpatch_mutate (self : ref) : Py ref :=
  o <- deref self ;; new (mutate o).

Definition Firefighter_fight_fire (self : Firefighter) (treepatch : ref)
  : Py unit :=
  t <- as_tree treepatch ;; assign treepatch (IsTree (fight_fire self t)).

(** [Firefighter.move].  The [for] loop reuses the name of the parameter
    [landpatch] as its loop variable, so after the loop the name refers to
    the last value of [neighbours.values()] (or still to the argument when
    there is no neighbour). *)
Fixpoint move_scan (values : list ref) (firefighter_positions : list Z)
  : Py (option Z) :=
  match values with
  | [] => ret None
  | landpatch :: rest =>
      o <- deref landpatch ;;
      match o with
      | IsTree t =>
          if lit_state t && negb (list_in (patch_id (tree_base t)) firefighter_positions)
          then ret (Some (patch_id (tree_base t)))
          else move_scan rest firefighter_positions
      | IsRock _ => move_scan rest firefighter_positions
      end
  end.

Fixpoint move_retry (fuel : nat) (landpatch : ref)
    (firefighter_positions : list Z) (destination : Z) : Py Z :=
  if list_in destination firefighter_positions then
    match fuel with
    | O => raise OutOfFuel
    | S fuel' =>
        ids <- get_neighbors_id landpatch ;;
        destination <- choice ids ;;
        move_retry fuel' landpatch firefighter_positions destination
    end
  else ret destination.

Definition Firefighter_move (fuel : nat) (self : Firefighter)
    (landpatch : ref) (firefighter_positions : list Z) : Py Z :=
  neighbours <- get_neighbors landpatch ;;
  nd <- deref_dict neighbours ;;
  found <- move_scan (Dict.values nd) firefighter_positions ;;
  match found with
  | Some id => ret id
  | None =>
      let landpatch := List.last (Dict.values nd) landpatch in
      ids <- get_neighbors_id landpatch ;;
      destination <- choice ids ;;
      move_retry fuel landpatch firefighter_positions destination
  end.

(** ** Configuration *)

(** The entries of the configuration dictionary the engine reads:
    [configs['landscape']], [configs['probabilities']] (ignition,
    transmission, respawn) and [configs['firefighters']] (count, skill). *)
Record Config := mkConfig {
  landscape : float;
  probabilities : float * float * float;
  firefighters_config : Z * Z
}.

Definition prob_ignition (c : Config) : float := fst (fst (probabilities c)).
Definition prob_transmission (c : Config) : float := snd (fst (probabilities c)).
Definition prob_respawn (c : Config) : float := snd (probabilities c).

(** ** GraphBuilder *)

Record GraphBuilder := mkGraphBuilder {
  gb_configs : Config;
  gb_land_patches : Dict.t ref;
  number_of_rocks : Z;
  number_of_trees : Z
}.

(** [GraphBuilder.__init__]. *)
Definition GraphBuilder_init (configs : Config) (land_patches : Dict.t ref)
  : GraphBuilder :=
  mkGraphBuilder configs land_patches 0 0.

(** [GraphBuilder.create_landpatch]. *)
Definition create_landpatch (self : GraphBuilder) (id : Z)
    (pos : float * float) : Py GraphBuilder :=
  let target_percentage_of_trees :=
    PrimFloat.div (landscape (gb_configs self)) (float_of_int 100) in
  let current_tree_percentage :=
    if 0 <? Dict.len (gb_land_patches self)
    then int_truediv (number_of_trees self) (Dict.len (gb_land_patches self))
    else float_of_int 0 in
  made <-
    (if PrimFloat.ltb current_tree_percentage target_percentage_of_trees then
       d <- new_dict Dict.empty ;;
       a <- new (IsTree (TreepatchM.init id d false
                           (prob_ignition (gb_configs self)))) ;;
       ret (a, number_of_rocks self, number_of_trees self + 1)
     else
       d <- new_dict Dict.empty ;;
       a <- new (IsRock (RockpatchM.init id d
                           (prob_respawn (gb_configs self)))) ;;
       ret (a, number_of_rocks self + 1, number_of_trees self)) ;;
  let '(land_patch, rocks, trees) := made in
  set_position land_patch pos ;;
  key <- get_patch_id land_patch ;;
  ret (mkGraphBuilder (gb_configs self)
         (Dict.set (gb_land_patches self) key land_patch) rocks trees).

(** First loop of [create_landpatches]: one patch per key of [positions]. *)
Fixpoint create_patches (self : GraphBuilder)
    (positions : Dict.t (float * float)) : Py GraphBuilder :=
  match positions with
  | [] => ret self
  | (id, pos) :: rest =>
      self <- create_landpatch self id pos ;;
      create_patches self rest
  end.

(** Second loop of [create_landpatches]: every edge is entered in the
    neighbour dictionaries of both of its ends. *)
Fixpoint connect_patches (land_patches : Dict.t ref) (edgelist : list (Z * Z))
  : Py unit :=
  match edgelist with
  | [] => ret tt
  | (a, b) :: rest =>
      first_patch <- of_option KeyError (Dict.get land_patches a) ;;
      second_patch <- of_option KeyError (Dict.get land_patches b) ;;
      add_landpatch_to_neighbour first_patch second_patch ;;
      add_landpatch_to_neighbour second_patch first_patch ;;
      connect_patches land_patches rest
  end.

Definition create_landpatches (self : GraphBuilder) (edgelist : list (Z * Z))
    (positions : Dict.t (float * float)) : Py GraphBuilder :=
  self <- create_patches self positions ;;
  connect_patches (gb_land_patches self) edgelist ;;
  ret self.

(** ** Land *)

Record Land := mkLand {
  configs : Config;
  land_patches : Dict.t ref;
  edgelist : list (Z * Z);
  positions : Dict.t (float * float);
  firefighters : Dict.t Firefighter
}.

Definition with_firefighters (fs : Dict.t Firefighter) (self : Land) : Land :=
  mkLand (configs self) (land_patches self) (edgelist self) (positions self) fs.

Definition with_land_patches (lp : Dict.t ref) (self : Land) : Land :=
  mkLand (configs self) lp (edgelist self) (positions self) (firefighters self).

(** [Land.get_firefighters]. *)
Definition get_firefighters (self : Land) : list Z :=
  Dict.keys (firefighters self).

(** [Land.spawn_firefighters]: the loop runs while
    [firefighters_spawned < configs['firefighters'][0]], [todo] counts the
    iterations that are left. *)
Fixpoint spawn_loop (todo : nat) (firefighters_spawned : Z) (self : Land)
  : Py Land :=
  match todo with
  | O => ret self
  | S todo' =>
      spawn_position <- choice (Dict.keys (positions self)) ;;
      let fireman :=
        mkFirefighter firefighters_spawned (snd (firefighters_config (configs self))) in
      let self :=
        with_firefighters (Dict.set (firefighters self) spawn_position fireman) self in
      patch <- of_option KeyError (Dict.get (land_patches self) spawn_position) ;;
      set_firefighter patch true ;;
      spawn_loop todo' (firefighters_spawned + 1) self
  end.

Definition spawn_firefighters (self : Land) : Py Land :=
  spawn_loop (Z.to_nat (fst (firefighters_config (configs self)))) 0 self.

(** [Land.mutate_landpatch]. *)
Definition mutate_landpatch (self : Land) (landpatch : ref) : Py Land :=
  mutated_landpatch <- Landpatch_mutate landpatch ;;
  key <- get_patch_id mutated_landpatch ;;
  ret (with_land_patches (Dict.set (land_patches self) key mutated_landpatch) self).

(** [Land.update_fire_transmition]: the roll is made only for a lit
    neighbour ([and] short-circuits), it is compared with
    [configs['probabilities'][0]], and the object whose flag is set is the
    neighbour itself. *)
Fixpoint fire_transmition_loop (self : Land) (values : list ref) : Py unit :=
  match values with
  | [] => ret tt
  | neighbor :: rest =>
      o <- deref neighbor ;;
      (match o with
       | IsTree treepatch =>
           if lit_state treepatch then
             roll <- randint 1 100 ;;
             if int_lt_float roll (prob_ignition (configs self))
             then set_lit_state neighbor true
             else ret tt
           else ret tt
       | IsRock _ => ret tt
       end) ;;
      fire_transmition_loop self rest
  end.

Definition update_fire_transmition (self : Land) (land_patch : ref) : Py unit :=
  neighbors <- get_neighbors land_patch ;;
  nd <- deref_dict neighbors ;;
  fire_transmition_loop self (Dict.values nd).

(** [Land.update], first loop: a firefighter standing on a lit tree fights
    the fire, every other one is entered in [firefighter_to_move].  The
    local variable [landpatch] keeps its last value after the loop. *)
Fixpoint fight_or_mark (self : Land) (keys : list Z) (landpatch : option ref)
    (firefighter_to_move : Dict.t Firefighter)
  : Py (option ref * Dict.t Firefighter) :=
  match keys with
  | [] => ret (landpatch, firefighter_to_move)
  | position :: rest =>
      firefighter <- of_option KeyError (Dict.get (firefighters self) position) ;;
      landpatch <- of_option KeyError (Dict.get (land_patches self) position) ;;
      o <- deref landpatch ;;
      firefighter_should_move <-
        (match o with
         | IsTree treepatch =>
             if lit_state treepatch
             then Firefighter_fight_fire firefighter landpatch ;; ret false
             else ret true
         | IsRock _ => ret true
         end) ;;
      fight_or_mark self rest (Some landpatch)
        (if firefighter_should_move
         then Dict.set firefighter_to_move position firefighter
         else firefighter_to_move)
  end.

(** [Land.update], second loop.  The patch handed to [move] is the
    variable [landpatch] left behind by the first loop. *)
Fixpoint relocate (fuel : nat) (self : Land) (keys : list Z)
    (landpatch : option ref) : Py Land :=
  match keys with
  | [] => ret self
  | position :: rest =>
      firefighter <- of_option KeyError (Dict.get (firefighters self) position) ;;
      let self := with_firefighters (Dict.remove (firefighters self) position) self in
      old_patch <- of_option KeyError (Dict.get (land_patches self) position) ;;
      set_firefighter old_patch false ;;
      current <- of_option UnboundLocalError landpatch ;;
      destination <- Firefighter_move fuel firefighter current (get_firefighters self) ;;
      let self := with_firefighters (Dict.set (firefighters self) destination firefighter) self in
      new_patch <- of_option KeyError (Dict.get (land_patches self) destination) ;;
      set_firefighter new_patch true ;;
      relocate fuel self rest landpatch
  end.

(** [Land.update], third loop: [for landpatch in land_patches.values()],
    an iteration over the live dictionary.  [i] is the iterator's index and
    [size] the length it was created with: a dictionary whose size changed
    makes the iterator raise [RuntimeError]. *)
Fixpoint update_patches (todo i size : nat) (self : Land) : Py Land :=
  if negb (Nat.eqb (length (land_patches self)) size) then raise RuntimeError
  else
    match todo with
    | O => ret self
    | S todo' =>
        landpatch <- of_option Dangling (Dict.values (land_patches self) !! i) ;;
        o <- deref landpatch ;;
        (if isinstance_Treepatch o
         then update_fire_transmition self landpatch else ret tt) ;;
        should_mutate <- Landpatch_update landpatch ;;
        self <- (if should_mutate : bool
                 then mutate_landpatch self landpatch else ret self) ;;
        update_patches todo' (S i) size self
    end.

(** [Land.update]: one step of the simulation.  [fuel] bounds the retry
    loop of [Firefighter.move]. *)
Definition Land_update (fuel : nat) (self : Land) : Py Land :=
  marked <- fight_or_mark self (Dict.keys (firefighters self)) None Dict.empty ;;
  let '(landpatch, firefighter_to_move) := marked in
  self <- relocate fuel self (Dict.keys firefighter_to_move) landpatch ;;
  let size := length (land_patches self) in
  update_patches size 0 size self.

(** [while edge in unchecked: unchecked.remove(edge)]. *)
Fixpoint remove_all (todo : nat) (edge : Z) (unchecked : list Z) : list Z :=
  if list_in edge unchecked then
    match todo with
    | O => unchecked
    | S todo' => remove_all todo' edge (list_remove edge unchecked)
    end
  else unchecked.

(** The [while len(unchecked) > 0] loop of [Land.validate_graph];
    [unchecked.pop()] takes the last element. *)
Fixpoint validate_loop (fuel : nat) (land_patches : Dict.t ref)
    (unchecked validated : list Z) : Py (list Z) :=
  match unchecked with
  | [] => ret validated
  | _ :: _ =>
      match fuel with
      | O => raise OutOfFuel
      | S fuel' =>
          let edge := List.last unchecked 0 in
          let unchecked := removelast unchecked in
          if list_in edge validated
          then validate_loop fuel' land_patches unchecked validated
          else
            patch <- of_option KeyError (Dict.get land_patches edge) ;;
            ids <- get_neighbors_id patch ;;
            let unchecked := unchecked ++ ids in
            let unchecked := remove_all (length unchecked) edge unchecked in
            validate_loop fuel' land_patches unchecked (validated ++ [edge])
      end
  end.

(** [Land.validate_graph]. *)
Definition validate_graph (fuel : nat) (positions : Dict.t (float * float))
    (land_patches : Dict.t ref) : Py bool :=
  validated <- validate_loop fuel land_patches (Dict.keys positions) [] ;;
  ret (Nat.eqb (length validated) (length (Dict.keys positions))).

(** [Land.__init__].  The graph source (file reader or generator) and the
    planarity test of [vis_modules.graph_helper] are outside the engine:
    the edge list and the positions they produce and the predicate
    [edges_planar] are arguments. *)
Definition Land_init (edges_planar : list (Z * Z) -> bool) (fuel : nat)
    (cfg : Config) (patches0 : Dict.t ref)
    (edges : list (Z * Z)) (pos : Dict.t (float * float))
    (firefighters0 : Dict.t Firefighter) : Py Land :=
  gb <- create_landpatches (GraphBuilder_init cfg patches0) edges pos ;;
  let self := mkLand cfg (gb_land_patches gb) edges pos firefighters0 in
  self <- spawn_firefighters self ;;
  if negb (edges_planar (edgelist self)) then raise ValueError
  else
    valid <- validate_graph fuel (positions self) (land_patches self) ;;
    if valid : bool then ret self else raise RuntimeError.

(** [Land.get_colour_maps]: the patches with a colour go to
    [colour_map], those whose colour is [None] to [no_colour_map]. *)
Fixpoint colour_loop (values : list ref) (colour_map : Dict.t Z)
    (no_colour_map : Dict.t unit) : Py (Dict.t Z * Dict.t unit) :=
  match values with
  | [] => ret (colour_map, no_colour_map)
  | land_patch :: rest =>
      o <- deref land_patch ;;
      match color (base o) with
      | Some c =>
          colour_loop rest (Dict.set colour_map (patch_id (base o)) c)
            no_colour_map
      | None =>
          colour_loop rest colour_map
            (Dict.set no_colour_map (patch_id (base o)) tt)
      end
  end.

Definition get_colour_maps (self : Land) : Py (Dict.t Z * Dict.t unit) :=
  colour_loop (Dict.values (land_patches self)) Dict.empty Dict.empty.

(** ** The population report *)

(** [xs.count(x)] on a list of ints. *)
Definition list_count (x : Z) (xs : list Z) : Z :=
  Z.of_nat (length (List.filter (Z.eqb x) xs)).

(** The three numbers [GraphForest.start_simulation] reports from the
    colour maps, before the first step and after every step: trees, rocks
    and wildfires. *)
Definition population (maps : Dict.t Z * Dict.t unit) : Z * Z * Z :=
  let '(colour_map, no_colour_map) := maps in
  let rock_population := Z.of_nat (length (Dict.values no_colour_map)) in
  let tree_population := list_count 256 (Dict.values colour_map) in
  let wildfires := Dict.len colour_map - rock_population - tree_population in
  (tree_population, rock_population, wildfires).

(** An empty store with the given tape of draws. *)
Definition empty_world (tape : nat -> nat) : World := mkWorld [] [] tape 0.

(** The value a run ends with, when it ends normally. *)
Definition result_of {A} (r : outcome A) : option A :=
  match r with Ok a _ => Some a | Raise _ => None end.

(** * Vocabulary of the properties *)

(** ** Runs and stores *)

(** Total correctness of a run: it ends normally and its result and final
    store satisfy [Q]. *)
Definition returns {A} (c : Py A) (w : World) (Q : A -> World -> Prop) : Prop :=
  exists a w', c w = Ok a w' /\ Q a w'.

(** The store [w] after [k] more draws. *)
Definition advance (k : nat) (w : World) : World :=
  mkWorld (objs w) (dicts w) (tape w) (cursor w + k).

(** The store with the object at [a] replaced, and with one more object. *)
Definition with_obj (a : ref) (p : Landpatch) (w : World) : World :=
  mkWorld (<[a:=p]> (objs w)) (dicts w) (tape w) (cursor w).

Definition with_new_obj (p : Landpatch) (w : World) : World :=
  mkWorld (objs w ++ [p]) (dicts w) (tape w) (cursor w).

(** The store after the allocation of one object and one dictionary. *)
Definition allocated (w : World) (o : Landpatch) (d : Dict.t ref) : World :=
  mkWorld (objs w ++ [o]) (dicts w ++ [d]) (tape w) (cursor w).

(** A store is closed when the neighbour dictionary of every object
    exists and holds references to objects of the store. *)
Definition closed (w : World) : Prop :=
  forall a p, objs w !! a = Some p ->
    exists nd, dicts w !! neighbors (base p) = Some nd /\
               Forall (fun b => is_Some (objs w !! b)) (Dict.values nd).

(** Pairwise distinct ids, as a boolean test. *)
Fixpoint distinct (l : list Z) : bool :=
  match l with
  | [] => true
  | x :: l' => negb (list_in x l') && distinct l'
  end.

(** All references of a table point into the store. *)
Definition table_bound (w : World) (table : Dict.t ref) : Prop :=
  Forall (fun a => (a < length (objs w))%nat) (Dict.values table).

(** The patch table has pairwise distinct keys and maps every key to an
    object of the store that carries this key as its id. *)
Definition table_ok (w : World) (table : Dict.t ref) : Prop :=
  distinct (Dict.keys table) = true /\
  forall id a, In (id, a) table ->
    exists p, objs w !! a = Some p /\ patch_id (base p) = id.

Definition is_tree_at (w : World) (a : ref) : bool :=
  match objs w !! a with Some (IsTree _) => true | _ => false end.

Definition is_rock_at (w : World) (a : ref) : bool :=
  match objs w !! a with Some (IsRock _) => true | _ => false end.

Definition unlit_tree_at (w : World) (a : ref) : Prop :=
  exists t, objs w !! a = Some (IsTree t) /\ lit_state t = false.

Definition id_at (w : World) (a : ref) : option Z :=
  match objs w !! a with
  | Some p => Some (patch_id (base p))
  | None => None
  end.


(** Id, lit flag and health of the tree at an address. *)
Definition tree_view (w : World) (a : ref) : option (Z * bool * Z) :=
  match objs w !! a with
  | Some (IsTree t) => Some (patch_id (tree_base t), lit_state t, tree_stats t)
  | _ => None
  end.

(** What the patch table holds, entry by entry. *)
Definition snapshot (self : Land) : Py (list (option (Z * bool * Z))) :=
  fun w => Ok (map (tree_view w) (Dict.values (land_patches self))) w.

Definition lookup_patch (self : Land) (id : Z) : Py ref :=
  of_option KeyError (Dict.get (land_patches self) id).

(** [q.get_neighbors()[id]]: the object patch [q] reaches under a
    neighbour id. *)
Definition neighbor_through (q : ref) (id : Z) : Py ref :=
  d <- get_neighbors q ;;
  nd <- deref_dict d ;;
  of_option KeyError (Dict.get nd id).

(** ** Sequences of operations on a tree *)

(** The operations a tree's health is changed by. *)
Inductive tree_op :=
| OpUpdate (roll : Z)
| OpSetTreeStats (stats : Z)
| OpFightFire (f : Firefighter).

Definition apply_op (op : tree_op) (t : Treepatch) : Treepatch :=
  match op with
  | OpUpdate roll => fst (TreepatchM.update roll t)
  | OpSetTreeStats stats => TreepatchM.set_tree_stats stats t
  | OpFightFire f => fight_fire f t
  end.

Definition run_ops (ops : list tree_op) (t : Treepatch) : Treepatch :=
  fold_left (fun t op => apply_op op t) ops t.

(** Arguments of the operations: a non-negative health handed to
    [set_tree_stats], a non-negative skill. *)
Definition op_ok (op : tree_op) : bool :=
  match op with
  | OpUpdate _ => true
  | OpSetTreeStats stats => 0 <=? stats
  | OpFightFire f => 0 <=? avg_skill f
  end.

Definition in_range (t : Treepatch) : Prop := 0 <= tree_stats t <= 256.

(** ** The greedy fill *)

(** The test [current_tree_percentage < target_percentage_of_trees] of
    [create_landpatch], as a function of the landscape percentage, of the
    size of the patch table and of the tree counter. *)
Definition plants_tree (ls : float) (size trees : Z) : bool :=
  PrimFloat.ltb
    (if 0 <? size then int_truediv trees size else float_of_int 0)
    (PrimFloat.div ls (float_of_int 100)).

(** The counters after [k] more patches. *)
Fixpoint fill (ls : float) (k : nat) (size trees rocks : Z) : Z * Z :=
  match k with
  | O => (trees, rocks)
  | S k' =>
      if plants_tree ls size trees
      then fill ls k' (size + 1) (trees + 1) rocks
      else fill ls k' (size + 1) trees (rocks + 1)
  end.

Fixpoint count_where (f : ref -> bool) (l : list ref) : Z :=
  match l with
  | [] => 0
  | a :: l' => (if f a then 1 else 0) + count_where f l'
  end.

(** Number of entries of a patch table that are trees (rocks). *)
Definition count_trees (w : World) (table : Dict.t ref) : Z :=
  count_where (is_tree_at w) (Dict.values table).
Definition count_rocks (w : World) (table : Dict.t ref) : Z :=
  count_where (is_rock_at w) (Dict.values table).

(** ** Graphs accepted by [validate_graph] *)

(** Every node of [nodes] has a patch in the table, whose neighbour
    dictionary is in the store and names nodes of [nodes] only. *)
Definition graph_closed (w : World) (table : Dict.t ref) (nodes : list Z) : bool :=
  forallb
    (fun e =>
       match Dict.get table e with
       | Some a =>
           match objs w !! a with
           | Some p =>
               match dicts w !! neighbors (base p) with
               | Some nd => forallb (fun n => list_in n nodes) (Dict.keys nd)
               | None => false
               end
           | None => false
           end
       | None => false
       end) nodes.

(** Number of entries of all neighbour dictionaries together, a bound on
    the degree of every node. *)
Fixpoint total_entries (ds : list (Dict.t ref)) : nat :=
  match ds with
  | [] => O
  | d :: ds' => (length d + total_entries ds')%nat
  end.

(** Iterations that are enough for [validate_graph] on [n] nodes. *)
Definition validate_fuel (w : World) (n : nat) : nat :=
  S (n + (total_entries (dicts w) + 1) * n).

(** ** Stores in which no tree ignites by itself *)

(** A probability no percentage roll is below or equal to. *)
Definition never_ignites (p : float) : Prop :=
  forall x, int_le_float (randint_of 1 100 x) p = false.

(** No tree of the store can ignite by itself. *)
Definition calm (w : World) : Prop :=
  forall a t, objs w !! a = Some (IsTree t) ->
    never_ignites (prob_autcombustion t).

(** What the third loop of [Land.update] maintains. *)
Definition steady (w : World) (table : Dict.t ref) : Prop :=
  closed w /\ calm w /\ table_ok w table.

(** ** Firefighter movement *)

(** The object at [a] is a lit tree whose id is not in
    [firefighter_positions]: the test of the [for] loop of
    [Firefighter.move]. *)
Definition burning_free (w : World) (firefighter_positions : list Z) (a : ref)
  : bool :=
  match objs w !! a with
  | Some (IsTree t) =>
      lit_state t && negb (list_in (patch_id (tree_base t)) firefighter_positions)
  | _ => false
  end.

(** ** Concrete inputs *)

Definition origin : float * float := (0%float, 0%float).

Definition two_positions : Dict.t (float * float) := [(1, origin); (2, origin)].
Definition three_positions : Dict.t (float * float) :=
  [(1, origin); (2, origin); (3, origin)].
Definition four_positions : Dict.t (float * float) :=
  [(1, origin); (2, origin); (3, origin); (4, origin)].

Definition cycle_edges : list (Z * Z) := [(1, 2); (2, 3); (3, 4); (4, 1)].
Definition two_component_edges : list (Z * Z) := [(1, 2); (3, 4)].
Definition path_edges : list (Z * Z) := [(1, 2); (2, 3)].


(** The default configuration: two firefighters of skill 50. *)
Definition config_default : Config :=
  mkConfig 80%float (1%float, 30%float, 10%float) (2, 50).


(** The default configuration of [GraphForest] (80% trees, probabilities
    1, 30, 10, two firefighters of skill 50) and the same without
    firefighters. *)
Definition config_unmanned : Config :=
  mkConfig 80%float (1%float, 30%float, 10%float) (0, 50).

(** The state of the end-to-end scenario: four trees at full health on the
    cycle 1-2-3-4-1, tree 1 lit, ignition 0%, transmission 100%, respawn
    0%, no firefighter. *)
Definition config_transmit : Config :=
  mkConfig 100%float (0%float, 100%float, 0%float) (0, 0).

(** Every edge list is accepted by the planarity test in these runs. *)
Definition planar_ok : list (Z * Z) -> bool := fun _ => true.

(** A freshly built tree, used as a concrete input below. *)
Definition sample_tree : Treepatch := TreepatchM.init 1 0%nat false 0%float.

(** A store with one tree (id 1) and one rock (id 2) that are neighbours
    of each other. *)
Definition pair_world : World :=
  mkWorld
    [IsTree (TreepatchM.init 1 0%nat false 1%float);
     IsRock (RockpatchM.init 2 1%nat 10%float)]
    [[(2, 1%nat)]; [(1, 0%nat)]]
    (fun _ => O) 0.

Definition pair_land : Land :=
  mkLand config_unmanned [(1, 0%nat); (2, 1%nat)] [(1, 2)] two_positions
    Dict.empty.

Definition forest_tree (id : Z) (d : dref) (lit : bool) : Landpatch :=
  IsTree (TreepatchM.init id d lit 0%float).

Definition ring_world (tape : nat -> nat) : World :=
  mkWorld
    [forest_tree 1 0%nat true; forest_tree 2 1%nat false;
     forest_tree 3 2%nat false; forest_tree 4 3%nat false]
    [[(2, 1%nat); (4, 3%nat)]; [(1, 0%nat); (3, 2%nat)];
     [(2, 1%nat); (4, 3%nat)]; [(3, 2%nat); (1, 0%nat)]]
    tape 0.

Definition ring_land : Land :=
  mkLand config_transmit [(1, 0%nat); (2, 1%nat); (3, 2%nat); (4, 3%nat)]
    cycle_edges four_positions Dict.empty.

(** ** Repeated updates of a tree *)

(** Consecutive calls of [Treepatch.update], one per roll; the results of
    the calls are collected in order. *)
Fixpoint update_many (rolls : list Z) (t : Treepatch) : Treepatch * list bool :=
  match rolls with
  | [] => (t, [])
  | roll :: rest =>
      let '(t1, signal) := TreepatchM.update roll t in
      let '(t2, signals) := update_many rest t1 in
      (t2, signal :: signals)
  end.

(** The percentage rolls 1, ..., 100. *)
Definition percent_rolls : list Z := map (fun n => Z.of_nat n + 1) (seq 0 100).

(** Number of percentage rolls that pass a test. *)
Definition passing (test : Z -> bool) : nat :=
  length (List.filter test percent_rolls).

(** ** What [GraphBuilder] builds *)

(** The object [create_landpatch] allocates for [id] at position [pos]
    around the fresh dictionary [d], as a tree or as a rock. *)
Definition built_patch (cfg : Config) (tree : bool) (id : Z)
    (pos : float * float) (d : dref) : Landpatch :=
  map_base (base_set_position pos)
    (if tree
     then IsTree (TreepatchM.init id d false (prob_ignition cfg))
     else IsRock (RockpatchM.init id d (prob_respawn cfg))).

(** The objects the first loop of [create_landpatches] allocates, in
    order; [size] and [trees] are the table size and the tree counter
    before the loop and [d] the address of the next dictionary. *)
Fixpoint built_patches (cfg : Config) (positions : Dict.t (float * float))
    (size trees : Z) (d : dref) : list Landpatch :=
  match positions with
  | [] => []
  | (id, pos) :: rest =>
      let tree := plants_tree (landscape cfg) size trees in
      built_patch cfg tree id pos d
        :: built_patches cfg rest (size + 1)
             (if tree then trees + 1 else trees) (S d)
  end.

(** The table entries for these objects, [a] being the address of the
    first one. *)
Fixpoint built_entries (positions : Dict.t (float * float)) (a : ref)
  : Dict.t ref :=
  match positions with
  | [] => []
  | (id, _) :: rest => (id, a) :: built_entries rest (S a)
  end.

(** The neighbour dictionary of node [a] after the second loop of
    [create_landpatches] has gone through [edges], starting from [d]. *)
Fixpoint adjacency (table : Dict.t ref) (edges : list (Z * Z)) (a : Z)
    (d : Dict.t ref) : Dict.t ref :=
  match edges with
  | [] => d
  | (x, y) :: rest =>
      let d1 := if Z.eqb x a
                then match Dict.get table y with
                     | Some r => Dict.set d y r
                     | None => d
                     end
                else d in
      let d2 := if Z.eqb y a
                then match Dict.get table x with
                     | Some r => Dict.set d1 x r
                     | None => d1
                     end
                else d1 in
      adjacency table rest a d2
  end.

(** Both ends of every edge are keys of the table. *)
Definition edges_known (table : Dict.t ref) (edges : list (Z * Z)) : bool :=
  forallb (fun e => list_in (fst e) (Dict.keys table)
                    && list_in (snd e) (Dict.keys table)) edges.

(** [a] and [b] are the two ends of some edge of the list. *)
Definition joined (edges : list (Z * Z)) (a b : Z) : Prop :=
  In (a, b) edges \/ In (b, a) edges.

(** A table whose patches can be wired: distinct keys, every entry an
    object of the store with that id and with a neighbour dictionary of
    its own. *)
Definition wired (w : World) (table : Dict.t ref) : Prop :=
  distinct (Dict.keys table) = true /\
  (forall id a, In (id, a) table ->
     exists p, objs w !! a = Some p /\ patch_id (base p) = id /\
               is_Some (dicts w !! neighbors (base p))) /\
  (forall id1 a1 p1 id2 a2 p2,
     In (id1, a1) table -> In (id2, a2) table ->
     objs w !! a1 = Some p1 -> objs w !! a2 = Some p2 ->
     neighbors (base p1) = neighbors (base p2) -> id1 = id2).

(** The store with the dictionary at [d] replaced. *)
Definition with_dict (d : dref) (v : Dict.t ref) (w : World) : World :=
  mkWorld (objs w) (<[d:=v]> (dicts w)) (tape w) (cursor w).

(** Both ends of every edge are among [ids]. *)
Definition endpoints_in (ids : list Z) (edges : list (Z * Z)) : bool :=
  forallb (fun e => list_in (fst e) ids && list_in (snd e) ids) edges.

(** After [n] patches at [p] percent, the counters add up to [n] and the
    number of trees is less than one patch away from [p] percent of [n]. *)
Definition fill_on_target (p n : nat) : bool :=
  let '(trees, rocks) := fill (float_of_int (Z.of_nat p)) n 0 0 0 in
  (trees + rocks =? Z.of_nat n)
  && (Z.abs (100 * trees - Z.of_nat p * Z.of_nat n) <? 100).

(** ** Spawning *)

(** The position chosen by the [i]-th iteration of the loop of
    [Land.spawn_firefighters] started in store [w]. *)
Definition spawn_pick (self : Land) (w : World) (i : nat) : option Z :=
  Dict.keys (positions self)
    !! (tape w (cursor w + i) mod length (Dict.keys (positions self)))%nat.

(** [p'] is [p], possibly with the firefighter flag raised. *)
Definition flagged (p p' : Landpatch) : Prop :=
  p' = p \/ p' = map_base (base_set_firefighter true) p.

(** Every position has a patch in the table, an object of the store. *)
Definition positions_patched (self : Land) (w : World) : Prop :=
  forall id, In id (Dict.keys (positions self)) ->
    exists a, Dict.get (land_patches self) id = Some a /\
              (a < length (objs w))%nat.

(** The land of [pair_world] under the default configuration. *)
Definition manned_pair_land : Land :=
  mkLand config_default [(1, 0%nat); (2, 1%nat)] [(1, 2)] two_positions
    Dict.empty.

(** ** Colour maps *)

(** The colour of the object at an address. *)
Definition colour_at (w : World) (a : ref) : option Z :=
  match objs w !! a with
  | Some o => color (base o)
  | None => None
  end.

(** The entries of the table whose patch has a colour, with that colour,
    and those whose patch has none. *)
Definition coloured (w : World) (table : Dict.t ref) : Dict.t Z :=
  flat_map (fun e => match colour_at w (snd e) with
                     | Some c => [(fst e, c)]
                     | None => []
                     end) table.

Definition uncoloured (w : World) (table : Dict.t ref) : Dict.t unit :=
  flat_map (fun e => match colour_at w (snd e) with
                     | Some _ => []
                     | None => [(fst e, tt)]
                     end) table.

(** Every tree of the table has colour 256 and every rock has none, as
    the constructors leave them. *)
Definition freshly_coloured (w : World) (table : Dict.t ref) : Prop :=
  forall id a, In (id, a) table ->
    exists p, objs w !! a = Some p /\
      color (base p) = if isinstance_Treepatch p then Some 256 else None.

(** [Land.__init__] can spawn its firefighters: there is a position to
    draw, or no firefighter is asked for. *)
Definition spawnable (cfg : Config) (pos : Dict.t (float * float)) : bool :=
  negb (Nat.eqb (length pos) 0) || (fst (firefighters_config cfg) <=? 0).

(** ** Consecutive steps *)

(** [n] consecutive calls of [Land.update], as the loop of
    [GraphForest.start_simulation] makes them. *)
Fixpoint Land_updates (fuel n : nat) (self : Land) : Py Land :=
  match n with
  | O => ret self
  | S n' => self <- Land_update fuel self ;; Land_updates fuel n' self
  end.

(** ** Random destinations *)

(** The id the [i]-th draw of [random.choice] picks among [ids], counted
    from the cursor of [w]. *)
Definition move_pick (ids : list Z) (w : World) (i : nat) : option Z :=
  ids !! (tape w (cursor w + i) mod length ids)%nat.

(** ** Burning neighbours *)

(** The object at [b] is a lit tree. *)
Definition lit_tree_at (w : World) (b : ref) : bool :=
  match objs w !! b with
  | Some (IsTree t) => lit_state t
  | _ => false
  end.

(** A land with one firefighter, on patch 1 of [pair_world]. *)
Definition guarded_pair_land : Land :=
  mkLand config_default [(1, 0%nat); (2, 1%nat)] [(1, 2)] two_positions
    [(1, mkFirefighter 0 50)].

(** The land of [ring_world] with one firefighter on the burning tree 1. *)
Definition guarded_ring_land : Land :=
  mkLand config_transmit [(1, 0%nat); (2, 1%nat); (3, 2%nat); (4, 3%nat)]
    cycle_edges four_positions [(1, mkFirefighter 0 50)].

(** ** A builder on an inherited table *)




(** * Properties *)

Ltac tree_cases :=
  unfold TreepatchM.update, fight_fire, TreepatchM.set_tree_stats,
    TreepatchM.set_color, TreepatchM.set_lit_state,
    TreepatchM.assign_tree_stats, tree_stats_max, tree_stats_min in *;
  simpl in *;
  repeat match goal with
         | |- context [if ?b then _ else _] => destruct b eqn:?; simpl in *
         | H : (_ <=? _) = true |- _ => apply Z.leb_le in H
         | H : (_ <=? _) = false |- _ => apply Z.leb_gt in H
         end.

(** ** Dictionaries and lists *)

Section DictFacts.
Context {V : Type}.
Implicit Types (d : Dict.t V) (k : Z) (v : V).

Lemma dict_get_set_eq d k v : Dict.get (Dict.set d k v) k = Some v.
Proof.
  induction d as [|[k' v'] d IH]; simpl.
  - now rewrite Z.eqb_refl.
  - destruct (Z.eqb k' k) eqn:E; simpl; rewrite E; auto.
Qed.

Lemma dict_get_set_ne d k k' v :
  k <> k' -> Dict.get (Dict.set d k v) k' = Dict.get d k'.
Proof.
  intros Hne. induction d as [|[k0 v0] d IH]; simpl.
  - destruct (Z.eqb_spec k k'); congruence.
  - destruct (Z.eqb_spec k0 k) as [->|]; simpl.
    + destruct (Z.eqb_spec k k'); congruence.
    + now rewrite IH.
Qed.

Lemma dict_get_None_notin d k :
  Dict.get d k = None <-> ~ In k (Dict.keys d).
Proof.
  induction d as [|[k' v'] d IH]; simpl.
  - tauto.
  - destruct (Z.eqb_spec k' k) as [->|Hne].
    + split; [discriminate | tauto].
    + rewrite IH. tauto.
Qed.

(** A new key is appended, the dictionary grows by one entry. *)
Lemma dict_set_fresh d k v :
  ~ In k (Dict.keys d) -> Dict.set d k v = d ++ [(k, v)].
Proof.
  induction d as [|[k' v'] d IH]; simpl; intros Hnotin.
  - reflexivity.
  - destruct (Z.eqb_spec k' k) as [->|Hne]; [tauto|].
    rewrite IH; tauto.
Qed.

(** An existing key keeps the key list as it is. *)
Lemma dict_keys_set_in d k v :
  In k (Dict.keys d) -> Dict.keys (Dict.set d k v) = Dict.keys d.
Proof.
  induction d as [|[k' v'] d IH]; simpl; intros Hin.
  - tauto.
  - destruct (Z.eqb_spec k' k) as [->|Hne]; simpl; [reflexivity|].
    f_equal. apply IH. destruct Hin; congruence.
Qed.
End DictFacts.

Lemma list_in_In x l : list_in x l = true <-> In x l.
Proof.
  unfold list_in. rewrite existsb_exists. split.
  - intros (y & Hy & Heq). apply Z.eqb_eq in Heq. now subst.
  - intros Hx. exists x. split; [assumption | apply Z.eqb_refl].
Qed.

Section DictSet.
Context {V : Type}.
Implicit Types (d : Dict.t V) (k : Z) (v : V).

Lemma dict_set_length_in d k v :
  In k (Dict.keys d) -> length (Dict.set d k v) = length d.
Proof.
  induction d as [|[k' v'] d IH]; simpl; intros Hin; [tauto|].
  destruct (Z.eqb_spec k' k) as [->|Hne]; simpl; [reflexivity|].
  f_equal. apply IH. destruct Hin; congruence.
Qed.

Lemma dict_set_In d k v k' v' :
  In (k', v') (Dict.set d k v) -> In (k', v') d \/ (k' = k /\ v' = v).
Proof.
  induction d as [|[k0 v0] d IH]; simpl.
  - intros [Heq|[]]. inversion Heq. now right.
  - destruct (Z.eqb_spec k0 k) as [->|Hne]; simpl.
    + intros [Heq|Hin]; [inversion Heq; now right | left; now right].
    + intros [Heq|Hin]; [left; now left|].
      destruct (IH Hin); [left; now right | now right].
Qed.

Lemma dict_get_In d k v : Dict.get d k = Some v -> In (k, v) d.
Proof.
  induction d as [|[k' v'] d IH]; simpl; [discriminate|].
  destruct (Z.eqb_spec k' k) as [->|Hne].
  - intros [= ->]. now left.
  - intros H. right. auto.
Qed.

Lemma dict_In_get d k v :
  distinct (Dict.keys d) = true -> In (k, v) d -> Dict.get d k = Some v.
Proof.
  induction d as [|[k' v'] d IH]; simpl; [tauto|].
  intros Hd. apply andb_true_iff in Hd as [Hk Hd]. apply negb_true_iff in Hk.
  intros [Heq|Hin].
  - inversion Heq; subst. now rewrite Z.eqb_refl.
  - destruct (Z.eqb_spec k' k) as [->|Hne]; [|auto].
    exfalso. assert (In k (Dict.keys d)) by (apply (in_map fst _ _ Hin)).
    apply list_in_In in H. congruence.
Qed.

Lemma dict_values_lookup d (i : nat) v :
  Dict.values d !! i = Some v -> exists k, d !! i = Some (k, v).
Proof.
  unfold Dict.values, Dict.t in *. rewrite list_lookup_fmap. intros H.
  destruct (d !! i) as [[k v0]|] eqn:E; simpl in H; [|discriminate].
  inversion H; subst. eauto.
Qed.
End DictSet.

Lemma dict_keys_app {V} (d1 d2 : Dict.t V) :
  Dict.keys (d1 ++ d2) = Dict.keys d1 ++ Dict.keys d2.
Proof. unfold Dict.keys. apply map_app. Qed.

Lemma dict_values_app {V} (d1 d2 : Dict.t V) :
  Dict.values (d1 ++ d2) = Dict.values d1 ++ Dict.values d2.
Proof. unfold Dict.values. apply map_app. Qed.

Lemma distinct_NoDup l : distinct l = true -> List.NoDup l.
Proof.
  induction l as [|x l IH]; simpl; intros H; constructor.
  - apply andb_true_iff in H as [Hx _]. apply negb_true_iff in Hx.
    intros Hin. apply list_in_In in Hin. congruence.
  - apply andb_true_iff in H as [_ Hl]. auto.
Qed.

Lemma list_remove_In x e l : In x (list_remove e l) -> In x l.
Proof.
  induction l as [|y l IH]; simpl; [tauto|].
  destruct (Z.eqb y e); simpl; tauto.
Qed.

Lemma list_remove_keeps x e l : x <> e -> In x l -> In x (list_remove e l).
Proof.
  intros Hne. induction l as [|y l IH]; simpl; [tauto|].
  destruct (Z.eqb_spec y e) as [->|]; simpl; intros [<-|Hin]; tauto.
Qed.

Lemma list_remove_length e l : (length (list_remove e l) <= length l)%nat.
Proof.
  induction l as [|y l IH]; simpl; [lia|].
  destruct (Z.eqb y e); simpl; lia.
Qed.

Lemma remove_all_In n x e l : In x (remove_all n e l) -> In x l.
Proof.
  revert l. induction n as [|n IH]; intros l; simpl;
    destruct (list_in e l); auto.
  intros Hin. eapply list_remove_In, IH, Hin.
Qed.

Lemma remove_all_keeps n x e l : x <> e -> In x l -> In x (remove_all n e l).
Proof.
  intros Hne. revert l. induction n as [|n IH]; intros l; simpl;
    destruct (list_in e l); auto.
  intros Hin. now apply IH, list_remove_keeps.
Qed.

Lemma remove_all_length n e l : (length (remove_all n e l) <= length l)%nat.
Proof.
  revert l. induction n as [|n IH]; intros l; simpl;
    destruct (list_in e l); try lia.
  specialize (IH (list_remove e l)). pose proof (list_remove_length e l). lia.
Qed.

(** ** Rolls *)

Lemma randint_of_range lo hi x :
  lo <= hi -> lo <= randint_of lo hi x <= hi.
Proof.
  intros Hle. unfold randint_of.
  pose proof (Z.mod_pos_bound (Z.of_nat x) (hi - lo + 1)). lia.
Qed.

(** A percentage roll is one of 1, ..., 100. *)
Lemma percent_roll_cases x :
  exists n, (n < 100)%nat /\ randint_of 1 100 x = Z.of_nat n + 1.
Proof.
  pose proof (randint_of_range 1 100 x ltac:(lia)) as Hr.
  exists (Z.to_nat (randint_of 1 100 x - 1)). lia.
Qed.

(** With probability 0 the tests [roll <= p] and [roll < p] fail for
    every roll. *)
Lemma roll_le_zero x : int_le_float (randint_of 1 100 x) 0%float = false.
Proof.
  destruct (percent_roll_cases x) as (n & Hn & ->).
  assert (Hall : forallb (fun n => negb (int_le_float (Z.of_nat n + 1) 0%float))
                   (seq 0 100) = true) by (vm_compute; reflexivity).
  rewrite forallb_forall in Hall.
  apply negb_true_iff, Hall, in_seq. lia.
Qed.

Lemma roll_lt_zero x : int_lt_float (randint_of 1 100 x) 0%float = false.
Proof.
  destruct (percent_roll_cases x) as (n & Hn & ->).
  assert (Hall : forallb (fun n => negb (int_lt_float (Z.of_nat n + 1) 0%float))
                   (seq 0 100) = true) by (vm_compute; reflexivity).
  rewrite forallb_forall in Hall.
  apply negb_true_iff, Hall, in_seq. lia.
Qed.

Lemma never_ignites_zero : never_ignites 0%float.
Proof. intros x. apply roll_le_zero. Qed.

Lemma never_ignites_default : never_ignites default_prob.
Proof.
  intros x. destruct (percent_roll_cases x) as (n & Hn & ->).
  assert (Hall : forallb (fun n => negb (int_le_float (Z.of_nat n + 1) default_prob))
                   (seq 0 100) = true) by (vm_compute; reflexivity).
  rewrite forallb_forall in Hall.
  apply negb_true_iff, Hall, in_seq. lia.
Qed.

(** ** The store and the monad *)

Lemma bind_Ok {A B} (c : Py A) (k : A -> Py B) w a w' :
  c w = Ok a w' -> bind c k w = k a w'.
Proof. unfold bind. now intros ->. Qed.

Lemma deref_Some a p w : objs w !! a = Some p -> deref a w = Ok p w.
Proof. unfold deref. now intros ->. Qed.

Lemma deref_dict_Some d nd w :
  dicts w !! d = Some nd -> deref_dict d w = Ok nd w.
Proof. unfold deref_dict. now intros ->. Qed.

Lemma as_tree_Some a t w :
  objs w !! a = Some (IsTree t) -> as_tree a w = Ok t w.
Proof. intros Ha. unfold as_tree. now rewrite (bind_Ok _ _ _ _ _ (deref_Some _ _ _ Ha)). Qed.

Lemma get_neighbors_Some a p w :
  objs w !! a = Some p -> get_neighbors a w = Ok (neighbors (base p)) w.
Proof.
  intros Ha. unfold get_neighbors.
  now rewrite (bind_Ok _ _ _ _ _ (deref_Some _ _ _ Ha)).
Qed.

Lemma get_patch_id_Some a p w :
  objs w !! a = Some p -> get_patch_id a w = Ok (patch_id (base p)) w.
Proof.
  intros Ha. unfold get_patch_id.
  now rewrite (bind_Ok _ _ _ _ _ (deref_Some _ _ _ Ha)).
Qed.

(** What [get_neighbors_id] reads: the keys of the dictionary the object
    points to. *)
Lemma get_neighbors_id_inv a p N w :
  objs w !! a = Some p ->
  get_neighbors_id a w = Ok N w ->
  exists nd, dicts w !! neighbors (base p) = Some nd /\ N = Dict.keys nd.
Proof.
  intros Hp. unfold get_neighbors_id, get_neighbors.
  unfold bind at 1 2. rewrite (deref_Some _ _ _ Hp). simpl.
  unfold bind, deref_dict.
  destruct (dicts w !! neighbors (base p)) as [nd|]; simpl; [|discriminate].
  intros [= <-]. eauto.
Qed.

Lemma get_neighbors_id_Ok a p nd w :
  objs w !! a = Some p ->
  dicts w !! neighbors (base p) = Some nd ->
  get_neighbors_id a w = Ok (Dict.keys nd) w.
Proof.
  intros Hp Hd. unfold get_neighbors_id, get_neighbors.
  unfold bind at 1 2. rewrite (deref_Some _ _ _ Hp). simpl.
  unfold bind. now rewrite (deref_dict_Some _ _ _ Hd).
Qed.

Lemma returns_ret {A} (a : A) w (Q : A -> World -> Prop) :
  Q a w -> returns (ret a) w Q.
Proof. intros HQ. exists a, w. now split. Qed.

Lemma returns_bind {A B} (c : Py A) (k : A -> Py B) w (Q : B -> World -> Prop) :
  returns c w (fun a w' => returns (k a) w' Q) -> returns (bind c k) w Q.
Proof.
  intros (a & w' & Hc & b & w'' & Hk & HQ).
  exists b, w''. split; [|assumption]. now rewrite (bind_Ok _ _ _ _ _ Hc).
Qed.

Lemma returns_weaken {A} (c : Py A) w (Q Q' : A -> World -> Prop) :
  (forall a w', Q a w' -> Q' a w') -> returns c w Q -> returns c w Q'.
Proof. intros Himp (a & w' & Hc & HQ). exists a, w'. auto. Qed.

Lemma advance_advance j k w : advance k (advance j w) = advance (j + k) w.
Proof. unfold advance. simpl. f_equal. lia. Qed.

Lemma advance_0 w : advance 0 w = w.
Proof. unfold advance. destruct w. simpl. f_equal. lia. Qed.

Lemma randint_Ok lo hi w :
  randint lo hi w = Ok (randint_of lo hi (tape w (cursor w))) (advance 1 w).
Proof. unfold randint, draw, bind, ret, advance. do 2 f_equal. lia. Qed.

Lemma is_Some_insert (l : list Landpatch) a p b :
  is_Some (l !! b) -> is_Some (<[a:=p]> l !! b).
Proof. rewrite !lookup_lt_is_Some, length_insert. auto. Qed.

Lemma is_Some_app (l : list Landpatch) p b :
  is_Some (l !! b) -> is_Some ((l ++ [p]) !! b).
Proof. rewrite !lookup_lt_is_Some, length_app. simpl. lia. Qed.

(** ** The tree state machine *)

(** C5: one [Treepatch.update] on a tree with health in [0,256].  The roll
    against the autocombustion probability comes first and, when it
    succeeds, the tree is lit.  An unlit tree then gains exactly 10 health,
    capped at 256, and the method returns [False] (stay); a lit tree with
    [health - 20 >= 0] loses exactly 20 and the method returns [False]; a
    lit tree with [health - 20 < 0] keeps its health and the method returns
    [True] (mutate to rock). *)
Theorem C5_tree_update_step (roll : Z) (t : Treepatch) :
  0 <= tree_stats t <= 256 ->
  let ignited := int_le_float roll (prob_autcombustion t) in
  let lit := ignited || lit_state t in
  let t' := fst (TreepatchM.update roll t) in
  let signal := snd (TreepatchM.update roll t) in
  lit_state t' = lit /\
  (lit = false ->
     tree_stats t' = Z.min (tree_stats t + 10) 256 /\ signal = false) /\
  (lit = true -> 0 <= tree_stats t - 20 ->
     tree_stats t' = tree_stats t - 20 /\ signal = false) /\
  (lit = true -> tree_stats t - 20 < 0 ->
     tree_stats t' = tree_stats t /\ signal = true).
Proof.
  intros Hr. cbv zeta.
  unfold TreepatchM.update, TreepatchM.set_color, TreepatchM.set_lit_state,
    TreepatchM.assign_tree_stats, tree_stats_max, tree_stats_min.
  destruct (int_le_float roll (prob_autcombustion t)); simpl.
  - destruct (0 <=? tree_stats t - 20) eqn:E; simpl;
      [apply Z.leb_le in E | apply Z.leb_gt in E];
      repeat split; intros; first [lia | congruence | exfalso; lia].
  - destruct (lit_state t) eqn:L; simpl.
    + destruct (0 <=? tree_stats t - 20) eqn:E; simpl;
        [apply Z.leb_le in E | apply Z.leb_gt in E];
        repeat split; intros; first [lia | congruence | exfalso; lia].
    + destruct (tree_stats t + 10 <=? 256) eqn:E; simpl;
        [apply Z.leb_le in E | apply Z.leb_gt in E];
        repeat split; intros; first [lia | congruence | exfalso; lia].
Qed.

Lemma C5_tree_update_step_witness :
  lit_state (fst (TreepatchM.update 7 sample_tree)) = false /\
  tree_stats (fst (TreepatchM.update 7 sample_tree)) = 256 /\
  snd (TreepatchM.update 7 sample_tree) = false.
Proof.
  assert (Hr : 0 <= tree_stats sample_tree <= 256)
    by (simpl; unfold tree_stats_max; lia).
  destruct (C5_tree_update_step 7 sample_tree Hr) as (Hlit & Hunlit & _).
  destruct (Hunlit eq_refl) as [Hstats Hsig].
  split; [exact Hlit | split; [exact Hstats | exact Hsig]].
Defined.

(** [Treepatch.update] through a reference: one percentage roll is drawn
    and the object is replaced by the updated tree. *)
Lemma Landpatch_update_tree a t w :
  objs w !! a = Some (IsTree t) ->
  let roll := randint_of 1 100 (tape w (cursor w)) in
  Landpatch_update a w =
    Ok (snd (TreepatchM.update roll t))
       (with_obj a (IsTree (fst (TreepatchM.update roll t))) (advance 1 w)).
Proof.
  intros Ha roll. unfold Landpatch_update.
  rewrite (bind_Ok _ _ _ _ _ (deref_Some _ _ _ Ha)).
  rewrite (bind_Ok _ _ _ _ _ (randint_Ok 1 100 w)). fold roll.
  now destruct (TreepatchM.update roll t) as [t' res].
Qed.

(** [Rockpatch.update] through a reference. *)
Lemma Landpatch_update_rock a r w :
  objs w !! a = Some (IsRock r) ->
  Landpatch_update a w =
    Ok (RockpatchM.update (randint_of 1 100 (tape w (cursor w))) r)
       (advance 1 w).
Proof.
  intros Ha. unfold Landpatch_update.
  rewrite (bind_Ok _ _ _ _ _ (deref_Some _ _ _ Ha)).
  now rewrite (bind_Ok _ _ _ _ _ (randint_Ok 1 100 w)).
Qed.

(** [Firefighter.fight_fire] through a reference. *)
Lemma Firefighter_fight_fire_tree f a t w :
  objs w !! a = Some (IsTree t) ->
  Firefighter_fight_fire f a w = Ok tt (with_obj a (IsTree (fight_fire f t)) w).
Proof.
  intros Ha. unfold Firefighter_fight_fire.
  now rewrite (bind_Ok _ _ _ _ _ (as_tree_Some _ _ _ Ha)).
Qed.

Lemma apply_op_in_range op t :
  in_range t -> op_ok op = true -> in_range (apply_op op t).
Proof.
  unfold in_range. destruct op as [roll|stats|f]; simpl; intros Hr Hok;
    try apply Z.leb_le in Hok; tree_cases; lia.
Qed.

Lemma apply_op_full_unlit op t :
  in_range t -> op_ok op = true ->
  tree_stats (apply_op op t) = 256 -> lit_state (apply_op op t) = false.
Proof.
  unfold in_range. destruct op as [roll|stats|f]; simpl; intros Hr Hok;
    try apply Z.leb_le in Hok; tree_cases; intros; try lia; try congruence;
    try reflexivity.
  all: match goal with H : negb _ = _ |- _ => apply negb_true_iff in H end;
    congruence.
Qed.

Lemma fight_fire_monotone f t :
  in_range t -> 0 <= avg_skill f ->
  tree_stats t <= tree_stats (fight_fire f t) <= 256.
Proof. unfold in_range. intros Hr Hs. tree_cases; lia. Qed.

Lemma run_ops_in_range ops t :
  in_range t -> forallb op_ok ops = true -> in_range (run_ops ops t).
Proof.
  revert t. induction ops as [|op ops IH]; simpl; intros t Hr Hok; [assumption|].
  apply andb_true_iff in Hok as [Hop Hops].
  apply IH; [apply apply_op_in_range|]; assumption.
Qed.

Lemma run_ops_app pre post t :
  run_ops (pre ++ post) t = run_ops post (run_ops pre t).
Proof. unfold run_ops. apply fold_left_app. Qed.

(** C4, as stated: [set_tree_stats] caps at 256 but has no floor, so a
    negative argument leaves the health below 0.  One call
    [set_tree_stats(-1)] on a tree at full health gives health -1. *)
Lemma C4_counterexample_negative_stats :
  in_range sample_tree /\
  ~ in_range (run_ops [OpSetTreeStats (-1)] sample_tree).
Proof.
  split.
  - unfold in_range. simpl. unfold tree_stats_max. lia.
  - unfold in_range. simpl. lia.
Qed.

(** C4, amended: for a tree whose health starts in [0,256], along any
    sequence of [Treepatch.update], [set_tree_stats] with a non-negative
    argument and [fight_fire] with a non-negative skill, the health after
    every operation is in [0,256]; an operation that leaves the health at
    256 leaves the tree unlit; [fight_fire] never decreases the health; and
    the health at the end of the sequence is in [0,256]. *)
Theorem C4_tree_health_invariant (t : Treepatch) (ops : list tree_op) :
  0 <= tree_stats t <= 256 ->
  forallb op_ok ops = true ->
  (forall pre op post, ops = pre ++ op :: post ->
     let before := run_ops pre t in
     let after := apply_op op before in
     0 <= tree_stats after <= 256 /\
     (tree_stats after = 256 -> lit_state after = false) /\
     (forall f, op = OpFightFire f -> tree_stats before <= tree_stats after)) /\
  0 <= tree_stats (run_ops ops t) <= 256.
Proof.
  intros Hr Hok. split; [|now apply run_ops_in_range].
  intros pre op post -> before after.
  rewrite forallb_app in Hok. apply andb_true_iff in Hok as [Hpre Hrest].
  simpl in Hrest. apply andb_true_iff in Hrest as [Hop _].
  assert (Hb : in_range before) by now apply run_ops_in_range.
  repeat split.
  - now apply apply_op_in_range.
  - now apply apply_op_in_range.
  - now apply apply_op_full_unlit.
  - intros f ->. simpl in Hop. apply Z.leb_le in Hop.
    now apply fight_fire_monotone.
Qed.

Lemma C4_tree_health_invariant_witness :
  0 <= tree_stats (run_ops
         [OpUpdate 100; OpSetTreeStats 300; OpFightFire (mkFirefighter 0 50)]
         (TreepatchM.set_lit_state true sample_tree)) <= 256.
Proof.
  apply (C4_tree_health_invariant (TreepatchM.set_lit_state true sample_tree)
           [OpUpdate 100; OpSetTreeStats 300; OpFightFire (mkFirefighter 0 50)]).
  - simpl. unfold tree_stats_max. lia.
  - reflexivity.
Defined.

(** ** Mutation *)

(** C10: the patch returned by [mutate] has its firefighter flag [False]
    and its position at the default [(0.0, 0.0)], whatever the flag and the
    position of the outgoing patch were; the id and the neighbour
    dictionary are the ones of the outgoing patch. *)
Theorem C10_mutate_resets_occupancy_and_position (p : Landpatch) :
  firefighter (base (mutate p)) = false /\
  position (base (mutate p)) = (0%float, 0%float) /\
  patch_id (base (mutate p)) = patch_id (base p) /\
  neighbors (base (mutate p)) = neighbors (base p).
Proof. destruct p as [t|r]; repeat split. Qed.

(** [mutate] allocates the replacement at the next free address and leaves
    every existing object and every dictionary as it is. *)
Lemma Landpatch_mutate_Ok a p w :
  objs w !! a = Some p ->
  Landpatch_mutate a w =
    Ok (length (objs w))
       (mkWorld (objs w ++ [mutate p]) (dicts w) (tape w) (cursor w)).
Proof.
  intros Hp. unfold Landpatch_mutate.
  now rewrite (bind_Ok _ _ _ _ _ (deref_Some _ _ _ Hp)).
Qed.

Lemma mutate_flips_class p :
  isinstance_Treepatch (mutate p) = negb (isinstance_Treepatch p).
Proof. now destruct p. Qed.

(** C6: for a patch [P] with id [i] and neighbour ids [N], the object
    returned by [P.mutate()] is of the opposite class, has id [i] and has
    the neighbour ids [N]; after [Land.mutate_landpatch] the patch table
    maps [i] to that object, so the table still reports [N] as the
    neighbours of [i]. *)
Theorem C6_mutation_preserves_id_and_neighbors
    (self : Land) (w : World) (a : ref) (p : Landpatch) (N : list Z) :
  objs w !! a = Some p ->
  get_neighbors_id a w = Ok N w ->
  exists (a' : ref) (w' : World) (p' : Landpatch) (self' : Land),
    Landpatch_mutate a w = Ok a' w' /\
    objs w' !! a' = Some p' /\
    isinstance_Treepatch p' = negb (isinstance_Treepatch p) /\
    patch_id (base p') = patch_id (base p) /\
    get_neighbors_id a' w' = Ok N w' /\
    mutate_landpatch self a w = Ok self' w' /\
    Dict.get (land_patches self') (patch_id (base p)) = Some a'.
Proof.
  intros Hp HN.
  destruct (get_neighbors_id_inv _ _ _ _ Hp HN) as (nd & Hd & ->).
  pose (w' := mkWorld (objs w ++ [mutate p]) (dicts w) (tape w) (cursor w)).
  assert (Hnew : objs w' !! length (objs w) = Some (mutate p))
    by (simpl; now apply list_lookup_middle).
  assert (Hid : patch_id (base (mutate p)) = patch_id (base p))
    by now destruct p.
  assert (Hnb : neighbors (base (mutate p)) = neighbors (base p))
    by now destruct p.
  exists (length (objs w)), w', (mutate p),
    (with_land_patches
       (Dict.set (land_patches self) (patch_id (base p)) (length (objs w))) self).
  repeat split.
  - now apply Landpatch_mutate_Ok.
  - exact Hnew.
  - apply mutate_flips_class.
  - exact Hid.
  - apply (get_neighbors_id_Ok _ _ _ _ Hnew). now rewrite Hnb.
  - unfold mutate_landpatch.
    rewrite (bind_Ok _ _ _ _ _ (Landpatch_mutate_Ok _ _ _ Hp)). fold w'.
    assert (Hkey : get_patch_id (length (objs w)) w'
                   = Ok (patch_id (base (mutate p))) w')
      by (unfold get_patch_id; now rewrite (bind_Ok _ _ _ _ _ (deref_Some _ _ _ Hnew))).
    rewrite (bind_Ok _ _ _ _ _ Hkey). unfold ret. now rewrite Hid.
  - simpl. apply dict_get_set_eq.
Qed.

Lemma C6_mutation_preserves_id_and_neighbors_witness :
  exists (a' : ref) (w' : World) (p' : Landpatch) (self' : Land),
    Landpatch_mutate 0%nat pair_world = Ok a' w' /\
    objs w' !! a' = Some p' /\
    isinstance_Treepatch p' = negb true /\
    patch_id (base p') = 1 /\
    get_neighbors_id a' w' = Ok [2] w' /\
    mutate_landpatch pair_land 0%nat pair_world = Ok self' w' /\
    Dict.get (land_patches self') 1 = Some a'.
Proof.
  apply (C6_mutation_preserves_id_and_neighbors pair_land pair_world 0%nat
           (IsTree (TreepatchM.init 1 0%nat false 1%float)) [2]).
  - reflexivity.
  - reflexivity.
Defined.

(** X19: [Land.mutate_landpatch] on any patch of a closed store returns
    and enters the replacement, a new object, in the table under the id
    of the patch.  It changes no dictionary and no existing object:
    whatever object a patch [q] reaches under a neighbour id before the
    call, it reaches the same object after it, and that object is not
    the replacement the patch table now holds. *)
Lemma mutate_landpatch_neighbors_unchanged (self : Land) w a p :
  closed w -> objs w !! a = Some p ->
  returns (mutate_landpatch self a) w
    (fun self' w' =>
       Dict.get (land_patches self') (patch_id (base p))
         = Some (length (objs w)) /\
       forall q id b,
         neighbor_through q id w = Ok b w ->
         neighbor_through q id w' = Ok b w' /\
         objs w' !! b = objs w !! b /\
         b <> length (objs w)).
Proof.
  intros Hclosed Ha.
  assert (Hid : patch_id (base (mutate p)) = patch_id (base p)) by now destruct p.
  unfold mutate_landpatch.
  apply returns_bind. eexists _, _.
  split; [apply (Landpatch_mutate_Ok _ _ _ Ha)|].
  fold (with_new_obj (mutate p) w).
  apply returns_bind. eexists _, _. split.
  { apply (get_patch_id_Some _ (mutate p)). simpl. now apply list_lookup_middle. }
  apply returns_ret. rewrite Hid. split; [simpl; apply dict_get_set_eq|].
  intros q id b Hthrough. unfold neighbor_through in *.
  unfold bind, get_neighbors, deref, deref_dict in Hthrough. unfold bind in Hthrough.
  destruct (objs w !! q) as [pq|] eqn:Hq; simpl in Hthrough; [|discriminate].
  destruct (dicts w !! neighbors (base pq)) as [nd|] eqn:Hnd;
    simpl in Hthrough; [|discriminate].
  destruct (Dict.get nd id) as [b'|] eqn:Hget; simpl in Hthrough; [|discriminate].
  injection Hthrough as ->.
  destruct (Hclosed q pq Hq) as (nd' & Hnd' & Hvalid).
  rewrite Hnd in Hnd'. injection Hnd' as <-.
  assert (Hb : is_Some (objs w !! b)).
  { rewrite Forall_forall in Hvalid. apply Hvalid.
    apply list_elem_of_In. apply (in_map snd _ _ (dict_get_In _ _ _ Hget)). }
  apply lookup_lt_is_Some in Hb.
  assert (Hq' : objs (with_new_obj (mutate p) w) !! q = Some pq)
    by (simpl; rewrite lookup_app_l by (eapply lookup_lt_Some, Hq); exact Hq).
  assert (Hnd' : dicts (with_new_obj (mutate p) w) !! neighbors (base pq)
                 = Some nd) by exact Hnd.
  split; [|split].
  - rewrite (bind_Ok _ _ _ _ _ (get_neighbors_Some _ _ _ Hq')).
    rewrite (bind_Ok _ _ _ _ _ (deref_dict_Some _ _ _ Hnd')).
    now rewrite Hget.
  - simpl. now rewrite lookup_app_l.
  - lia.
Qed.

Lemma pair_world_closed : closed pair_world.
Proof.
  intros a p Ha.
  do 2 (destruct a as [|a];
        [inversion Ha; subst; eexists; split; [reflexivity|];
         repeat constructor; eexists; reflexivity|]).
  discriminate.
Qed.

Lemma mutate_landpatch_neighbors_unchanged_witness :
  returns (mutate_landpatch pair_land 0%nat) pair_world
    (fun self' w' =>
       Dict.get (land_patches self') 1 = Some 2%nat /\
       neighbor_through 1%nat 1 w' = Ok 0%nat w').
Proof.
  eapply returns_weaken;
    [|apply (mutate_landpatch_neighbors_unchanged pair_land pair_world 0%nat
               (IsTree (TreepatchM.init 1 0%nat false 1%float)));
      [apply pair_world_closed | reflexivity]].
  intros self' w' [Hget Hkeep]. split; [exact Hget|].
  apply (Hkeep 1%nat 1 0%nat). reflexivity.
Defined.

(** C3: after [mutate_landpatch] has replaced patch 1, the neighbour
    dictionary of patch 2 still holds the old object: the object reached
    through patch 2 under id 1 is not the one the table holds, it is still
    a [Treepatch] while the table's patch 1 is a [Rockpatch]. *)
Theorem C3_neighbor_keeps_replaced_object (tape : nat -> nat) :
  result_of
    ((forest <- Land_init planar_ok 100 config_unmanned Dict.empty
                [(1, 2)] two_positions Dict.empty ;;
      p <- lookup_patch forest 1 ;;
      q <- lookup_patch forest 2 ;;
      forest' <- mutate_landpatch forest p ;;
      seen <- neighbor_through q 1 ;;
      current <- lookup_patch forest' 1 ;;
      o_seen <- deref seen ;;
      o_current <- deref current ;;
      ret (Nat.eqb seen p, Nat.eqb seen current,
           isinstance_Treepatch o_seen, isinstance_Treepatch o_current))
       (empty_world tape)) = Some (true, false, true, false).
Proof. reflexivity. Qed.

(** ** The greedy fill of [GraphBuilder] *)

Lemma count_where_app f l1 l2 :
  count_where f (l1 ++ l2) = count_where f l1 + count_where f l2.
Proof. induction l1 as [|a l1 IH]; simpl; [reflexivity | rewrite IH; lia]. Qed.

Lemma count_where_ext f g l :
  Forall (fun a => f a = g a) l -> count_where f l = count_where g l.
Proof. induction 1 as [|a l Ha _ IH]; simpl; [reflexivity | now rewrite Ha, IH]. Qed.

(** One call of [create_landpatch] with an id that is not yet a key: one
    object and one empty dictionary are allocated, the table gets one more
    entry, and the class of the object is decided by [plants_tree]. *)
Lemma create_landpatch_fresh (gb : GraphBuilder) id pos w :
  ~ In id (Dict.keys (gb_land_patches gb)) ->
  let tree := plants_tree (landscape (gb_configs gb))
                (Dict.len (gb_land_patches gb)) (number_of_trees gb) in
  exists o,
    isinstance_Treepatch o = tree /\
    create_landpatch gb id pos w =
      Ok (mkGraphBuilder (gb_configs gb)
            (gb_land_patches gb ++ [(id, length (objs w))])
            (number_of_rocks gb + (if tree then 0 else 1))
            (number_of_trees gb + (if tree then 1 else 0)))
         (mkWorld (objs w ++ [o]) (dicts w ++ [Dict.empty]) (tape w) (cursor w)).
Proof.
  intros Hfresh tree. subst tree. unfold plants_tree, create_landpatch.
  destruct (PrimFloat.ltb _ _);
    (eexists; split; [|
       cbv [bind new_dict new set_position get_patch_id deref assign ret
            of_option objs dicts tape cursor];
       rewrite list_lookup_middle by reflexivity;
       rewrite insert_app_r_alt by reflexivity;
       rewrite Nat.sub_diag; cbn [insert list_insert];
       rewrite list_lookup_middle by reflexivity;
       cbn [map_base base patch_id tree_base rock_base base_set_position
            TreepatchM.init TreepatchM.set_color RockpatchM.init
            RockpatchM.set_color base_set_color Landpatch_init];
       rewrite dict_set_fresh by assumption;
       rewrite Z.add_0_r; reflexivity ]);
    reflexivity.
Qed.

Section Allocation.
Variables (w : World) (o : Landpatch) (d : Dict.t ref).

Lemma is_tree_at_alloc_old a :
  (a < length (objs w))%nat -> is_tree_at (allocated w o d) a = is_tree_at w a.
Proof. intros Ha. unfold is_tree_at. simpl. now rewrite lookup_app_l. Qed.

Lemma is_rock_at_alloc_old a :
  (a < length (objs w))%nat -> is_rock_at (allocated w o d) a = is_rock_at w a.
Proof. intros Ha. unfold is_rock_at. simpl. now rewrite lookup_app_l. Qed.

Lemma is_tree_at_alloc_new :
  is_tree_at (allocated w o d) (length (objs w)) = isinstance_Treepatch o.
Proof.
  unfold is_tree_at. simpl. rewrite list_lookup_middle by reflexivity.
  now destruct o.
Qed.

Lemma is_rock_at_alloc_new :
  is_rock_at (allocated w o d) (length (objs w)) = negb (isinstance_Treepatch o).
Proof.
  unfold is_rock_at. simpl. rewrite list_lookup_middle by reflexivity.
  now destruct o.
Qed.

Lemma count_alloc table k :
  table_bound w table ->
  count_trees (allocated w o d) (table ++ [(k, length (objs w))])
    = count_trees w table + (if isinstance_Treepatch o then 1 else 0) /\
  count_rocks (allocated w o d) (table ++ [(k, length (objs w))])
    = count_rocks w table + (if isinstance_Treepatch o then 0 else 1).
Proof.
  intros Hb. unfold count_trees, count_rocks.
  rewrite dict_values_app, !count_where_app. simpl.
  rewrite is_tree_at_alloc_new, is_rock_at_alloc_new.
  rewrite (count_where_ext (is_tree_at (allocated w o d)) (is_tree_at w)),
          (count_where_ext (is_rock_at (allocated w o d)) (is_rock_at w)).
  - destruct (isinstance_Treepatch o); simpl; lia.
  - eapply Forall_impl; [exact Hb|]. intros a Ha. now apply is_rock_at_alloc_old.
  - eapply Forall_impl; [exact Hb|]. intros a Ha. now apply is_tree_at_alloc_old.
Qed.

Lemma table_bound_alloc table k :
  table_bound w table -> table_bound (allocated w o d) (table ++ [(k, length (objs w))]).
Proof.
  unfold table_bound. intros Hb. rewrite dict_values_app. simpl.
  rewrite length_app. simpl.
  apply Forall_app. split.
  - eapply Forall_impl; [exact Hb|]. simpl. intros; lia.
  - constructor; [lia | constructor].
Qed.
End Allocation.

(** The first loop of [create_landpatches] on ids that are pairwise
    distinct and not yet in the table: it runs to the end, the counters
    follow [fill], and the numbers of tree and rock objects in the table
    grow exactly as the counters do. *)
Lemma create_patches_fill (pos : Dict.t (float * float)) :
  forall (gb : GraphBuilder) (w : World),
    distinct (Dict.keys pos) = true ->
    (forall k, In k (Dict.keys pos) -> ~ In k (Dict.keys (gb_land_patches gb))) ->
    table_bound w (gb_land_patches gb) ->
    exists gb' w',
      create_patches gb pos w = Ok gb' w' /\
      (number_of_trees gb', number_of_rocks gb')
        = fill (landscape (gb_configs gb)) (length pos)
            (Dict.len (gb_land_patches gb))
            (number_of_trees gb) (number_of_rocks gb) /\
      count_trees w' (gb_land_patches gb') - number_of_trees gb'
        = count_trees w (gb_land_patches gb) - number_of_trees gb /\
      count_rocks w' (gb_land_patches gb') - number_of_rocks gb'
        = count_rocks w (gb_land_patches gb) - number_of_rocks gb /\
      Dict.keys (gb_land_patches gb')
        = Dict.keys (gb_land_patches gb) ++ Dict.keys pos.
Proof.
  induction pos as [|[id p] rest IH]; intros gb w Hdist Hfresh Hbound.
  - exists gb, w. simpl. rewrite app_nil_r. repeat split; reflexivity.
  - simpl in Hdist. apply andb_true_iff in Hdist as [Hid Hrest].
    apply negb_true_iff in Hid.
    assert (Hid' : ~ In id (Dict.keys rest)).
    { intros Hin. apply list_in_In in Hin. congruence. }
    assert (Hnew : ~ In id (Dict.keys (gb_land_patches gb))).
    { apply Hfresh. simpl. now left. }
    destruct (create_landpatch_fresh gb id p w Hnew) as (o & Hclass & Hstep).
    cbv zeta in Hclass, Hstep.
    set (tree := plants_tree (landscape (gb_configs gb))
                   (Dict.len (gb_land_patches gb)) (number_of_trees gb)) in *.
    set (gb1 := mkGraphBuilder _ _ _ _) in Hstep.
    set (w1 := mkWorld _ _ _ _) in Hstep.
    destruct (IH gb1 w1 Hrest) as (gb' & w' & Hrun & Hfill & Htrees & Hrocks & Hkeys).
    + intros k Hk. subst gb1. simpl. rewrite dict_keys_app. simpl.
      intros Hin. apply in_app_or in Hin as [Hin|[<-|[]]].
      * apply (Hfresh k); [simpl; now right | assumption].
      * contradiction.
    + subst gb1 w1. simpl. now apply table_bound_alloc.
    + exists gb', w'.
      destruct (count_alloc w o Dict.empty (gb_land_patches gb) id Hbound)
        as [Hct Hcr].
      unfold allocated in Hct, Hcr.
      rewrite Hclass in Hct, Hcr.
      split; [|split; [|split; [|split]]].
      * simpl. now rewrite (bind_Ok _ _ _ _ _ Hstep).
      * rewrite Hfill. subst gb1. cbn [fill length]. simpl gb_configs.
        simpl gb_land_patches. simpl number_of_trees. simpl number_of_rocks.
        fold tree.
        replace (Dict.len (gb_land_patches gb ++ [(id, length (objs w))]))
          with (Dict.len (gb_land_patches gb) + 1)
          by (unfold Dict.len; rewrite length_app; simpl; lia).
        destruct tree; rewrite ?Z.add_0_r; reflexivity.
      * rewrite Htrees. subst gb1 w1. simpl gb_land_patches.
        simpl number_of_trees. rewrite Hct. destruct tree; lia.
      * rewrite Hrocks. subst gb1 w1. simpl gb_land_patches.
        simpl number_of_rocks. rewrite Hcr. destruct tree; lia.
      * rewrite Hkeys. subst gb1. simpl gb_land_patches.
        rewrite dict_keys_app. simpl. now rewrite <- app_assoc.
Qed.




(** ** Connectivity validation *)

Lemma total_entries_bound (ds : list (Dict.t ref)) d nd :
  ds !! d = Some nd -> (length nd <= total_entries ds)%nat.
Proof.
  revert d. induction ds as [|d0 ds IH]; intros [|d]; simpl; try discriminate.
  - intros [= ->]. lia.
  - intros H. specialize (IH _ H). lia.
Qed.

Lemma graph_closed_node w table nodes e :
  graph_closed w table nodes = true -> In e nodes ->
  exists a N,
    Dict.get table e = Some a /\
    get_neighbors_id a w = Ok N w /\
    (forall n, In n N -> In n nodes) /\
    (length N <= total_entries (dicts w))%nat.
Proof.
  unfold graph_closed. rewrite forallb_forall. intros Hall Hin.
  specialize (Hall e Hin).
  destruct (Dict.get table e) as [a|]; [|discriminate].
  destruct (objs w !! a) as [p|] eqn:Hp; [|discriminate].
  destruct (dicts w !! neighbors (base p)) as [nd|] eqn:Hnd; [|discriminate].
  exists a, (Dict.keys nd). repeat split.
  - now apply (get_neighbors_id_Ok _ p).
  - intros n Hn. rewrite forallb_forall in Hall. now apply list_in_In, Hall.
  - unfold Dict.keys. rewrite length_map. eapply total_entries_bound, Hnd.
Qed.

(** One iteration of the loop on a non-empty work list. *)
Lemma validate_loop_step fuel table unchecked validated :
  unchecked <> [] ->
  validate_loop (S fuel) table unchecked validated =
    let edge := List.last unchecked 0 in
    let front := removelast unchecked in
    if list_in edge validated
    then validate_loop fuel table front validated
    else
      patch <- of_option KeyError (Dict.get table edge) ;;
      ids <- get_neighbors_id patch ;;
      validate_loop fuel table
        (remove_all (length (front ++ ids)) edge (front ++ ids))
        (validated ++ [edge]).
Proof. destruct unchecked; [congruence | reflexivity]. Qed.

Section ValidateLoop.
Variables (w : World) (table : Dict.t ref) (nodes : list Z).
Hypothesis Hclosed : graph_closed w table nodes = true.

(** The loop keeps three facts about its lists: [validated] has no
    duplicate, both lists hold nodes only, and every node is in one of
    them.  The measure [length unchecked + (D + 1) * (number of nodes not
    yet validated)] decreases with every iteration. *)
Lemma validate_loop_total (fuel : nat) :
  forall unchecked validated,
    List.NoDup validated ->
    (forall x, In x validated -> In x nodes) ->
    (forall x, In x unchecked -> In x nodes) ->
    (forall x, In x nodes -> In x unchecked \/ In x validated) ->
    (length unchecked
       + (total_entries (dicts w) + 1) * (length nodes - length validated)
     < fuel)%nat ->
    exists validated',
      validate_loop fuel table unchecked validated w = Ok validated' w /\
      List.NoDup validated' /\
      (forall x, In x validated' <-> In x nodes).
Proof.
  induction fuel as [|fuel IH];
    intros unchecked validated Hnd Hv Hu Hcover Hfuel;
    [exfalso; inversion Hfuel|].
  destruct unchecked as [|u rest] eqn:Hshape.
  - exists validated. simpl. repeat split; auto.
    intros Hx. destruct (Hcover x Hx) as [[]|]; assumption.
  - rewrite <- Hshape in *.
    assert (Hne : unchecked <> []) by (subst; discriminate).
    pose proof (app_removelast_last 0 Hne) as Hsplit.
    set (edge := List.last unchecked 0) in *.
    set (front := removelast unchecked) in *.
    assert (Hlen : length unchecked = S (length front))
      by (rewrite Hsplit, length_app; simpl; lia).
    assert (Hedge : In edge nodes)
      by (apply Hu; rewrite Hsplit; apply in_or_app; right; now left).
    assert (Hfront : forall x, In x front -> In x nodes)
      by (intros x Hx; apply Hu; rewrite Hsplit; apply in_or_app; now left).
    rewrite (validate_loop_step fuel table unchecked validated Hne).
    cbv zeta. fold edge front.
    destruct (list_in edge validated) eqn:Hseen.
    + apply list_in_In in Hseen. apply IH; auto.
      * intros x Hx. destruct (Hcover x Hx) as [Hin|Hin]; [|now right].
        rewrite Hsplit in Hin. apply in_app_or in Hin as [Hin|[<-|[]]]; auto.
      * lia.
    + assert (Hnew : ~ In edge validated).
      { intros Hin. apply list_in_In in Hin. congruence. }
      destruct (graph_closed_node _ _ _ _ Hclosed Hedge)
        as (a & N & Hget & Hids & HN & Hdeg).
      unfold bind. rewrite Hget. simpl. rewrite Hids.
      assert (Hnd' : List.NoDup (validated ++ [edge])).
      { apply List.NoDup_app; [assumption | repeat constructor; intros [] |].
        intros x Hx [<-|[]]. contradiction. }
      assert (Hv' : forall x, In x (validated ++ [edge]) -> In x nodes).
      { intros x Hx. apply in_app_or in Hx as [Hx|[<-|[]]]; auto. }
      pose proof (List.NoDup_incl_length Hnd' Hv') as Hcard.
      rewrite length_app in Hcard. simpl in Hcard.
      apply IH; auto.
      * intros x Hx. apply remove_all_In in Hx.
        apply in_app_or in Hx as [Hx|Hx]; auto.
      * intros x Hx. destruct (Z.eq_dec x edge) as [->|Hdiff].
        -- right. apply in_or_app. right. now left.
        -- destruct (Hcover x Hx) as [Hin|Hin].
           ++ left. apply remove_all_keeps; [assumption|].
              rewrite Hsplit in Hin.
              apply in_app_or in Hin as [Hin|[<-|[]]]; [|contradiction].
              apply in_or_app. now left.
           ++ right. apply in_or_app. now left.
      * pose proof (remove_all_length (length (front ++ N)) edge (front ++ N))
          as Hrm.
        rewrite !length_app in Hrm. rewrite !length_app. simpl length.
        replace (length nodes - (length validated + 1))%nat
          with (length nodes - length validated - 1)%nat by lia.
        remember (length nodes - length validated)%nat as m eqn:Hm.
        destruct m as [|m]; [lia|].
        rewrite Nat.mul_succ_r in Hfuel. simpl. rewrite Nat.sub_0_r. lia.
Qed.
End ValidateLoop.

(** On every graph whose neighbour ids are nodes of the graph, connected
    or not, [validate_graph] returns [True] once the loop is given
    [validate_fuel] iterations. *)
Lemma validate_graph_always_true (w : World) (table : Dict.t ref)
    (pos : Dict.t (float * float)) (fuel : nat) :
  distinct (Dict.keys pos) = true ->
  graph_closed w table (Dict.keys pos) = true ->
  (validate_fuel w (length pos) <= fuel)%nat ->
  validate_graph fuel pos table w = Ok true w.
Proof.
  intros Hdist Hclosed Hfuel. apply distinct_NoDup in Hdist.
  destruct (validate_loop_total w table (Dict.keys pos) Hclosed fuel
              (Dict.keys pos) [])
    as (validated & Hrun & Hnd & Hsame).
  - constructor.
  - intros x [].
  - auto.
  - auto.
  - unfold validate_fuel in Hfuel. unfold Dict.keys. rewrite length_map.
    simpl. lia.
  - unfold validate_graph. rewrite (bind_Ok _ _ _ _ _ Hrun). unfold ret.
    assert (Hlen : length validated = length (Dict.keys pos)).
    { apply Nat.le_antisymm; apply List.NoDup_incl_length; auto;
        intros x Hx; now apply Hsame. }
    rewrite Hlen. now rewrite Nat.eqb_refl.
Qed.

(** The hypotheses of [validate_graph_always_true] hold for the graph of
    two components that the builder makes of the edges 1-2 and 3-4. *)
Lemma two_components_always_true (tape : nat -> nat) gb w :
  create_landpatches (GraphBuilder_init config_unmanned Dict.empty)
    two_component_edges four_positions (empty_world tape) = Ok gb w ->
  validate_graph (validate_fuel w 4) four_positions (gb_land_patches gb) w
  = Ok true w.
Proof.
  intros Hbuild. vm_compute in Hbuild. injection Hbuild as <- <-.
  apply validate_graph_always_true;
    [reflexivity | vm_compute; reflexivity | apply Nat.le_refl].
Qed.

(** C2: on the node set 1, 2, 3, 4 [validate_graph] answers [True] for the
    cycle 1-2-3-4-1, as the claim says.  It also answers [True] for the
    edges 1-2 and 3-4 alone, a graph of two components, where the claim
    says [False]; and for the path 1-2-3-4, the cycle without one edge
    (which is still connected).  The work list starts with every node, so
    every node ends up validated whether or not it can be reached. *)
Theorem C2_validate_graph_accepts_two_components (tape : nat -> nat) :
  result_of
    ((gb <- create_landpatches (GraphBuilder_init config_unmanned Dict.empty)
              cycle_edges four_positions ;;
      validate_graph 100 four_positions (gb_land_patches gb))
       (empty_world tape)) = Some true /\
  result_of
    ((gb <- create_landpatches (GraphBuilder_init config_unmanned Dict.empty)
              two_component_edges four_positions ;;
      validate_graph 100 four_positions (gb_land_patches gb))
       (empty_world tape)) = Some true /\
  result_of
    ((gb <- create_landpatches (GraphBuilder_init config_unmanned Dict.empty)
              [(1, 2); (2, 3); (3, 4)] four_positions ;;
      validate_graph 100 four_positions (gb_land_patches gb))
       (empty_world tape)) = Some true.
Proof. repeat split; reflexivity. Qed.

(** ** Fire transmission *)

(** Setting the lit flag of a lit tree writes back the same object. *)
Lemma set_lit_state_lit a t w :
  objs w !! a = Some (IsTree t) -> lit_state t = true ->
  set_lit_state a true w = Ok tt w.
Proof.
  intros Ha Hlit. unfold set_lit_state.
  rewrite (bind_Ok _ _ _ _ _ (as_tree_Some _ _ _ Ha)).
  unfold assign.
  replace (TreepatchM.set_lit_state true t) with t
    by (destruct t; simpl in *; now subst).
  rewrite list_insert_id by assumption. now destruct w.
Qed.

(** The loop of [update_fire_transmition] over any list of neighbour
    objects ends with the store it started from: no object and no
    dictionary is changed, only draws are consumed. *)
Lemma fire_transmition_loop_only_draws (self : Land) (values : list ref) :
  forall w,
    Forall (fun b => is_Some (objs w !! b)) values ->
    returns (fire_transmition_loop self values) w
            (fun _ w' => exists k, w' = advance k w).
Proof.
  induction values as [|neighbor rest IH]; intros w Hvalid.
  - apply returns_ret. exists O. now rewrite advance_0.
  - apply Forall_cons in Hvalid as [[o Ho] Hrest]. simpl.
    apply returns_bind. exists o, w. split; [now apply deref_Some|].
    assert (Hstep : returns
              (match o with
               | IsTree treepatch =>
                   if lit_state treepatch then
                     roll <- randint 1 100 ;;
                     if int_lt_float roll (prob_ignition (configs self))
                     then set_lit_state neighbor true
                     else ret tt
                   else ret tt
               | IsRock _ => ret tt
               end) w (fun _ w' => exists k, w' = advance k w)).
    { destruct o as [t|r].
      - destruct (lit_state t) eqn:Hlit.
        + unfold returns. rewrite (bind_Ok _ _ _ _ _ (randint_Ok 1 100 w)).
          destruct (int_lt_float _ _).
          * exists tt, (advance 1 w). split; [|now exists 1%nat].
            apply (set_lit_state_lit _ t); [exact Ho | exact Hlit].
          * exists tt, (advance 1 w). split; [reflexivity | now exists 1%nat].
        + apply returns_ret. exists O. now rewrite advance_0.
      - apply returns_ret. exists O. now rewrite advance_0. }
    apply returns_bind. eapply returns_weaken; [|exact Hstep].
    intros _ w' [j ->]. eapply returns_weaken; [|apply IH; exact Hrest].
    intros _ w'' [k ->]. exists (j + k)%nat. apply advance_advance.
Qed.

(** [Land.update_fire_transmition] on any patch of any closed store
    returns and leaves every object and every dictionary as it was. *)
Lemma update_fire_transmition_only_draws (self : Land) (a : ref) (p : Landpatch) w :
  closed w -> objs w !! a = Some p ->
  returns (update_fire_transmition self a) w
          (fun _ w' => exists k, w' = advance k w).
Proof.
  intros Hclosed Ha. destruct (Hclosed a p Ha) as (nd & Hnd & Hvalues).
  unfold update_fire_transmition.
  apply returns_bind. exists (neighbors (base p)), w.
  split; [now apply get_neighbors_Some|].
  apply returns_bind. exists nd, w. split; [now apply deref_dict_Some|].
  now apply fire_transmition_loop_only_draws.
Qed.

(** Without ignition, [Treepatch.update] keeps the lit flag, the
    probability and the base fields other than the colour, and asks for a
    mutation only when the tree is lit. *)
Lemma tree_update_calm x t :
  never_ignites (prob_autcombustion t) ->
  let t' := fst (TreepatchM.update (randint_of 1 100 x) t) in
  let res := snd (TreepatchM.update (randint_of 1 100 x) t) in
  lit_state t' = lit_state t /\
  prob_autcombustion t' = prob_autcombustion t /\
  patch_id (tree_base t') = patch_id (tree_base t) /\
  neighbors (tree_base t') = neighbors (tree_base t) /\
  (res = true -> lit_state t = true).
Proof.
  intros Hcalm. cbv zeta. unfold TreepatchM.update. rewrite (Hcalm x).
  destruct (lit_state t) eqn:Hlit; simpl.
  - destruct (tree_stats_min <=? tree_stats t - 20); simpl; auto.
  - destruct (tree_stats t + 10 <=? tree_stats_max); simpl;
      repeat split; auto; discriminate.
Qed.

(** Replacing an object by one with the same id and the same neighbour
    dictionary, and allocating such an object, keep the store closed and
    the table sound. *)
Section Preservation.
Variables (w : World) (table : Dict.t ref) (a : ref) (p p' : Landpatch).
Hypothesis Ha : objs w !! a = Some p.
Hypothesis Hnb : neighbors (base p') = neighbors (base p).
Hypothesis Hid : patch_id (base p') = patch_id (base p).

Lemma closed_with_obj : closed w -> closed (with_obj a p' w).
Proof.
  intros Hc b q Hb. simpl in Hb.
  assert (Hsrc : exists q0, objs w !! b = Some q0 /\
                            neighbors (base q) = neighbors (base q0)).
  { destruct (decide (a = b)) as [<-|Hne].
    - rewrite list_lookup_insert_eq in Hb by (eapply lookup_lt_Some, Ha).
      inversion Hb; subst. eauto.
    - rewrite list_lookup_insert_ne in Hb by assumption. eauto. }
  destruct Hsrc as (q0 & Hq0 & ->).
  destruct (Hc b q0 Hq0) as (nd & Hnd & Hvals).
  exists nd. split; [exact Hnd|].
  eapply Forall_impl; [exact Hvals|]. intros c Hcv. now apply is_Some_insert.
Qed.

Lemma closed_with_new_obj : closed w -> closed (with_new_obj p' w).
Proof.
  intros Hc b q Hb. simpl in Hb.
  assert (Hsrc : exists b0 q0, objs w !! b0 = Some q0 /\
                               neighbors (base q) = neighbors (base q0)).
  { destruct (decide (b < length (objs w))%nat) as [Hlt|Hge].
    - rewrite lookup_app_l in Hb by assumption. eauto.
    - rewrite lookup_app_r in Hb by lia.
      destruct (b - length (objs w))%nat; simpl in Hb; [|discriminate].
      inversion Hb; subst. eauto. }
  destruct Hsrc as (b0 & q0 & Hq0 & ->).
  destruct (Hc b0 q0 Hq0) as (nd & Hnd & Hvals).
  exists nd. split; [exact Hnd|].
  eapply Forall_impl; [exact Hvals|]. intros c Hcv. now apply is_Some_app.
Qed.
Lemma table_ok_with_obj : table_ok w table -> table_ok (with_obj a p' w) table.
Proof.
  intros [Hd Hent]. split; [exact Hd|]. intros id b Hin.
  destruct (Hent id b Hin) as (q & Hq & Hqid). simpl.
  destruct (decide (a = b)) as [<-|Hne].
  - rewrite list_lookup_insert_eq by (eapply lookup_lt_Some, Ha).
    exists p'. split; [reflexivity|]. congruence.
  - rewrite list_lookup_insert_ne by assumption. eauto.
Qed.

Lemma table_ok_with_new_obj :
  table_ok w table -> In (patch_id (base p)) (Dict.keys table) ->
  table_ok (with_new_obj p' w)
           (Dict.set table (patch_id (base p)) (length (objs w))).
Proof.
  intros [Hd Hent] Hkey. split.
  - now rewrite dict_keys_set_in.
  - intros id b Hin. simpl. apply dict_set_In in Hin as [Hin|[-> ->]].
    + destruct (Hent id b Hin) as (q & Hq & Hqid). exists q. split; [|exact Hqid].
      rewrite lookup_app_l by (eapply lookup_lt_Some, Hq). exact Hq.
    + exists p'. split; [now apply list_lookup_middle | exact Hid].
Qed.

Lemma calm_with_obj :
  (forall t', p' = IsTree t' -> never_ignites (prob_autcombustion t')) ->
  calm w -> calm (with_obj a p' w).
Proof.
  intros Hnew Hc b t Hb. simpl in Hb.
  destruct (decide (a = b)) as [<-|Hne].
  - rewrite list_lookup_insert_eq in Hb by (eapply lookup_lt_Some, Ha).
    inversion Hb; subst. now apply Hnew.
  - rewrite list_lookup_insert_ne in Hb by assumption. eauto.
Qed.

Lemma calm_with_new_obj :
  (forall t', p' = IsTree t' -> never_ignites (prob_autcombustion t')) ->
  calm w -> calm (with_new_obj p' w).
Proof.
  intros Hnew Hc b t Hb. simpl in Hb.
  destruct (decide (b < length (objs w))%nat) as [Hlt|Hge].
  - rewrite lookup_app_l in Hb by assumption. eauto.
  - rewrite lookup_app_r in Hb by lia.
    destruct (b - length (objs w))%nat; simpl in Hb; [|discriminate].
    inversion Hb; subst. now apply Hnew.
Qed.

Lemma unlit_with_obj b :
  (a = b -> exists t', p' = IsTree t' /\ lit_state t' = false) ->
  unlit_tree_at w b -> unlit_tree_at (with_obj a p' w) b.
Proof.
  intros Hsame (t & Hb & Hlit). unfold unlit_tree_at. simpl.
  destruct (decide (a = b)) as [Heq|Hne].
  - destruct (Hsame Heq) as (t' & -> & Hlit'). subst b.
    rewrite list_lookup_insert_eq by (eapply lookup_lt_Some, Ha). eauto.
  - rewrite list_lookup_insert_ne by assumption. eauto.
Qed.

Lemma unlit_with_new_obj b :
  unlit_tree_at w b -> unlit_tree_at (with_new_obj p' w) b.
Proof.
  intros (t & Hb & Hlit). exists t. split; [|exact Hlit]. simpl.
  rewrite lookup_app_l by (eapply lookup_lt_Some, Hb). exact Hb.
Qed.
End Preservation.

Lemma steady_advance k w table : steady w table -> steady (advance k w) table.
Proof. exact (fun H => H). Qed.

Lemma unlit_advance k w b : unlit_tree_at w b -> unlit_tree_at (advance k w) b.
Proof. exact (fun H => H). Qed.

(** [landpatch.update()] in a calm store: it returns, the store stays
    closed, calm and sound for the table, unlit trees stay unlit, and a
    request for mutation never comes from an unlit tree. *)
Lemma Landpatch_update_steady w table a p :
  steady w table -> objs w !! a = Some p ->
  returns (Landpatch_update a) w
    (fun res w' =>
       steady w' table /\
       (forall b, unlit_tree_at w b -> unlit_tree_at w' b) /\
       (res = true -> ~ unlit_tree_at w' a) /\
       exists p', objs w' !! a = Some p' /\
                  patch_id (base p') = patch_id (base p)).
Proof.
  intros (Hclosed & Hcalm & Htable) Ha. unfold Landpatch_update.
  apply returns_bind. exists p, w. split; [now apply deref_Some|].
  apply returns_bind. eexists _, _. split; [apply randint_Ok|].
  set (x := tape w (cursor w)).
  assert (Ha1 : objs (advance 1 w) !! a = Some p) by exact Ha.
  destruct p as [t|r].
  - pose proof (tree_update_calm x t (Hcalm a t Ha)) as Hup. cbv zeta in Hup.
    destruct (TreepatchM.update (randint_of 1 100 x) t) as [t' res] eqn:Hrun.
    simpl in Hup. destruct Hup as (Hlit & Hprob & Hid & Hnb & Hres).
    exists res, (with_obj a (IsTree t') (advance 1 w)).
    split; [reflexivity|].
    assert (Hnew : objs (with_obj a (IsTree t') (advance 1 w)) !! a
                   = Some (IsTree t')).
    { simpl. apply list_lookup_insert_eq. eapply lookup_lt_Some, Ha. }
    split; [|split; [|split]].
    + split; [|split].
      * now apply (closed_with_obj (advance 1 w) a (IsTree t) (IsTree t')).
      * apply (calm_with_obj (advance 1 w) a (IsTree t) (IsTree t')); auto.
        intros t0 [= <-]. rewrite Hprob. now apply (Hcalm a t).
      * now apply (table_ok_with_obj (advance 1 w) table a (IsTree t) (IsTree t')).
    + intros b Hb.
      apply (unlit_with_obj (advance 1 w) a (IsTree t) (IsTree t')); auto.
      intros <-. exists t'. split; [reflexivity|].
      destruct Hb as (t0 & Hb & Hlit0). rewrite Hlit.
      rewrite Ha in Hb. now inversion Hb; subst.
    + intros Hr (t0 & Hb & Hlit0). specialize (Hres Hr).
      rewrite Hnew in Hb. inversion Hb; subst. congruence.
    + exists (IsTree t'). split; [exact Hnew | exact Hid].
  - exists (RockpatchM.update (randint_of 1 100 x) r), (advance 1 w).
    split; [reflexivity|]. split; [|split; [|split]].
    + now apply steady_advance.
    + intros b Hb. exact Hb.
    + intros _ (t0 & Hb & _). rewrite Ha1 in Hb. discriminate.
    + exists (IsRock r). now split.
Qed.

(** [Land.mutate_landpatch] in a calm store, for a patch whose id is a
    key of the table. *)
Lemma mutate_landpatch_steady (self : Land) w a p :
  steady w (land_patches self) -> objs w !! a = Some p ->
  In (patch_id (base p)) (Dict.keys (land_patches self)) ->
  returns (mutate_landpatch self a) w
    (fun self' w' =>
       self' = with_land_patches
                 (Dict.set (land_patches self) (patch_id (base p))
                           (length (objs w))) self /\
       steady w' (land_patches self') /\
       (forall b, unlit_tree_at w b -> unlit_tree_at w' b)).
Proof.
  intros (Hclosed & Hcalm & Htable) Ha Hkey.
  assert (Hid : patch_id (base (mutate p)) = patch_id (base p)) by now destruct p.
  assert (Hnb : neighbors (base (mutate p)) = neighbors (base p)) by now destruct p.
  unfold mutate_landpatch.
  apply returns_bind. eexists _, _.
  split; [apply (Landpatch_mutate_Ok _ _ _ Ha)|].
  fold (with_new_obj (mutate p) w).
  apply returns_bind. eexists _, _. split.
  { apply (get_patch_id_Some _ (mutate p)). simpl. now apply list_lookup_middle. }
  apply returns_ret. rewrite Hid. split; [reflexivity|]. split.
  - simpl. split; [|split].
    + now apply (closed_with_new_obj w a p).
    + apply (calm_with_new_obj w (mutate p)); auto.
      intros t' Ht'. clear Ha Hkey Hid Hnb. destruct p as [t|r]; [discriminate|].
      inversion Ht'; subst. apply never_ignites_default.
    + now apply (table_ok_with_new_obj w (land_patches self) p).
  - intros b Hb. now apply unlit_with_new_obj.
Qed.

(** The third loop of [Land.update] in a calm store: it runs to the end,
    and every id whose patch is an unlit tree keeps this object, unlit. *)
Lemma update_patches_never_spreads (size : nat) :
  forall (todo i : nat) (self : Land) (w : World),
    (i + todo = size)%nat ->
    length (land_patches self) = size ->
    steady w (land_patches self) ->
    returns (update_patches todo i size self) w
      (fun self' w' =>
         forall id a,
           Dict.get (land_patches self) id = Some a -> unlit_tree_at w a ->
           Dict.get (land_patches self') id = Some a /\ unlit_tree_at w' a).
Proof.
  induction todo as [|todo IH]; intros i self w Hi Hsize Hsteady.
  - simpl. rewrite Hsize, Nat.eqb_refl. simpl. apply returns_ret. auto.
  - simpl. rewrite Hsize, Nat.eqb_refl. simpl.
    destruct Hsteady as (Hclosed & Hcalm & Htable).
    destruct (lookup_lt_is_Some_2 (Dict.values (land_patches self)) i)
      as [a Hai].
    { unfold Dict.values. rewrite length_map. lia. }
    destruct (dict_values_lookup _ _ _ Hai) as [id0 Hentry].
    assert (Hin : In (id0, a) (land_patches self)).
    { apply list_elem_of_In, list_elem_of_lookup. eauto. }
    destruct Htable as [Hdist Hent].
    destruct (Hent id0 a Hin) as (p & Ha & Hpid).
    assert (Hkey : In id0 (Dict.keys (land_patches self)))
      by (apply (in_map fst _ _ Hin)).
    apply returns_bind. exists a, w. split; [now rewrite Hai|].
    apply returns_bind. exists p, w. split; [now apply deref_Some|].
    apply returns_bind.
    assert (Hfire : returns
              (if isinstance_Treepatch p
               then update_fire_transmition self a else ret tt) w
              (fun _ w' => exists k, w' = advance k w)).
    { destruct (isinstance_Treepatch p).
      - now apply (update_fire_transmition_only_draws self a p).
      - apply returns_ret. exists O. now rewrite advance_0. }
    eapply returns_weaken; [|exact Hfire]. intros _ w1 [k ->].
    apply returns_bind.
    assert (Hsteady1 : steady (advance k w) (land_patches self))
      by (repeat split; auto).
    eapply returns_weaken;
      [|apply (Landpatch_update_steady _ _ a p Hsteady1 Ha)].
    intros res w2 (Hsteady2 & Hunlit2 & Hres & p2 & Ha2 & Hpid2).
    destruct res.
    + apply returns_bind.
      eapply returns_weaken;
        [|apply (mutate_landpatch_steady self w2 a p2 Hsteady2 Ha2);
          rewrite Hpid2, Hpid; exact Hkey].
      intros self3 w3 (-> & Hsteady3 & Hunlit3).
      eapply returns_weaken; [|apply (IH (S i))]; try assumption; try lia.
      * simpl. intros self' w' Hpost id b Hget Hb.
        assert (Hb2 : unlit_tree_at w2 b) by now apply Hunlit2.
        assert (Hne : patch_id (base p2) <> id).
        { intros <-. rewrite Hpid2, Hpid in Hget.
          rewrite (dict_In_get _ _ _ Hdist Hin) in Hget.
          inversion Hget; subst. now apply Hres. }
        apply Hpost; [|now apply Hunlit3].
        now rewrite dict_get_set_ne.
      * simpl. rewrite dict_set_length_in; [assumption|].
        now rewrite Hpid2, Hpid.
    + apply returns_bind. apply returns_ret.
      eapply returns_weaken; [|apply (IH (S i))]; try assumption; try lia.
      simpl. intros self' w' Hpost id b Hget Hb. apply Hpost; auto.
Qed.

(** With no firefighter on the land and no tree able to ignite by itself,
    one [Land.update] returns, and every patch that was an unlit tree
    before the step is the same unlit tree after it: fire is never passed
    on, whatever the graph, the transmission probability and the draws. *)
Theorem Land_update_never_spreads (fuel : nat) (self : Land) (w : World) :
  firefighters self = Dict.empty ->
  steady w (land_patches self) ->
  returns (Land_update fuel self) w
    (fun self' w' =>
       forall id a,
         Dict.get (land_patches self) id = Some a -> unlit_tree_at w a ->
         Dict.get (land_patches self') id = Some a /\ unlit_tree_at w' a).
Proof.
  intros Hnone Hsteady. unfold Land_update. rewrite Hnone. simpl.
  apply returns_bind. apply returns_ret. simpl.
  apply returns_bind. apply returns_ret.
  now apply (update_patches_never_spreads _ _ 0%nat).
Qed.

(** The same store and patch table come out of the constructor when the
    greedy fill plants trees only (a landscape percentage above 100) and
    tree 1 is then lit from outside. *)
Lemma ring_world_constructed (tape : nat -> nat) :
  (forest <- Land_init planar_ok 100
               (mkConfig 101%float (0%float, 100%float, 0%float) (0, 0))
               Dict.empty cycle_edges four_positions Dict.empty ;;
   a <- lookup_patch forest 1 ;;
   set_lit_state a true ;;
   ret (land_patches forest)) (empty_world tape)
  = Ok (land_patches ring_land) (ring_world tape).
Proof. reflexivity. Qed.

(** The end-to-end store satisfies the hypotheses of
    [Land_update_never_spreads]. *)
Lemma ring_world_steady (tape : nat -> nat) :
  steady (ring_world tape) (land_patches ring_land).
Proof.
  split; [|split].
  - intros a p Ha.
    do 4 (destruct a as [|a];
          [inversion Ha; subst; eexists; split; [reflexivity|];
           repeat constructor; eexists; reflexivity|]).
    discriminate.
  - intros a t Ha.
    do 4 (destruct a as [|a];
          [inversion Ha; subst; apply never_ignites_zero|]).
    discriminate.
  - split; [reflexivity|]. intros id a Hin. simpl in Hin.
    repeat (destruct Hin as [Hin|Hin];
            [inversion Hin; subst; eexists; split; reflexivity|]).
    contradiction.
Qed.

Lemma ring_world_never_spreads (tape : nat -> nat) (fuel : nat) :
  returns (Land_update fuel ring_land) (ring_world tape)
    (fun self' w' =>
       forall id a,
         Dict.get (land_patches ring_land) id = Some a ->
         unlit_tree_at (ring_world tape) a ->
         Dict.get (land_patches self') id = Some a /\ unlit_tree_at w' a).
Proof.
  apply Land_update_never_spreads; [reflexivity | apply ring_world_steady].
Qed.

(** C1: in the end-to-end scenario, whatever the generator draws, one
    [Land.update] takes the health of the lit tree 1 from 256 to 236, as
    the claim says, and leaves its neighbours 2 and 4 (and tree 3) unlit
    at health 256: no neighbour is lit after the step, where the claim
    expects exactly one. *)
Theorem C1_no_neighbor_ignited (tape : nat -> nat) :
  result_of
    ((forest <- Land_update 0 ring_land ;; snapshot forest) (ring_world tape))
  = Some [Some (1, true, 236); Some (2, false, 256);
          Some (3, false, 256); Some (4, false, 256)].
Proof.
  unfold ring_world, ring_land.
  repeat (progress (cbv -[int_le_float int_lt_float randint_of];
                    rewrite ?roll_le_zero, ?roll_lt_zero)).
  reflexivity.
Qed.

(** ** Firefighter movement *)

(** The [for] loop returns the id of the first neighbour, in the order of
    the dictionary, that is a lit tree on a free patch. *)
Lemma move_scan_find (occupied : list Z) (values : list ref) w :
  Forall (fun b => is_Some (objs w !! b)) values ->
  move_scan values occupied w =
    Ok (match List.find (burning_free w occupied) values with
        | Some a => id_at w a
        | None => None
        end) w.
Proof.
  induction 1 as [|a rest [p Ha] _ IH]; simpl; [reflexivity|].
  rewrite (bind_Ok _ _ _ _ _ (deref_Some _ _ _ Ha)).
  unfold burning_free at 1, id_at. rewrite Ha.
  destruct p as [t|r]; [|exact IH].
  destruct (lit_state t && negb (list_in (patch_id (tree_base t)) occupied));
    [now rewrite Ha | exact IH].
Qed.

(** X18: when a neighbour of the patch is a lit tree on a free patch,
    [Firefighter.move] returns the id of the first such neighbour, in the
    order of the neighbour dictionary, without a draw and without any
    change to the store. *)
Lemma Firefighter_move_to_fire fuel f here p nd occupied a id w :
  objs w !! here = Some p ->
  dicts w !! neighbors (base p) = Some nd ->
  Forall (fun b => is_Some (objs w !! b)) (Dict.values nd) ->
  List.find (burning_free w occupied) (Dict.values nd) = Some a ->
  id_at w a = Some id ->
  Firefighter_move fuel f here occupied w = Ok id w.
Proof.
  intros Hp Hnd Hvalid Hfind Hid. unfold Firefighter_move.
  rewrite (bind_Ok _ _ _ _ _ (get_neighbors_Some _ _ _ Hp)).
  rewrite (bind_Ok _ _ _ _ _ (deref_dict_Some _ _ _ Hnd)).
  rewrite (bind_Ok _ _ _ _ _ (move_scan_find occupied _ w Hvalid)).
  now rewrite Hfind, Hid.
Qed.

Lemma Firefighter_move_to_fire_witness :
  Firefighter_move 0 (mkFirefighter 0 50) 1%nat [3]
    (ring_world (fun _ => O)) = Ok 1 (ring_world (fun _ => O)).
Proof.
  apply (Firefighter_move_to_fire 0 (mkFirefighter 0 50) 1%nat
           (forest_tree 2 1%nat false) [(1, 0%nat); (3, 2%nat)] [3] 0%nat 1
           (ring_world (fun _ => O))).
  - reflexivity.
  - reflexivity.
  - repeat constructor; eexists; reflexivity.
  - reflexivity.
  - reflexivity.
Defined.

(** Otherwise the destination is drawn from the neighbour ids of the last
    neighbour of the current patch, not from those of the patch itself. *)
Lemma Firefighter_move_random fuel f here p nd occupied w :
  objs w !! here = Some p ->
  dicts w !! neighbors (base p) = Some nd ->
  Forall (fun b => is_Some (objs w !! b)) (Dict.values nd) ->
  List.find (burning_free w occupied) (Dict.values nd) = None ->
  Firefighter_move fuel f here occupied w =
    (ids <- get_neighbors_id (List.last (Dict.values nd) here) ;;
     destination <- choice ids ;;
     move_retry fuel (List.last (Dict.values nd) here) occupied destination) w.
Proof.
  intros Hp Hnd Hvalid Hfind. unfold Firefighter_move.
  rewrite (bind_Ok _ _ _ _ _ (get_neighbors_Some _ _ _ Hp)).
  rewrite (bind_Ok _ _ _ _ _ (deref_dict_Some _ _ _ Hnd)).
  rewrite (bind_Ok _ _ _ _ _ (move_scan_find occupied _ w Hvalid)).
  now rewrite Hfind.
Qed.

(** C8: on the path 1-2-3 without fire, a firefighter on patch 1 (whose
    only neighbour is patch 2, which is free) is never sent to patch 2:
    whatever the generator draws, [move] returns 1 or 3, a neighbour of
    patch 2.  After the [for] loop the name [landpatch] refers to the last
    neighbour, and the random destination is drawn from that patch's
    neighbours. *)
Theorem C8_move_draws_from_last_neighbor (tape : nat -> nat) (fuel : nat) :
  exists d,
    result_of
      ((gb <- create_landpatches (GraphBuilder_init config_unmanned Dict.empty)
                path_edges three_positions ;;
        here <- of_option KeyError (Dict.get (gb_land_patches gb) 1) ;;
        ids <- get_neighbors_id here ;;
        d <- Firefighter_move fuel (mkFirefighter 0 50) here [] ;;
        ret (ids, d)) (empty_world tape)) = Some ([2], d) /\
    (d = 1 \/ d = 3).
Proof.
  pose proof (Nat.mod_upper_bound (tape O) 2 ltac:(lia)) as Hlt.
  destruct fuel; cbv -[Nat.modulo];
    destruct (tape O mod 2)%nat as [|[|n]] eqn:E; try lia;
    eexists; (split; [reflexivity | auto]).
Qed.

(** ** Spawning of firefighters *)

(** C9: the configuration asks for two firefighters; when both draws of
    [spawn_firefighters] pick the same position, the second firefighter
    overwrites the first and the mapping built by the constructor holds a
    single firefighter. *)
Theorem C9_spawn_overwrites_on_collision :
  result_of
    ((forest <- Land_init planar_ok 100 config_default Dict.empty
                  cycle_edges four_positions Dict.empty ;;
      ret (fst (firefighters_config (configs forest)),
           firefighters forest)) (empty_world (fun _ => O)))
  = Some (2, [(1, mkFirefighter 1 50)]).
Proof. reflexivity. Qed.

(** * Further properties of the engine *)

(** ** Life of a tree *)

(** [update] leaves a lit tree lit. *)
Lemma update_keeps_fire roll t :
  lit_state t = true -> lit_state (fst (TreepatchM.update roll t)) = true.
Proof.
  intros Hlit. unfold TreepatchM.update.
  destruct (int_le_float roll (prob_autcombustion t)); simpl; rewrite ?Hlit; simpl;
    destruct (tree_stats_min <=? _); simpl; auto.
Qed.

(** A lit tree that cannot lose 20 is handed back unchanged with the
    request for mutation. *)
Lemma update_burnt_out roll t :
  lit_state t = true -> tree_stats t < 20 ->
  TreepatchM.update roll t = (t, true).
Proof.
  intros Hlit Hlow. unfold TreepatchM.update, tree_stats_min.
  assert (Hsame : TreepatchM.set_lit_state true t = t)
    by (destruct t; simpl in *; now subst).
  destruct (int_le_float roll (prob_autcombustion t)); rewrite ?Hsame, Hlit; simpl;
    destruct (0 <=? tree_stats t - 20) eqn:E; try reflexivity;
    apply Z.leb_le in E; lia.
Qed.

(** A lit tree that can lose 20 does, and stays. *)
Lemma update_burning roll t :
  lit_state t = true -> 20 <= tree_stats t ->
  exists t', TreepatchM.update roll t = (t', false) /\
             lit_state t' = true /\ tree_stats t' = tree_stats t - 20.
Proof.
  intros Hlit Hhigh. unfold TreepatchM.update, tree_stats_min.
  destruct (int_le_float roll (prob_autcombustion t)); simpl; rewrite ?Hlit; simpl;
    destruct (0 <=? tree_stats t - 20) eqn:E;
    try (apply Z.leb_gt in E; lia); eexists; repeat split; simpl; auto.
Qed.

(** X1: a lit tree of health [h >= 0] that nobody fights for burns for
    exactly [h / 20] updates, whatever the rolls: each of them takes 20
    health and returns [False]; the tree is then lit at health [h mod 20],
    and the next update returns [True] (mutate to rock) without changing
    it.  A tree at full health asks for its mutation at the 13th update. *)
Theorem lit_tree_burns_out (t : Treepatch) (rolls : list Z) (next : Z) :
  lit_state t = true ->
  0 <= tree_stats t ->
  length rolls = Z.to_nat (tree_stats t / 20) ->
  forallb negb (snd (update_many rolls t)) = true /\
  lit_state (fst (update_many rolls t)) = true /\
  tree_stats (fst (update_many rolls t)) = tree_stats t mod 20 /\
  TreepatchM.update next (fst (update_many rolls t))
    = (fst (update_many rolls t), true).
Proof.
  revert t. induction rolls as [|roll rest IH]; intros t Hlit Hpos Hlen.
  - simpl in *.
    assert (Hlow : tree_stats t < 20).
    { destruct (Z_lt_ge_dec (tree_stats t) 20) as [|Hge]; [assumption|].
      assert (1 <= tree_stats t / 20) by (apply Z.div_le_lower_bound; lia).
      lia. }
    repeat split; auto.
    + symmetry. apply Z.mod_small. lia.
    + now apply update_burnt_out.
  - simpl in Hlen.
    assert (Hhigh : 20 <= tree_stats t).
    { destruct (Z_lt_ge_dec (tree_stats t) 20) as [Hlt|]; [|lia].
      rewrite Z.div_small in Hlen by lia. discriminate. }
    destruct (update_burning roll t Hlit Hhigh) as (t1 & Hrun & Hlit1 & Hstats1).
    assert (Hdiv : tree_stats t1 / 20 = tree_stats t / 20 - 1).
    { rewrite Hstats1. replace (tree_stats t - 20) with (tree_stats t + (-1) * 20) by lia.
      rewrite Z.div_add by lia. lia. }
    assert (Hmod : tree_stats t1 mod 20 = tree_stats t mod 20).
    { rewrite Hstats1. replace (tree_stats t - 20) with (tree_stats t + (-1) * 20) by lia.
      apply Z.mod_add. lia. }
    specialize (IH t1 Hlit1 ltac:(lia) ltac:(lia)).
    simpl. rewrite Hrun.
    destruct (update_many rest t1) as [t2 signals]. simpl in *.
    rewrite <- Hmod. exact IH.
Qed.

Lemma lit_tree_burns_out_witness :
  tree_stats (fst (update_many (repeat 50 12)
                     (TreepatchM.set_lit_state true sample_tree))) = 16 /\
  TreepatchM.update 50
    (fst (update_many (repeat 50 12) (TreepatchM.set_lit_state true sample_tree)))
  = (fst (update_many (repeat 50 12) (TreepatchM.set_lit_state true sample_tree)),
     true).
Proof.
  destruct (lit_tree_burns_out (TreepatchM.set_lit_state true sample_tree)
              (repeat 50 12) 50)
    as (_ & _ & Hstats & Hnext).
  - reflexivity.
  - simpl. unfold tree_stats_max. lia.
  - reflexivity.
  - split; [exact Hstats | exact Hnext].
Defined.

Lemma update_many_cons roll rest t :
  update_many (roll :: rest) t =
    (fst (update_many rest (fst (TreepatchM.update roll t))),
     snd (TreepatchM.update roll t)
       :: snd (update_many rest (fst (TreepatchM.update roll t)))).
Proof.
  simpl. destruct (TreepatchM.update roll t) as [t1 signal]. simpl.
  destruct (update_many rest t1); reflexivity.
Qed.

(** One update of an unlit tree that does not ignite. *)
Lemma update_growing x t :
  never_ignites (prob_autcombustion t) -> lit_state t = false ->
  exists t', TreepatchM.update (randint_of 1 100 x) t = (t', false) /\
             lit_state t' = false /\
             prob_autcombustion t' = prob_autcombustion t /\
             tree_stats t' = Z.min (tree_stats t + 10) 256.
Proof.
  intros Hcalm Hlit. unfold TreepatchM.update, tree_stats_max.
  rewrite (Hcalm x), Hlit. simpl.
  destruct (tree_stats t + 10 <=? 256) eqn:E;
    [apply Z.leb_le in E | apply Z.leb_gt in E];
    eexists; repeat split; simpl; auto; lia.
Qed.

(** X2: an unlit tree that cannot ignite by itself (ignition probability
    0, or the default 0.1 of a regrown tree) gains 10 health per update up
    to the cap: after [n] updates its health is [min (h + 10 n) 256], it
    is still unlit and no update has asked for a mutation. *)
Theorem unlit_tree_regrows (t : Treepatch) (draws : list nat) :
  never_ignites (prob_autcombustion t) ->
  lit_state t = false ->
  tree_stats t <= 256 ->
  let run := update_many (map (randint_of 1 100) draws) t in
  forallb negb (snd run) = true /\
  lit_state (fst run) = false /\
  tree_stats (fst run)
    = Z.min (tree_stats t + 10 * Z.of_nat (length draws)) 256.
Proof.
  revert t. induction draws as [|x rest IH]; intros t Hcalm Hlit Hcap; cbv zeta.
  - simpl. repeat split; auto. lia.
  - destruct (update_growing x t Hcalm Hlit) as (t1 & Hrun & Hlit1 & Hprob1 & Hstats1).
    assert (Hcalm1 : never_ignites (prob_autcombustion t1)) by now rewrite Hprob1.
    specialize (IH t1 Hcalm1 Hlit1 ltac:(lia)). cbv zeta in IH.
    rewrite map_cons, update_many_cons, Hrun. cbn [fst snd].
    destruct (update_many (map (randint_of 1 100) rest) t1) as [t2 signals].
    cbn [fst snd forallb negb andb length] in *.
    destruct IH as (Hsig & Hlit2 & Hstats2).
    repeat split; auto. rewrite Hstats2, Hstats1. lia.
Qed.

(** A tree regrown from a rock starts at health 1 and is at full health
    after 26 updates. *)
Lemma unlit_tree_regrows_witness :
  tree_stats
    (fst (update_many (map (randint_of 1 100) (repeat O 26))
            (Rockpatch_mutate (RockpatchM.init 7 0%nat 10%float)))) = 256.
Proof.
  destruct (unlit_tree_regrows
              (Rockpatch_mutate (RockpatchM.init 7 0%nat 10%float))
              (repeat O 26))
    as (_ & _ & Hstats).
  - apply never_ignites_default.
  - reflexivity.
  - simpl. lia.
  - exact Hstats.
Defined.

(** X3: an update that does not ask for a mutation leaves a colour that
    tells the state of the tree: the health itself for an unlit tree, the
    health minus 256 for a lit one, so that (for a health in [0,256]) the
    colour is negative exactly when the tree burns.  Id, neighbour
    dictionary, position, firefighter flag and ignition probability are
    not touched. *)
Theorem update_colour_tracks_fire (roll : Z) (t : Treepatch) :
  0 <= tree_stats t <= 256 ->
  snd (TreepatchM.update roll t) = false ->
  let t' := fst (TreepatchM.update roll t) in
  color (tree_base t')
    = Some (if lit_state t' then tree_stats t' - 256 else tree_stats t') /\
  (lit_state t' = true <->
   exists c, color (tree_base t') = Some c /\ c < 0) /\
  patch_id (tree_base t') = patch_id (tree_base t) /\
  neighbors (tree_base t') = neighbors (tree_base t) /\
  position (tree_base t') = position (tree_base t) /\
  firefighter (tree_base t') = firefighter (tree_base t) /\
  prob_autcombustion t' = prob_autcombustion t.
Proof.
  intros Hr. unfold TreepatchM.update, tree_stats_max, tree_stats_min.
  destruct (int_le_float roll (prob_autcombustion t)); simpl.
  - destruct (0 <=? tree_stats t - 20) eqn:E; simpl; [|discriminate].
    apply Z.leb_le in E. intros _. repeat split; auto.
    + f_equal. lia.
    + intros _. eexists. split; [reflexivity | lia].
  - destruct (lit_state t) eqn:Hlit; simpl.
    + destruct (0 <=? tree_stats t - 20) eqn:E; simpl; [|discriminate].
      apply Z.leb_le in E. intros _. rewrite Hlit. repeat split; auto.
      * f_equal. lia.
      * intros _. eexists. split; [reflexivity | lia].
    + intros _.
      destruct (tree_stats t + 10 <=? 256) eqn:E; simpl; rewrite Hlit;
        repeat split; auto; try discriminate;
        intros (c & [= <-] & Hneg); lia.
Qed.

Lemma update_colour_tracks_fire_witness :
  color (tree_base (fst (TreepatchM.update 50
                           (TreepatchM.set_lit_state true sample_tree))))
  = Some (-20).
Proof.
  destruct (update_colour_tracks_fire 50
              (TreepatchM.set_lit_state true sample_tree))
    as (Hcol & _).
  - simpl. unfold tree_stats_max. lia.
  - reflexivity.
  - exact Hcol.
Defined.

(** X4: the patch that [Land.mutate_landpatch] installs is built with the
    default probability 0.1, which no roll in 1..100 is below.  When a
    burnt tree has been replaced by a rock, every later [update] of that
    rock returns [False]: the patch never becomes a tree again.  When a
    rock has been replaced by a tree, that tree never ignites by itself. *)
Theorem replacement_never_changes_back (self : Land) (w : World) (a : ref)
    (p : Landpatch) :
  objs w !! a = Some p ->
  exists b self' w' q,
    mutate_landpatch self a w = Ok self' w' /\
    Dict.get (land_patches self') (patch_id (base p)) = Some b /\
    objs w' !! b = Some q /\
    match q with
    | IsRock r =>
        isinstance_Treepatch p = true /\
        forall w2 r2,
          objs w2 !! b = Some (IsRock r2) ->
          prob_treepatch r2 = prob_treepatch r ->
          Landpatch_update b w2 = Ok false (advance 1 w2)
    | IsTree t =>
        isinstance_Treepatch p = false /\
        lit_state t = false /\ tree_stats t = 1 /\
        forall x, int_le_float (randint_of 1 100 x) (prob_autcombustion t) = false
    end.
Proof.
  intros Ha.
  assert (Hid : patch_id (base (mutate p)) = patch_id (base p)) by now destruct p.
  assert (Hnew : objs (with_new_obj (mutate p) w) !! length (objs w)
                 = Some (mutate p))
    by (simpl; now apply list_lookup_middle).
  exists (length (objs w)),
    (with_land_patches
       (Dict.set (land_patches self) (patch_id (base p)) (length (objs w))) self),
    (with_new_obj (mutate p) w), (mutate p).
  split; [|split; [|split]].
  - unfold mutate_landpatch.
    rewrite (bind_Ok _ _ _ _ _ (Landpatch_mutate_Ok _ _ _ Ha)).
    fold (with_new_obj (mutate p) w).
    rewrite (bind_Ok _ _ _ _ _ (get_patch_id_Some _ _ _ Hnew)).
    unfold ret. now rewrite Hid.
  - simpl. apply dict_get_set_eq.
  - exact Hnew.
  - destruct p as [t|r]; simpl.
    + split; [reflexivity|]. intros w2 r2 Hb Hprob.
      rewrite (Landpatch_update_rock _ _ _ Hb). unfold RockpatchM.update.
      rewrite Hprob. simpl. now rewrite never_ignites_default.
    + repeat split. apply never_ignites_default.
Qed.

Lemma replacement_never_changes_back_witness :
  exists b self' w' q,
    mutate_landpatch pair_land 0%nat pair_world = Ok self' w' /\
    Dict.get (land_patches self') 1 = Some b /\
    objs w' !! b = Some q /\
    match q with
    | IsRock r =>
        true = true /\
        forall w2 r2,
          objs w2 !! b = Some (IsRock r2) ->
          prob_treepatch r2 = prob_treepatch r ->
          Landpatch_update b w2 = Ok false (advance 1 w2)
    | IsTree t =>
        true = false /\
        lit_state t = false /\ tree_stats t = 1 /\
        forall x, int_le_float (randint_of 1 100 x) (prob_autcombustion t) = false
    end.
Proof.
  apply (replacement_never_changes_back pair_land pair_world 0%nat
           (IsTree (TreepatchM.init 1 0%nat false 1%float))).
  reflexivity.
Defined.

(** X5: what one step does to a burning tree with a firefighter on it:
    [fight_fire] first, then the tree's own [update] (with a roll that
    does not ignite it).  When health + skill reaches 256 the fire is out
    and the tree is at 256 after the step; otherwise the tree is still lit
    and has health + skill - 20, or, if that would be negative, keeps
    health + skill and asks for its mutation. *)
Theorem fight_then_update (f : Firefighter) (roll : Z) (t : Treepatch) :
  lit_state t = true ->
  0 <= tree_stats t <= 256 ->
  0 <= avg_skill f ->
  int_le_float roll (prob_autcombustion t) = false ->
  let h := tree_stats t + avg_skill f in
  let t' := fst (TreepatchM.update roll (fight_fire f t)) in
  let signal := snd (TreepatchM.update roll (fight_fire f t)) in
  (256 <= h -> lit_state t' = false /\ tree_stats t' = 256 /\ signal = false) /\
  (20 <= h < 256 -> lit_state t' = true /\ tree_stats t' = h - 20 /\ signal = false) /\
  (h < 20 -> lit_state t' = true /\ tree_stats t' = h /\ signal = true).
Proof.
  intros Hlit Hr Hs Hroll. cbv zeta.
  unfold fight_fire, TreepatchM.set_tree_stats, TreepatchM.assign_tree_stats,
    TreepatchM.set_lit_state, tree_stats_max.
  rewrite Hlit. simpl.
  destruct (tree_stats t + avg_skill f <=? 256) eqn:E1;
    [apply Z.leb_le in E1 | apply Z.leb_gt in E1]; simpl.
  - destruct (256 <=? tree_stats t + avg_skill f) eqn:E2;
      [apply Z.leb_le in E2 | apply Z.leb_gt in E2];
      unfold TreepatchM.update, tree_stats_max, tree_stats_min; simpl;
      rewrite ?Hroll, ?Hlit; simpl.
    + repeat split; intros; try lia; reflexivity.
    + destruct (0 <=? tree_stats t + avg_skill f - 20) eqn:E3;
        [apply Z.leb_le in E3 | apply Z.leb_gt in E3]; simpl;
        repeat split; intros; try lia; auto.
  - unfold TreepatchM.update, tree_stats_max, tree_stats_min; simpl.
    rewrite Hroll. simpl. repeat split; intros; try lia; reflexivity.
Qed.

Lemma fight_then_update_witness :
  lit_state (fst (TreepatchM.update 50
               (fight_fire (mkFirefighter 0 50)
                  (TreepatchM.set_lit_state true sample_tree)))) = false.
Proof.
  destruct (fight_then_update (mkFirefighter 0 50) 50
              (TreepatchM.set_lit_state true sample_tree))
    as (Hout & _).
  - reflexivity.
  - simpl. unfold tree_stats_max. lia.
  - simpl. lia.
  - reflexivity.
  - apply Hout. simpl. unfold tree_stats_max. lia.
Defined.

(** ** Percentages *)

(** For a whole percentage [p] between 0 and 100, the inclusive test
    [roll <= p] passes for exactly [p] of the hundred rolls and the strict
    test [roll < p] for [p - 1] of them. *)
Lemma percent_tests_pass (p : nat) :
  (p <= 100)%nat ->
  passing (fun roll => int_le_float roll (float_of_int (Z.of_nat p))) = p /\
  passing (fun roll => int_lt_float roll (float_of_int (Z.of_nat p))) = (p - 1)%nat.
Proof.
  intros Hp.
  assert (Hall :
    forallb (fun p =>
      Nat.eqb (passing (fun roll => int_le_float roll (float_of_int (Z.of_nat p)))) p
      && Nat.eqb (passing (fun roll => int_lt_float roll (float_of_int (Z.of_nat p))))
                 (p - 1)) (seq 0 101) = true) by (vm_compute; reflexivity).
  rewrite forallb_forall in Hall.
  specialize (Hall p ltac:(apply in_seq; lia)).
  apply andb_true_iff in Hall as [Hle Hlt].
  apply Nat.eqb_eq in Hle, Hlt. now split.
Qed.

Lemma passing_ext (f g : Z -> bool) :
  (forall roll, f roll = g roll) -> passing f = passing g.
Proof. intros H. unfold passing. now rewrite (List.filter_ext f g H). Qed.

(** [Treepatch.update] leaves an unlit tree lit exactly when the roll
    passes the ignition test. *)
Lemma update_ignites roll t :
  lit_state t = false ->
  lit_state (fst (TreepatchM.update roll t))
  = int_le_float roll (prob_autcombustion t).
Proof.
  intros Hlit. unfold TreepatchM.update.
  destruct (int_le_float roll (prob_autcombustion t)); simpl; rewrite ?Hlit; simpl.
  - destruct (tree_stats_min <=? tree_stats t - 20); reflexivity.
  - destruct (tree_stats t + 10 <=? tree_stats_max); simpl; exact Hlit.
Qed.

(** X6: the configured percentage is the chance of the event.  For a
    whole percentage [p] between 0 and 100, [Treepatch.update] sets an
    unlit tree with ignition probability [p] alight for exactly [p] of
    the hundred rolls 1 .. 100, and [Rockpatch.update] on a rock with
    respawn probability [p] returns [True] for exactly [p] of them. *)
Theorem percentage_rolls (p : nat) (t : Treepatch) (r : Rockpatch) :
  (p <= 100)%nat ->
  lit_state t = false ->
  prob_autcombustion t = float_of_int (Z.of_nat p) ->
  prob_treepatch r = float_of_int (Z.of_nat p) ->
  passing (fun roll => lit_state (fst (TreepatchM.update roll t))) = p /\
  passing (fun roll => RockpatchM.update roll r) = p.
Proof.
  intros Hp Hlit Htree Hrock.
  destruct (percent_tests_pass p Hp) as [Hle _]. split.
  - etransitivity; [apply passing_ext | exact Hle].
    intros roll. rewrite (update_ignites roll t Hlit). now rewrite Htree.
  - etransitivity; [apply passing_ext | exact Hle].
    intros roll. unfold RockpatchM.update. now rewrite Hrock.
Qed.

Lemma percentage_rolls_witness :
  passing (fun roll =>
             lit_state (fst (TreepatchM.update roll
                               (TreepatchM.init 1 0%nat false 30%float))))
  = 30%nat /\
  passing (fun roll =>
             RockpatchM.update roll (RockpatchM.init 2 1%nat 30%float))
  = 30%nat.
Proof.
  apply (percentage_rolls 30 (TreepatchM.init 1 0%nat false 30%float)
           (RockpatchM.init 2 1%nat 30%float)).
  - lia.
  - reflexivity.
  - reflexivity.
  - reflexivity.
Defined.

(** Every roll of [random.randint(1, 100)] is one of the hundred rolls. *)
Lemma randint_percent_roll x : In (randint_of 1 100 x) percent_rolls.
Proof.
  destruct (percent_roll_cases x) as (n & Hn & ->).
  unfold percent_rolls. apply in_map_iff. exists n. split; [reflexivity|].
  apply in_seq. lia.
Qed.

(** ** What [GraphBuilder] builds *)

(** [create_landpatch] for an id that is not yet a key, with the object
    it allocates. *)
Lemma create_landpatch_built (gb : GraphBuilder) id pos w :
  ~ In id (Dict.keys (gb_land_patches gb)) ->
  let tree := plants_tree (landscape (gb_configs gb))
                (Dict.len (gb_land_patches gb)) (number_of_trees gb) in
  create_landpatch gb id pos w =
    Ok (mkGraphBuilder (gb_configs gb)
          (gb_land_patches gb ++ [(id, length (objs w))])
          (number_of_rocks gb + (if tree then 0 else 1))
          (number_of_trees gb + (if tree then 1 else 0)))
       (allocated w (built_patch (gb_configs gb) tree id pos (length (dicts w)))
          Dict.empty).
Proof.
  intros Hfresh tree. subst tree. unfold plants_tree, create_landpatch, built_patch.
  destruct (PrimFloat.ltb _ _);
    cbv [bind new_dict new set_position get_patch_id deref assign ret
         of_option objs dicts tape cursor allocated];
    rewrite list_lookup_middle by reflexivity;
    rewrite insert_app_r_alt by reflexivity;
    rewrite Nat.sub_diag; cbn [insert list_insert];
    rewrite list_lookup_middle by reflexivity;
    cbn [map_base base patch_id tree_base rock_base base_set_position
         TreepatchM.init TreepatchM.set_color RockpatchM.init
         RockpatchM.set_color base_set_color Landpatch_init];
    rewrite dict_set_fresh by assumption;
    rewrite Z.add_0_r; reflexivity.
Qed.

Lemma built_entries_keys pos a : Dict.keys (built_entries pos a) = Dict.keys pos.
Proof.
  revert a. induction pos as [|[id p] rest IH]; intros a; simpl; [reflexivity|].
  f_equal. apply IH.
Qed.

Lemma built_entries_values pos a :
  Dict.values (built_entries pos a) = seq a (length pos).
Proof.
  revert a. induction pos as [|[id p] rest IH]; intros a; simpl; [reflexivity|].
  f_equal. apply IH.
Qed.

Lemma built_patches_length cfg pos size trees d :
  length (built_patches cfg pos size trees d) = length pos.
Proof.
  revert size trees d. induction pos as [|[id p] rest IH]; intros; simpl;
    [reflexivity | f_equal; apply IH].
Qed.

(** The first loop of [create_landpatches], from any store and any table
    that does not have the new ids yet: the store and the table it ends
    with. *)
Lemma create_patches_built (pos : Dict.t (float * float)) :
  forall (gb : GraphBuilder) (w : World),
    distinct (Dict.keys pos) = true ->
    (forall k, In k (Dict.keys pos) -> ~ In k (Dict.keys (gb_land_patches gb))) ->
    exists gb',
      create_patches gb pos w =
        Ok gb'
           (mkWorld
              (objs w ++ built_patches (gb_configs gb) pos
                           (Dict.len (gb_land_patches gb)) (number_of_trees gb)
                           (length (dicts w)))
              (dicts w ++ repeat Dict.empty (length pos))
              (tape w) (cursor w)) /\
      gb_configs gb' = gb_configs gb /\
      gb_land_patches gb'
        = gb_land_patches gb ++ built_entries pos (length (objs w)).
Proof.
  induction pos as [|[id p] rest IH]; intros gb w Hdist Hfresh.
  - exists gb. simpl. rewrite !app_nil_r. repeat split. now destruct w.
  - simpl in Hdist. apply andb_true_iff in Hdist as [Hid Hrest].
    apply negb_true_iff in Hid.
    assert (Hid' : ~ In id (Dict.keys rest)).
    { intros Hin. apply list_in_In in Hin. congruence. }
    assert (Hnew : ~ In id (Dict.keys (gb_land_patches gb))).
    { apply Hfresh. simpl. now left. }
    pose proof (create_landpatch_built gb id p w Hnew) as Hstep.
    cbv zeta in Hstep.
    set (tree := plants_tree (landscape (gb_configs gb))
                   (Dict.len (gb_land_patches gb)) (number_of_trees gb)) in *.
    set (gb1 := mkGraphBuilder _ _ _ _) in Hstep.
    set (w1 := allocated _ _ _) in Hstep.
    destruct (IH gb1 w1 Hrest) as (gb' & Hrun & Hcfg & Htable).
    { intros k Hk. subst gb1. simpl. rewrite dict_keys_app. simpl.
      intros Hin. apply in_app_or in Hin as [Hin|[<-|[]]].
      - apply (Hfresh k); [simpl; now right | assumption].
      - contradiction. }
    exists gb'. split; [|split].
    + simpl create_patches. rewrite (bind_Ok _ _ _ _ _ Hstep). rewrite Hrun.
      f_equal. subst gb1 w1. unfold allocated. simpl.
      rewrite !length_app. simpl.
      replace (Dict.len (gb_land_patches gb ++ [(id, length (objs w))]))
        with (Dict.len (gb_land_patches gb) + 1)
        by (unfold Dict.len; rewrite length_app; simpl; lia).
      fold tree.
      replace (number_of_trees gb + (if tree then 1 else 0))
        with (if tree then number_of_trees gb + 1 else number_of_trees gb)
        by (destruct tree; lia).
      rewrite Nat.add_1_r. rewrite <- !app_assoc. reflexivity.
    + now rewrite Hcfg.
    + rewrite Htable. subst gb1 w1. unfold allocated. simpl.
      rewrite length_app. simpl. rewrite Nat.add_1_r.
      now rewrite <- app_assoc.
Qed.

Lemma repeat_lookup {A} (x : A) n i : (i < n)%nat -> repeat x n !! i = Some x.
Proof.
  revert i. induction n as [|n IH]; intros [|i] Hi; simpl; try lia; auto.
  apply IH. lia.
Qed.

(** The [i]-th id of the positions has the [i]-th entry and the [i]-th
    object and dictionary. *)
Lemma built_lookup cfg (pos : Dict.t (float * float)) :
  forall (i : nat) id p a size trees d,
    pos !! i = Some (id, p) ->
    built_entries pos a !! i = Some (id, (a + i)%nat) /\
    exists tree,
      built_patches cfg pos size trees d !! i
        = Some (built_patch cfg tree id p (d + i)%nat).
Proof.
  induction pos as [|[id0 p0] rest IH]; intros [|i] id p a size trees d Hi;
    simpl in Hi; try discriminate.
  - inversion Hi; subst. simpl. rewrite !Nat.add_0_r. split; [reflexivity|].
    eexists. reflexivity.
  - simpl.
    destruct (IH i id p (S a) (size + 1)
                (if plants_tree (landscape cfg) size trees
                 then trees + 1 else trees) (S d) Hi)
      as (Hentry & tree & Hobj).
    rewrite <- !Nat.add_succ_comm. split; [exact Hentry|]. eauto.
Qed.

Lemma built_entries_In (pos : Dict.t (float * float)) :
  forall id a a0,
    In (id, a) (built_entries pos a0) ->
    exists (i : nat) p, pos !! i = Some (id, p) /\ a = (a0 + i)%nat.
Proof.
  induction pos as [|[id0 p0] rest IH]; intros id a a0; simpl; [tauto|].
  intros [Heq|Hin].
  - inversion Heq; subst. exists O, p0. split; [reflexivity | lia].
  - destruct (IH _ _ _ Hin) as (i & p & Hi & ->).
    exists (S i), p. split; [exact Hi | lia].
Qed.

Lemma distinct_lookup_inj {V} (pos : Dict.t V) :
  distinct (Dict.keys pos) = true ->
  forall (i j : nat) id p q,
    pos !! i = Some (id, p) -> pos !! j = Some (id, q) -> i = j.
Proof.
  induction pos as [|[id0 p0] rest IH]; intros Hd i j id p q Hi Hj;
    [discriminate|].
  simpl in Hd. apply andb_true_iff in Hd as [Hfirst Hrest].
  apply negb_true_iff in Hfirst.
  assert (Hnot : forall (k : nat) v, rest !! k = Some (id0, v) -> False).
  { intros k v Hk.
    assert (In id0 (Dict.keys rest)).
    { apply (in_map fst _ (id0, v)).
      apply list_elem_of_In, list_elem_of_lookup. eauto. }
    apply list_in_In in H. congruence. }
  destruct i as [|i], j as [|j]; simpl in Hi, Hj.
  - reflexivity.
  - inversion Hi; subst. exfalso. eauto.
  - inversion Hj; subst. exfalso. eauto.
  - f_equal. eauto.
Qed.

(** X7: from an empty patch table and any store, for positions with
    pairwise distinct ids, the first loop of [create_landpatches] returns
    a table with exactly the ids of the positions, in their order.  The
    entry of each id is a newly allocated object that carries this id and
    its position, has no firefighter, and owns a new, empty neighbour
    dictionary; it is an unlit tree at health 256 with colour 256 and the
    configured ignition probability, or a rock without colour with the
    configured respawn probability.  Objects that were in the store are
    left as they were. *)
Theorem create_patches_one_patch_per_id
    (cfg : Config) (pos : Dict.t (float * float)) (w : World) :
  distinct (Dict.keys pos) = true ->
  exists gb w',
    create_patches (GraphBuilder_init cfg Dict.empty) pos w = Ok gb w' /\
    Dict.keys (gb_land_patches gb) = Dict.keys pos /\
    (forall a, (a < length (objs w))%nat -> objs w' !! a = objs w !! a) /\
    forall (i : nat) id p,
      pos !! i = Some (id, p) ->
      exists a o,
        gb_land_patches gb !! i = Some (id, a) /\
        objs w !! a = None /\
        objs w' !! a = Some o /\
        patch_id (base o) = id /\
        position (base o) = p /\
        firefighter (base o) = false /\
        dicts w !! neighbors (base o) = None /\
        dicts w' !! neighbors (base o) = Some Dict.empty /\
        match o with
        | IsTree t =>
            lit_state t = false /\ tree_stats t = 256 /\
            color (tree_base t) = Some 256 /\
            prob_autcombustion t = prob_ignition cfg
        | IsRock r =>
            color (rock_base r) = None /\
            prob_treepatch r = prob_respawn cfg
        end.
Proof.
  intros Hdist.
  destruct (create_patches_built pos (GraphBuilder_init cfg Dict.empty) w Hdist)
    as (gb & Hrun & Hcfg & Htable).
  { intros k _ []. }
  simpl in Hrun, Hcfg, Htable.
  eexists gb, _. split; [exact Hrun|]. split; [|split].
  - rewrite Htable. apply built_entries_keys.
  - intros a Ha. simpl. now rewrite lookup_app_l.
  - intros i id p Hi.
    destruct (built_lookup cfg pos i id p (length (objs w))
                (Dict.len (@Dict.empty ref)) 0 (length (dicts w)) Hi)
      as (Hentry & tree & Hobj).
    assert (Hlt : (i < length pos)%nat) by (eapply lookup_lt_Some, Hi).
    exists (length (objs w) + i)%nat,
      (built_patch cfg tree id p (length (dicts w) + i)%nat).
    split; [now rewrite Htable|].
    split; [apply lookup_ge_None; lia|].
    split.
    { simpl. rewrite lookup_app_r by lia.
      replace (length (objs w) + i - length (objs w))%nat with i by lia.
      exact Hobj. }
    assert (Hnb : neighbors (base (built_patch cfg tree id p
                                     (length (dicts w) + i)%nat))
                  = (length (dicts w) + i)%nat) by now destruct tree.
    rewrite Hnb.
    repeat split; try (now destruct tree).
    + apply lookup_ge_None. lia.
    + simpl. rewrite lookup_app_r by lia.
      replace (length (dicts w) + i - length (dicts w))%nat with i by lia.
      now apply repeat_lookup.
Qed.

Lemma create_patches_one_patch_per_id_witness :
  exists gb w',
    create_patches (GraphBuilder_init config_unmanned Dict.empty)
      three_positions pair_world = Ok gb w' /\
    Dict.keys (gb_land_patches gb) = [1; 2; 3].
Proof.
  destruct (create_patches_one_patch_per_id config_unmanned three_positions
              pair_world)
    as (gb & w' & Hrun & Hkeys & _).
  - reflexivity.
  - exists gb, w'. split; [exact Hrun | exact Hkeys].
Defined.

(** ** Wiring the neighbours *)

Lemma dict_keys_set {V} (d : Dict.t V) k v k' :
  In k' (Dict.keys (Dict.set d k v)) <-> k' = k \/ In k' (Dict.keys d).
Proof.
  induction d as [|[k0 v0] d IH]; simpl.
  - intuition.
  - destruct (Z.eqb_spec k0 k) as [->|Hne]; simpl.
    + intuition.
    + rewrite IH. intuition.
Qed.

Lemma dict_get_Some_keys {V} (d : Dict.t V) k v :
  Dict.get d k = Some v -> In k (Dict.keys d).
Proof. intros H. apply (in_map fst _ _ (dict_get_In _ _ _ H)). Qed.

Lemma dict_keys_get {V} (d : Dict.t V) k :
  In k (Dict.keys d) -> exists v, Dict.get d k = Some v.
Proof.
  intros Hin. destruct (Dict.get d k) as [v|] eqn:E; [eauto|].
  apply dict_get_None_notin in E. contradiction.
Qed.

(** [first.add_landpatch_to_neighbour(second)] on two patches of a wired
    table: only the dictionary of [first] changes, it gets the entry
    [id of second -> second]. *)
Lemma add_landpatch_to_neighbour_wired w table x rx y ry :
  wired w table -> In (x, rx) table -> In (y, ry) table ->
  exists px ndx,
    objs w !! rx = Some px /\
    dicts w !! neighbors (base px) = Some ndx /\
    add_landpatch_to_neighbour rx ry w
      = Ok tt (with_dict (neighbors (base px)) (Dict.set ndx y ry) w).
Proof.
  intros (Hd & Hent & Hinj) Hx Hy.
  destruct (Hent x rx Hx) as (px & Hpx & Hidx & [ndx Hndx]).
  destruct (Hent y ry Hy) as (py & Hpy & Hidy & _).
  exists px, ndx. split; [exact Hpx|]. split; [exact Hndx|].
  unfold add_landpatch_to_neighbour.
  rewrite (bind_Ok _ _ _ _ _ (get_neighbors_Some _ _ _ Hpx)).
  rewrite (bind_Ok _ _ _ _ _ (deref_dict_Some _ _ _ Hndx)).
  rewrite (bind_Ok _ _ _ _ _ (get_patch_id_Some _ _ _ Hpy)).
  now rewrite Hidy.
Qed.

(** Replacing the dictionary of one patch keeps the table wired, changes
    the dictionary of that patch and leaves those of the others. *)
Lemma with_dict_wired w table x rx px v :
  wired w table -> In (x, rx) table -> objs w !! rx = Some px ->
  wired (with_dict (neighbors (base px)) v w) table /\
  forall id a p nd,
    In (id, a) table -> objs w !! a = Some p ->
    dicts w !! neighbors (base p) = Some nd ->
    dicts (with_dict (neighbors (base px)) v w) !! neighbors (base p)
      = Some (if Z.eqb x id then v else nd).
Proof.
  intros (Hd & Hent & Hinj) Hx Hpx. split.
  - split; [exact Hd|]. split.
    + intros id a Hin. destruct (Hent id a Hin) as (p & Hp & Hid & Hsome).
      exists p. repeat split; auto. simpl.
      apply lookup_lt_is_Some. rewrite length_insert.
      now apply lookup_lt_is_Some.
    + exact Hinj.
  - intros id a p nd Hin Hp Hnd. simpl.
    destruct (Z.eqb_spec x id) as [<-|Hne].
    + assert (a = rx).
      { pose proof (dict_In_get _ _ _ Hd Hin) as H1.
        pose proof (dict_In_get _ _ _ Hd Hx) as H2. congruence. }
      subst a. rewrite Hp in Hpx. inversion Hpx; subst.
      apply list_lookup_insert_eq. eapply lookup_lt_Some, Hnd.
    + rewrite list_lookup_insert_ne; [exact Hnd|].
      intros Heq. apply Hne. symmetry.
      eapply (Hinj id a p x rx px); eauto.
Qed.

Lemma connect_patches_cons table x y rest rx ry w w1 w2 :
  Dict.get table x = Some rx -> Dict.get table y = Some ry ->
  add_landpatch_to_neighbour rx ry w = Ok tt w1 ->
  add_landpatch_to_neighbour ry rx w1 = Ok tt w2 ->
  connect_patches table ((x, y) :: rest) w = connect_patches table rest w2.
Proof.
  intros Hgx Hgy Hadd1 Hadd2. simpl. rewrite Hgx, Hgy.
  unfold bind, of_option, ret. now rewrite Hadd1, Hadd2.
Qed.

(** The second loop of [create_landpatches] on a wired table, for edges
    whose ends are keys of the table: it returns, no object changes, and
    the dictionary of every patch becomes the [adjacency] of its id. *)
Lemma connect_patches_wired (table : Dict.t ref) (edges : list (Z * Z)) :
  forall w,
    wired w table -> edges_known table edges = true ->
    exists w',
      connect_patches table edges w = Ok tt w' /\
      objs w' = objs w /\ tape w' = tape w /\ cursor w' = cursor w /\
      wired w' table /\
      forall id a p nd,
        In (id, a) table -> objs w !! a = Some p ->
        dicts w !! neighbors (base p) = Some nd ->
        dicts w' !! neighbors (base p) = Some (adjacency table edges id nd).
Proof.
  induction edges as [|[x y] rest IH]; intros w Hwired Hknown.
  - exists w. split; [reflexivity|]. do 3 (split; [reflexivity|]).
    split; [exact Hwired|]. intros id a p nd _ _ Hnd. exact Hnd.
  - simpl in Hknown. apply andb_true_iff in Hknown as [Hxy Hrest].
    apply andb_true_iff in Hxy as [Hx Hy].
    apply list_in_In, dict_keys_get in Hx as [rx Hgx].
    apply list_in_In, dict_keys_get in Hy as [ry Hgy].
    pose proof (dict_get_In _ _ _ Hgx) as Hinx.
    pose proof (dict_get_In _ _ _ Hgy) as Hiny.
    destruct (add_landpatch_to_neighbour_wired w table x rx y ry Hwired Hinx Hiny)
      as (px & ndx & Hpx & Hndx & Hadd1).
    set (w1 := with_dict (neighbors (base px)) (Dict.set ndx y ry) w) in *.
    destruct (with_dict_wired w table x rx px (Dict.set ndx y ry) Hwired Hinx Hpx)
      as (Hwired1 & Hdicts1).
    fold w1 in Hwired1, Hdicts1.
    destruct (add_landpatch_to_neighbour_wired w1 table y ry x rx Hwired1 Hiny Hinx)
      as (py & ndy & Hpy & Hndy & Hadd2).
    set (w2 := with_dict (neighbors (base py)) (Dict.set ndy x rx) w1) in *.
    destruct (with_dict_wired w1 table y ry py (Dict.set ndy x rx) Hwired1 Hiny Hpy)
      as (Hwired2 & Hdicts2).
    fold w2 in Hwired2, Hdicts2.
    destruct (IH w2 Hwired2 Hrest)
      as (w' & Hrun & Hobjs & Htape & Hcursor & Hwired' & Hdicts').
    exists w'. split; [|split; [|split; [|split; [|split]]]]; auto.
    + now rewrite (connect_patches_cons table x y rest rx ry w w1 w2).
    + intros id a p nd Hin Hp Hnd.
      assert (Hp1 : objs w1 !! a = Some p) by exact Hp.
      pose proof (Hdicts1 id a p nd Hin Hp Hnd) as Hd1.
      pose proof (Hdicts2 id a p _ Hin Hp1 Hd1) as Hd2.
      assert (Hp2 : objs w2 !! a = Some p) by exact Hp.
      rewrite (Hdicts' id a p _ Hin Hp2 Hd2).
      f_equal. simpl. rewrite Hgx, Hgy.
      assert (Hndy' : y = id ->
                ndy = (if Z.eqb x id then Dict.set ndx y ry else nd)).
      { intros ->.
        assert (a = ry).
        { destruct Hwired as (Hd & _).
          pose proof (dict_In_get _ _ _ Hd Hin). congruence. }
        subst a. rewrite Hp1 in Hpy. inversion Hpy; subst.
        rewrite Hd1 in Hndy. now inversion Hndy. }
      assert (Hndx' : x = id -> ndx = nd).
      { intros ->.
        assert (a = rx).
        { destruct Hwired as (Hd & _).
          pose proof (dict_In_get _ _ _ Hd Hin). congruence. }
        subst a. rewrite Hp in Hpx. inversion Hpx; subst.
        rewrite Hnd in Hndx. now inversion Hndx. }
      destruct (Z.eqb_spec y id) as [Hyid|Hyid].
      * rewrite (Hndy' Hyid).
        destruct (Z.eqb_spec x id) as [Hxid|Hxid];
          [rewrite (Hndx' Hxid)|]; reflexivity.
      * destruct (Z.eqb_spec x id) as [Hxid|Hxid];
          [rewrite (Hndx' Hxid)|]; reflexivity.
Qed.

Lemma built_patch_fields cfg tree id p d :
  patch_id (base (built_patch cfg tree id p d)) = id /\
  neighbors (base (built_patch cfg tree id p d)) = d.
Proof. now destruct tree. Qed.

(** The state after the first loop, started with an empty table: the
    table is wired and every patch has an empty dictionary. *)
Lemma create_patches_wired (cfg : Config) (pos : Dict.t (float * float)) w :
  distinct (Dict.keys pos) = true ->
  exists gb w',
    create_patches (GraphBuilder_init cfg Dict.empty) pos w = Ok gb w' /\
    gb_configs gb = cfg /\
    Dict.keys (gb_land_patches gb) = Dict.keys pos /\
    tape w' = tape w /\ cursor w' = cursor w /\
    wired w' (gb_land_patches gb) /\
    forall id a p,
      In (id, a) (gb_land_patches gb) -> objs w' !! a = Some p ->
      dicts w' !! neighbors (base p) = Some Dict.empty.
Proof.
  intros Hdist.
  destruct (create_patches_built pos (GraphBuilder_init cfg Dict.empty) w Hdist)
    as (gb & Hrun & Hcfg & Htable).
  { intros k _ []. }
  simpl in Hrun, Hcfg, Htable.
  set (w' := mkWorld _ _ _ _) in Hrun.
  assert (Hstate : forall id a,
             In (id, a) (gb_land_patches gb) ->
             exists (i : nat) p tree,
               pos !! i = Some (id, p) /\
               objs w' !! a
                 = Some (built_patch cfg tree id p (length (dicts w) + i)%nat) /\
               dicts w' !! (length (dicts w) + i)%nat = Some Dict.empty).
  { intros id a Hin. rewrite Htable in Hin.
    destruct (built_entries_In _ _ _ _ Hin) as (i & p & Hi & ->).
    destruct (built_lookup cfg pos i id p (length (objs w))
                (Dict.len (@Dict.empty ref)) 0 (length (dicts w)) Hi)
      as (_ & tree & Hobj).
    assert (Hlt : (i < length pos)%nat) by (eapply lookup_lt_Some, Hi).
    exists i, p, tree. split; [exact Hi|]. split.
    - subst w'. simpl. rewrite lookup_app_r by lia.
      replace (length (objs w) + i - length (objs w))%nat with i by lia.
      exact Hobj.
    - subst w'. simpl. rewrite lookup_app_r by lia.
      replace (length (dicts w) + i - length (dicts w))%nat with i by lia.
      now apply repeat_lookup. }
  exists gb, w'. split; [exact Hrun|]. split; [exact Hcfg|].
  assert (Hkeys : Dict.keys (gb_land_patches gb) = Dict.keys pos)
    by (rewrite Htable; apply built_entries_keys).
  split; [exact Hkeys|]. split; [reflexivity|]. split; [reflexivity|].
  split; [split; [|split]|].
  - now rewrite Hkeys.
  - intros id a Hin.
    destruct (Hstate id a Hin) as (i & p & tree & Hi & Hobj & Hdict).
    destruct (built_patch_fields cfg tree id p (length (dicts w) + i)%nat)
      as [Hid Hnb].
    eexists. split; [exact Hobj|]. split; [exact Hid|].
    rewrite Hnb. exists Dict.empty. exact Hdict.
  - intros id1 a1 p1 id2 a2 p2 Hin1 Hin2 Hp1 Hp2 Hsame.
    destruct (Hstate id1 a1 Hin1) as (i1 & q1 & tree1 & Hi1 & Hobj1 & _).
    destruct (Hstate id2 a2 Hin2) as (i2 & q2 & tree2 & Hi2 & Hobj2 & _).
    rewrite Hobj1 in Hp1. rewrite Hobj2 in Hp2.
    inversion Hp1; subst p1. inversion Hp2; subst p2.
    destruct (built_patch_fields cfg tree1 id1 q1 (length (dicts w) + i1)%nat)
      as [_ Hnb1].
    destruct (built_patch_fields cfg tree2 id2 q2 (length (dicts w) + i2)%nat)
      as [_ Hnb2].
    rewrite Hnb1, Hnb2 in Hsame.
    assert (i1 = i2) by lia. subst i2. congruence.
  - intros id a p Hin Hp.
    destruct (Hstate id a Hin) as (i & q & tree & Hi & Hobj & Hdict).
    rewrite Hobj in Hp. inversion Hp; subst p.
    destruct (built_patch_fields cfg tree id q (length (dicts w) + i)%nat)
      as [_ Hnb].
    now rewrite Hnb.
Qed.

(** The keys of an adjacency dictionary: the keys it started with and the
    other ends of the edges at the node. *)
Lemma adjacency_keys (table : Dict.t ref) (edges : list (Z * Z)) a :
  edges_known table edges = true ->
  forall d b,
    In b (Dict.keys (adjacency table edges a d)) <->
    In b (Dict.keys d) \/ joined edges a b.
Proof.
  unfold joined. induction edges as [|[x y] rest IH]; intros Hknown d b.
  - simpl. tauto.
  - simpl in Hknown. apply andb_true_iff in Hknown as [Hxy Hrest].
    apply andb_true_iff in Hxy as [Hx Hy].
    apply list_in_In, dict_keys_get in Hx as [rx Hgx].
    apply list_in_In, dict_keys_get in Hy as [ry Hgy].
    simpl adjacency. rewrite Hgx, Hgy. rewrite (IH Hrest). simpl In.
    destruct (Z.eqb_spec x a) as [->|Hxa], (Z.eqb_spec y a) as [->|Hya];
      rewrite ?dict_keys_set;
      split; intros H;
      repeat match goal with
             | H : _ \/ _ |- _ => destruct H
             | H : (_, _) = (_, _) |- _ => inversion H; subst; clear H
             end; subst; auto 6; try congruence.
Qed.

(** Every entry of an adjacency dictionary refers to the table's patch of
    that id, if the entries it started with do. *)
Lemma adjacency_get (table : Dict.t ref) (edges : list (Z * Z)) a :
  forall d,
    (forall b r, Dict.get d b = Some r -> Dict.get table b = Some r) ->
    forall b r,
      Dict.get (adjacency table edges a d) b = Some r ->
      Dict.get table b = Some r.
Proof.
  induction edges as [|[x y] rest IH]; intros d Hd b r; [apply Hd|].
  simpl. apply IH. clear b r. intros b r.
  assert (Hset : forall (d0 : Dict.t ref) k,
             (forall b r, Dict.get d0 b = Some r -> Dict.get table b = Some r) ->
             forall b r,
               Dict.get (match Dict.get table k with
                         | Some r0 => Dict.set d0 k r0
                         | None => d0
                         end) b = Some r ->
               Dict.get table b = Some r).
  { intros d0 k Hd0 b0 r0. destruct (Dict.get table k) as [rk|] eqn:Hk; [|apply Hd0].
    destruct (Z.eq_dec k b0) as [->|Hne].
    - rewrite dict_get_set_eq. congruence.
    - rewrite dict_get_set_ne by assumption. apply Hd0. }
  destruct (Z.eqb y a), (Z.eqb x a); eauto.
Qed.

(** X8: for positions with pairwise distinct ids and edges whose ends
    are ids of the positions, [create_landpatches] (on an empty table, in
    any store) returns, the table has the ids of the positions, and the
    neighbour dictionary of every patch [a] has exactly the ids [b] that
    share an edge with [a], in either direction, each leading to the
    table's patch of [b].  The neighbour relation is therefore symmetric. *)
Theorem create_landpatches_neighbours
    (cfg : Config) (edges : list (Z * Z)) (pos : Dict.t (float * float))
    (w : World) :
  distinct (Dict.keys pos) = true ->
  endpoints_in (Dict.keys pos) edges = true ->
  exists gb w',
    create_landpatches (GraphBuilder_init cfg Dict.empty) edges pos w
      = Ok gb w' /\
    Dict.keys (gb_land_patches gb) = Dict.keys pos /\
    (forall a ra,
       Dict.get (gb_land_patches gb) a = Some ra ->
       exists N,
         get_neighbors_id ra w' = Ok N w' /\
         (forall b, In b N <-> joined edges a b) /\
         (forall b, In b N ->
            exists rb, Dict.get (gb_land_patches gb) b = Some rb /\
                       neighbor_through ra b w' = Ok rb w')) /\
    (forall a b ra rb Na Nb,
       Dict.get (gb_land_patches gb) a = Some ra ->
       Dict.get (gb_land_patches gb) b = Some rb ->
       get_neighbors_id ra w' = Ok Na w' ->
       get_neighbors_id rb w' = Ok Nb w' ->
       (In b Na <-> In a Nb)).
Proof.
  intros Hdist Hends.
  destruct (create_patches_wired cfg pos w Hdist)
    as (gb & w1 & Hrun & Hcfg & Hkeys & _ & _ & Hwired & Hempty).
  assert (Hknown : edges_known (gb_land_patches gb) edges = true)
    by (unfold edges_known; rewrite Hkeys; exact Hends).
  destruct (connect_patches_wired _ _ w1 Hwired Hknown)
    as (w' & Hconn & Hobjs & _ & _ & Hwired' & Hdicts).
  assert (Hnode : forall a ra,
            Dict.get (gb_land_patches gb) a = Some ra ->
            exists p, objs w' !! ra = Some p /\
              dicts w' !! neighbors (base p)
                = Some (adjacency (gb_land_patches gb) edges a Dict.empty)).
  { intros a ra Hget. pose proof (dict_get_In _ _ _ Hget) as Hin.
    destruct Hwired as (_ & Hent & _).
    destruct (Hent a ra Hin) as (p & Hp & _ & _).
    exists p. split; [now rewrite Hobjs|].
    apply (Hdicts a ra p Dict.empty Hin Hp). now apply (Hempty a ra). }
  assert (Hids : forall a ra,
            Dict.get (gb_land_patches gb) a = Some ra ->
            get_neighbors_id ra w'
              = Ok (Dict.keys (adjacency (gb_land_patches gb) edges a Dict.empty))
                   w').
  { intros a ra Hget. destruct (Hnode a ra Hget) as (p & Hp & Hnd).
    now apply (get_neighbors_id_Ok _ p). }
  assert (Hmem : forall a b,
            In b (Dict.keys (adjacency (gb_land_patches gb) edges a Dict.empty))
            <-> joined edges a b).
  { intros a b. rewrite (adjacency_keys _ _ _ Hknown). simpl. tauto. }
  exists gb, w'. split; [|split; [exact Hkeys|split]].
  - unfold create_landpatches. rewrite (bind_Ok _ _ _ _ _ Hrun).
    now rewrite (bind_Ok _ _ _ _ _ Hconn).
  - intros a ra Hget. eexists. split; [apply (Hids a ra Hget)|].
    split; [apply Hmem|].
    intros b Hb. apply dict_keys_get in Hb as [rb Hrb].
    exists rb. split.
    + apply (adjacency_get _ edges a Dict.empty); [|exact Hrb].
      intros b0 r0 Hnone. discriminate.
    + destruct (Hnode a ra Hget) as (p & Hp & Hnd). unfold neighbor_through.
      rewrite (bind_Ok _ _ _ _ _ (get_neighbors_Some _ _ _ Hp)).
      rewrite (bind_Ok _ _ _ _ _ (deref_dict_Some _ _ _ Hnd)).
      now rewrite Hrb.
  - intros a b ra rb Na Nb Ha Hb HNa HNb.
    rewrite (Hids a ra Ha) in HNa. rewrite (Hids b rb Hb) in HNb.
    inversion HNa; subst Na. inversion HNb; subst Nb.
    rewrite !Hmem. unfold joined. tauto.
Qed.

Lemma create_landpatches_neighbours_witness :
  exists gb w',
    create_landpatches (GraphBuilder_init config_unmanned Dict.empty)
      cycle_edges four_positions pair_world = Ok gb w' /\
    Dict.keys (gb_land_patches gb) = [1; 2; 3; 4].
Proof.
  destruct (create_landpatches_neighbours config_unmanned cycle_edges
              four_positions pair_world)
    as (gb & w' & Hrun & Hkeys & _).
  - reflexivity.
  - reflexivity.
  - exists gb, w'. split; [exact Hrun | exact Hkeys].
Defined.

(** On a wired table, an edge list with an end that is not a key makes
    the second loop raise [KeyError]. *)
Lemma connect_patches_unknown_end (table : Dict.t ref) (edges : list (Z * Z)) :
  forall w,
    wired w table -> edges_known table edges = false ->
    connect_patches table edges w = Raise KeyError.
Proof.
  induction edges as [|[x y] rest IH]; intros w Hwired Hknown;
    [discriminate|].
  destruct (Dict.get table x) as [rx|] eqn:Hgx;
    [|simpl; now rewrite Hgx].
  destruct (Dict.get table y) as [ry|] eqn:Hgy;
    [|simpl; rewrite Hgx, Hgy; reflexivity].
  pose proof (dict_get_In _ _ _ Hgx) as Hinx.
  pose proof (dict_get_In _ _ _ Hgy) as Hiny.
  simpl in Hknown.
  rewrite (proj2 (list_in_In x _) (dict_get_Some_keys _ _ _ Hgx)) in Hknown.
  rewrite (proj2 (list_in_In y _) (dict_get_Some_keys _ _ _ Hgy)) in Hknown.
  simpl in Hknown.
  destruct (add_landpatch_to_neighbour_wired w table x rx y ry Hwired Hinx Hiny)
    as (px & ndx & Hpx & Hndx & Hadd1).
  destruct (with_dict_wired w table x rx px (Dict.set ndx y ry) Hwired Hinx Hpx)
    as (Hwired1 & _).
  destruct (add_landpatch_to_neighbour_wired _ table y ry x rx Hwired1 Hiny Hinx)
    as (py & ndy & Hpy & Hndy & Hadd2).
  destruct (with_dict_wired _ table y ry py (Dict.set ndy x rx) Hwired1 Hiny Hpy)
    as (Hwired2 & _).
  rewrite (connect_patches_cons table x y rest rx ry _ _ _ Hgx Hgy Hadd1 Hadd2).
  now apply IH.
Qed.

(** X9: when some edge has an end that is not an id of the positions
    (which have pairwise distinct ids), [create_landpatches] raises
    [KeyError]: no patch table is returned. *)
Theorem create_landpatches_unknown_end
    (cfg : Config) (edges : list (Z * Z)) (pos : Dict.t (float * float))
    (w : World) :
  distinct (Dict.keys pos) = true ->
  endpoints_in (Dict.keys pos) edges = false ->
  create_landpatches (GraphBuilder_init cfg Dict.empty) edges pos w
    = Raise KeyError.
Proof.
  intros Hdist Hends.
  destruct (create_patches_wired cfg pos w Hdist)
    as (gb & w1 & Hrun & _ & Hkeys & _ & _ & Hwired & _).
  assert (Hknown : edges_known (gb_land_patches gb) edges = false)
    by (unfold edges_known; rewrite Hkeys; exact Hends).
  unfold create_landpatches. rewrite (bind_Ok _ _ _ _ _ Hrun).
  unfold bind. now rewrite (connect_patches_unknown_end _ _ _ Hwired Hknown).
Qed.

Lemma create_landpatches_unknown_end_witness :
  create_landpatches (GraphBuilder_init config_unmanned Dict.empty)
    [(1, 2); (2, 5)] three_positions pair_world = Raise KeyError.
Proof.
  apply (create_landpatches_unknown_end config_unmanned [(1, 2); (2, 5)]
           three_positions pair_world); reflexivity.
Defined.

(** ** The greedy fill in general *)

Lemma fill_on_target_table :
  forallb (fun p => forallb (fill_on_target p) (seq 1 300)) (seq 1 99) = true.
Proof. vm_compute. reflexivity. Qed.

(** X10: for a whole landscape percentage [p] from 1 to 99 and up to 300
    patches with pairwise distinct ids, the patch-creation loop of a
    [GraphBuilder] created with an empty patch table returns, its counters
    are the numbers of tree and rock objects in the table, they add up to
    the number of patches, and the number of trees differs from [p]
    percent of the patches by less than one patch.  (On a table that
    already has entries the builder's ratio starts from the inherited
    size, and nothing is said here.) *)
Theorem greedy_fill_tracks_target
    (cfg : Config) (pos : Dict.t (float * float)) (w : World) (p : nat) :
  landscape cfg = float_of_int (Z.of_nat p) ->
  (1 <= p <= 99)%nat ->
  (1 <= length pos <= 300)%nat ->
  distinct (Dict.keys pos) = true ->
  exists gb w',
    create_patches (GraphBuilder_init cfg Dict.empty) pos w = Ok gb w' /\
    count_trees w' (gb_land_patches gb) = number_of_trees gb /\
    count_rocks w' (gb_land_patches gb) = number_of_rocks gb /\
    number_of_trees gb + number_of_rocks gb = Z.of_nat (length pos) /\
    Z.abs (100 * number_of_trees gb - Z.of_nat p * Z.of_nat (length pos)) < 100.
Proof.
  intros Hls Hp Hn Hdist.
  destruct (create_patches_fill pos (GraphBuilder_init cfg Dict.empty) w Hdist)
    as (gb & w' & Hrun & Hfill & Htrees & Hrocks & _).
  { intros k _ []. }
  { constructor. }
  simpl in Hfill, Htrees, Hrocks. rewrite Hls in Hfill.
  pose proof fill_on_target_table as Htable.
  rewrite forallb_forall in Htable.
  specialize (Htable p ltac:(apply in_seq; lia)).
  rewrite forallb_forall in Htable.
  specialize (Htable (length pos) ltac:(apply in_seq; lia)).
  unfold fill_on_target in Htable.
  change (Dict.len (@Dict.empty ref)) with 0 in Hfill.
  rewrite <- Hfill in Htable.
  apply andb_true_iff in Htable as [Hsum Hnear].
  apply Z.eqb_eq in Hsum. apply Z.ltb_lt in Hnear.
  unfold count_trees, count_rocks in *. simpl in Htrees, Hrocks.
  exists gb, w'. repeat split; try assumption; lia.
Qed.

Lemma greedy_fill_tracks_target_witness :
  exists gb w',
    create_patches (GraphBuilder_init config_unmanned Dict.empty)
      three_positions pair_world = Ok gb w' /\
    count_trees w' (gb_land_patches gb) = number_of_trees gb /\
    count_rocks w' (gb_land_patches gb) = number_of_rocks gb /\
    number_of_trees gb + number_of_rocks gb = 3 /\
    Z.abs (100 * number_of_trees gb - 80 * 3) < 100.
Proof.
  apply (greedy_fill_tracks_target config_unmanned three_positions pair_world 80).
  - reflexivity.
  - lia.
  - simpl. lia.
  - reflexivity.
Defined.

(** ** Spawning firefighters *)

Lemma dict_set_length_le {V} (d : Dict.t V) k v :
  (length (Dict.set d k v) <= S (length d))%nat.
Proof.
  induction d as [|[k0 v0] d IH]; simpl; [lia|].
  destruct (Z.eqb k0 k); simpl; lia.
Qed.

Lemma dict_get_set_inv {V} (d : Dict.t V) k v k' v' :
  Dict.get (Dict.set d k v) k' = Some v' ->
  (k' = k /\ v' = v) \/ Dict.get d k' = Some v'.
Proof.
  destruct (Z.eq_dec k k') as [->|Hne].
  - rewrite dict_get_set_eq. intros [= <-]. now left.
  - rewrite dict_get_set_ne by assumption. now right.
Qed.

Lemma flagged_refl p : flagged p p.
Proof. now left. Qed.

Lemma choice_Ok {A} (xs : list A) (x : A) w :
  xs !! (tape w (cursor w) mod length xs)%nat = Some x ->
  choice xs w = Ok x (advance 1 w).
Proof.
  intros Hx. destruct xs as [|y ys]; [discriminate|].
  unfold choice, bind, draw. cbn [tape cursor objs dicts].
  rewrite Hx. unfold advance. now rewrite Nat.add_1_r.
Qed.

Lemma set_firefighter_Ok a p flag w :
  objs w !! a = Some p ->
  set_firefighter a flag w
  = Ok tt (with_obj a (map_base (base_set_firefighter flag) p) w).
Proof.
  intros Ha. unfold set_firefighter.
  now rewrite (bind_Ok _ _ _ _ _ (deref_Some _ _ _ Ha)).
Qed.

(** The loop of [spawn_firefighters], for any number of iterations. *)
Lemma spawn_loop_places (todo : nat) :
  forall (spawned : Z) (self : Land) (w : World),
    positions self <> [] ->
    positions_patched self w ->
    exists self' w',
      spawn_loop todo spawned self w = Ok self' w' /\
      (configs self' = configs self /\ land_patches self' = land_patches self /\
       edgelist self' = edgelist self /\ positions self' = positions self) /\
      (dicts w' = dicts w /\ tape w' = tape w /\
       cursor w' = (cursor w + todo)%nat /\
       length (objs w') = length (objs w)) /\
      (forall a p, objs w !! a = Some p ->
         exists p', objs w' !! a = Some p' /\ flagged p p') /\
      (forall id, In id (get_firefighters self') <->
         In id (get_firefighters self) \/
         exists i, (i < todo)%nat /\ spawn_pick self w i = Some id) /\
      (forall i id a, (i < todo)%nat -> spawn_pick self w i = Some id ->
         Dict.get (land_patches self) id = Some a ->
         exists p', objs w' !! a = Some p' /\ firefighter (base p') = true) /\
      (forall id f, Dict.get (firefighters self') id = Some f ->
         Dict.get (firefighters self) id = Some f \/
         (avg_skill f = snd (firefighters_config (configs self)) /\
          spawned <= firefighter_id f < spawned + Z.of_nat todo)) /\
      (length (firefighters self') <= length (firefighters self) + todo)%nat.
Proof.
  induction todo as [|todo IH]; intros spawned self w Hne Hpatched.
  - exists self, w. split; [reflexivity|]. split; [auto|].
    split; [repeat split; simpl; lia|].
    split; [intros a p Ha; exists p; split; [exact Ha | apply flagged_refl]|].
    split; [intros id; split; [auto | intros [H|(i & Hi & _)]; [exact H | lia]]|].
    split; [intros i id a Hi; lia|].
    split; [auto | lia].
  - set (keys := Dict.keys (positions self)).
    assert (Hlen : (0 < length keys)%nat).
    { subst keys. unfold Dict.keys. rewrite length_map.
      destruct (positions self); [contradiction | simpl; lia]. }
    destruct (lookup_lt_is_Some_2 keys (tape w (cursor w) mod length keys)%nat)
      as [pick Hpick].
    { apply Nat.mod_upper_bound. lia. }
    assert (Hpick0 : spawn_pick self w 0 = Some pick).
    { unfold spawn_pick. now rewrite Nat.add_0_r. }
    assert (Hin : In pick keys).
    { apply list_elem_of_In, list_elem_of_lookup. eauto. }
    destruct (Hpatched pick Hin) as (a & Hget & Hlt).
    destruct (lookup_lt_is_Some_2 (objs w) a Hlt) as [p Hp].
    set (fireman := mkFirefighter spawned (snd (firefighters_config (configs self)))).
    set (self1 := with_firefighters
                    (Dict.set (firefighters self) pick fireman) self).
    set (w1 := with_obj a (map_base (base_set_firefighter true) p) (advance 1 w)).
    assert (Hstep : spawn_loop (S todo) spawned self w
                    = spawn_loop todo (spawned + 1) self1 w1).
    { cbn [spawn_loop]. fold keys.
      rewrite (bind_Ok _ _ _ _ _ (choice_Ok keys pick w Hpick)).
      fold fireman. fold self1.
      change (land_patches self1) with (land_patches self). rewrite Hget.
      unfold of_option. unfold bind at 1. unfold ret at 1.
      now rewrite (bind_Ok _ _ _ _ _
                     (set_firefighter_Ok a p true (advance 1 w) Hp)). }
    assert (Hpatched1 : positions_patched self1 w1).
    { intros id Hid. destruct (Hpatched id Hid) as (b & Hb & Hblt).
      exists b. split; [exact Hb|]. subst w1. simpl.
      now rewrite length_insert. }
    destruct (IH (spawned + 1) self1 w1 Hne Hpatched1)
      as (self' & w' & Hrun & (Hc & Hlp & He & Hpos) & (Hd & Ht & Hcur & Hol)
          & Hobjs & Hkeys & Hflag & Hmen & Hcount).
    assert (Hshift : forall i, spawn_pick self1 w1 i = spawn_pick self w (S i)).
    { intros i. unfold spawn_pick. subst w1 self1. simpl.
      now replace (cursor w + 1 + i)%nat with (cursor w + S i)%nat by lia. }
    exists self', w'. split; [now rewrite Hstep|].
    split; [auto|].
    split.
    { repeat split; try assumption.
      - rewrite Hcur. subst w1. simpl. lia.
      - rewrite Hol. subst w1. simpl. now rewrite length_insert. }
    split.
    { intros b q Hb. destruct (Nat.eq_dec b a) as [->|Hba].
      - rewrite Hp in Hb. inversion Hb; subst q.
        destruct (Hobjs a (map_base (base_set_firefighter true) p))
          as (p' & Hp' & Hfl).
        { subst w1. simpl. apply list_lookup_insert_eq. lia. }
        exists p'. split; [exact Hp'|].
        destruct Hfl as [->| ->]; right; [reflexivity | now destruct p].
      - apply Hobjs. subst w1. simpl.
        now rewrite list_lookup_insert_ne by auto. }
    split.
    { intros id. rewrite Hkeys. subst self1. unfold get_firefighters. simpl.
      rewrite dict_keys_set. split.
      - intros [[->|Hold]|(i & Hi & Hsp)].
        + right. exists 0%nat. split; [lia | exact Hpick0].
        + now left.
        + right. exists (S i). split; [lia|]. now rewrite <- Hshift.
      - intros [Hold|(i & Hi & Hsp)]; [auto|].
        destruct i as [|i].
        + rewrite Hpick0 in Hsp. inversion Hsp. auto.
        + right. exists i. split; [lia|]. now rewrite Hshift. }
    split.
    { intros i id b Hi Hsp Hb. destruct i as [|i].
      - rewrite Hpick0 in Hsp. inversion Hsp; subst id.
        rewrite Hget in Hb. inversion Hb; subst b.
        destruct (Hobjs a (map_base (base_set_firefighter true) p))
          as (p' & Hp' & Hfl).
        { subst w1. simpl. apply list_lookup_insert_eq. lia. }
        exists p'. split; [exact Hp'|].
        destruct Hfl as [->| ->]; now destruct p.
      - apply (Hflag i id b); [lia | now rewrite Hshift | exact Hb]. }
    split.
    { intros id f Hf. destruct (Hmen id f Hf) as [Hold|[Hskill Hid]].
      - subst self1. simpl in Hold.
        apply dict_get_set_inv in Hold as [[-> ->]|Hold]; [|now left].
        right. subst fireman. simpl. split; [reflexivity | lia].
      - right. split; [exact Hskill | lia]. }
    subst self1. simpl in Hcount.
    pose proof (dict_set_length_le (firefighters self) pick fireman). lia.
Qed.

(** X11: [Land.spawn_firefighters] on a land with at least one position,
    every position having a patch: it returns after one draw per
    firefighter of the configuration; the patch table, the dictionaries
    and the number of objects are unchanged and an object changes at most
    by its firefighter flag being raised; the firefighter positions
    afterwards are the old ones and the drawn ones; the patch of every
    drawn position is flagged; a new firefighter has the configured skill
    and a number below the configured count; and at most [count] entries
    are added (fewer when a position is drawn twice or was occupied). *)
Theorem spawn_firefighters_places (self : Land) (w : World) :
  positions self <> [] ->
  positions_patched self w ->
  exists self' w',
    spawn_firefighters self w = Ok self' w' /\
    land_patches self' = land_patches self /\
    dicts w' = dicts w /\
    cursor w' = (cursor w + Z.to_nat (fst (firefighters_config (configs self))))%nat /\
    length (objs w') = length (objs w) /\
    (forall a p, objs w !! a = Some p ->
       exists p', objs w' !! a = Some p' /\ flagged p p') /\
    (forall id, In id (get_firefighters self') <->
       In id (get_firefighters self) \/
       exists i, (i < Z.to_nat (fst (firefighters_config (configs self))))%nat /\
                 spawn_pick self w i = Some id) /\
    (forall i id a,
       (i < Z.to_nat (fst (firefighters_config (configs self))))%nat ->
       spawn_pick self w i = Some id ->
       Dict.get (land_patches self) id = Some a ->
       exists p', objs w' !! a = Some p' /\ firefighter (base p') = true) /\
    (forall id f, Dict.get (firefighters self') id = Some f ->
       Dict.get (firefighters self) id = Some f \/
       (avg_skill f = snd (firefighters_config (configs self)) /\
        0 <= firefighter_id f < fst (firefighters_config (configs self)))) /\
    (length (firefighters self')
     <= length (firefighters self)
        + Z.to_nat (fst (firefighters_config (configs self))))%nat.
Proof.
  intros Hne Hpatched. unfold spawn_firefighters.
  destruct (spawn_loop_places
              (Z.to_nat (fst (firefighters_config (configs self)))) 0 self w
              Hne Hpatched)
    as (self' & w' & Hrun & (_ & Hlp & _ & _) & (Hd & _ & Hcur & Hol)
        & Hobjs & Hkeys & Hflag & Hmen & Hcount).
  exists self', w'. repeat (split; [assumption|]).
  split; [|exact Hcount].
  intros id f Hf. destruct (Hmen id f Hf) as [Hold|[Hskill Hid]]; [now left|].
  right. split; [exact Hskill | lia].
Qed.

Lemma spawn_firefighters_places_witness :
  exists self' w',
    spawn_firefighters manned_pair_land pair_world = Ok self' w' /\
    land_patches self' = land_patches manned_pair_land /\
    dicts w' = dicts pair_world /\
    cursor w' = 2%nat.
Proof.
  destruct (spawn_firefighters_places manned_pair_land pair_world)
    as (self' & w' & Hrun & Hlp & Hd & Hcur & _).
  - discriminate.
  - intros id Hid. vm_compute in Hid.
    destruct Hid as [<-|[<-|[]]]; eexists; (split; [reflexivity | vm_compute; lia]).
  - exists self', w'. auto.
Defined.

(** ** The constructor of [Land] *)

(** What [create_landpatches] leaves in the store: a wired table over the
    ids of the positions, the dictionary of every patch naming exactly
    the ids joined to it by an edge. *)
Lemma create_landpatches_graph
    (cfg : Config) (edges : list (Z * Z)) (pos : Dict.t (float * float))
    (w : World) :
  distinct (Dict.keys pos) = true ->
  endpoints_in (Dict.keys pos) edges = true ->
  exists gb w',
    create_landpatches (GraphBuilder_init cfg Dict.empty) edges pos w
      = Ok gb w' /\
    Dict.keys (gb_land_patches gb) = Dict.keys pos /\
    tape w' = tape w /\ cursor w' = cursor w /\
    wired w' (gb_land_patches gb) /\
    forall a ra,
      Dict.get (gb_land_patches gb) a = Some ra ->
      exists p nd,
        objs w' !! ra = Some p /\
        dicts w' !! neighbors (base p) = Some nd /\
        forall b, In b (Dict.keys nd) <-> joined edges a b.
Proof.
  intros Hdist Hends.
  destruct (create_patches_wired cfg pos w Hdist)
    as (gb & w1 & Hrun & Hcfg & Hkeys & Ht1 & Hc1 & Hwired & Hempty).
  assert (Hknown : edges_known (gb_land_patches gb) edges = true)
    by (unfold edges_known; rewrite Hkeys; exact Hends).
  destruct (connect_patches_wired _ _ w1 Hwired Hknown)
    as (w' & Hconn & Hobjs & Ht & Hc & Hwired' & Hdicts).
  exists gb, w'. split.
  { unfold create_landpatches. rewrite (bind_Ok _ _ _ _ _ Hrun).
    now rewrite (bind_Ok _ _ _ _ _ Hconn). }
  split; [exact Hkeys|]. split; [congruence|]. split; [congruence|].
  split; [exact Hwired'|].
  intros a ra Hget. pose proof (dict_get_In _ _ _ Hget) as Hin.
  destruct Hwired as (_ & Hent & _).
  destruct (Hent a ra Hin) as (p & Hp & _ & _).
  exists p, (adjacency (gb_land_patches gb) edges a Dict.empty).
  split; [now rewrite Hobjs|]. split.
  - apply (Hdicts a ra p Dict.empty Hin Hp). now apply (Hempty a ra).
  - intros b. rewrite (adjacency_keys _ _ _ Hknown). simpl. tauto.
Qed.

Lemma joined_endpoints (ids : list Z) (edges : list (Z * Z)) a b :
  endpoints_in ids edges = true -> joined edges a b -> In b ids.
Proof.
  intros Hends Hj. unfold endpoints_in in Hends.
  rewrite forallb_forall in Hends.
  destruct Hj as [Hin|Hin]; apply Hends in Hin;
    apply andb_true_iff in Hin as [H1 H2]; simpl in *;
    now apply list_in_In.
Qed.

Lemma flagged_neighbors p p' :
  flagged p p' -> neighbors (base p') = neighbors (base p).
Proof. intros [->| ->]; [reflexivity | now destruct p]. Qed.

Lemma flagged_kind p p' :
  flagged p p' ->
  isinstance_Treepatch p' = isinstance_Treepatch p /\
  color (base p') = color (base p) /\
  patch_id (base p') = patch_id (base p).
Proof. intros [->| ->]; [auto | now destruct p]. Qed.

Lemma built_patch_colour cfg tree id p d :
  isinstance_Treepatch (built_patch cfg tree id p d) = tree /\
  color (base (built_patch cfg tree id p d))
  = if tree then Some 256 else None.
Proof. now destruct tree. Qed.

(** The store [create_landpatches] ends with: the counters of [fill] are
    the numbers of trees and rocks of the table, every tree has colour
    256 and no rock has a colour. *)
Lemma create_landpatches_census
    (cfg : Config) (edges : list (Z * Z)) (pos : Dict.t (float * float))
    (w : World) gb w1 :
  distinct (Dict.keys pos) = true ->
  endpoints_in (Dict.keys pos) edges = true ->
  create_landpatches (GraphBuilder_init cfg Dict.empty) edges pos w
    = Ok gb w1 ->
  freshly_coloured w1 (gb_land_patches gb) /\
  (count_trees w1 (gb_land_patches gb), count_rocks w1 (gb_land_patches gb))
  = fill (landscape cfg) (length pos) 0 0 0.
Proof.
  intros Hdist Hends Hbuild.
  destruct (create_patches_wired cfg pos w Hdist)
    as (gb0 & w0 & Hrun & _ & Hkeys & _ & _ & Hwired & _).
  assert (Hknown : edges_known (gb_land_patches gb0) edges = true)
    by (unfold edges_known; rewrite Hkeys; exact Hends).
  destruct (connect_patches_wired _ _ w0 Hwired Hknown)
    as (w1' & Hconn & Hobjs & _).
  unfold create_landpatches in Hbuild.
  rewrite (bind_Ok _ _ _ _ _ Hrun), (bind_Ok _ _ _ _ _ Hconn) in Hbuild.
  inversion Hbuild; subst gb0 w1'. clear Hbuild.
  destruct (create_patches_built pos (GraphBuilder_init cfg Dict.empty) w Hdist)
    as (gb' & Hrun' & _ & Htable).
  { intros k _ []. }
  rewrite Hrun in Hrun'. inversion Hrun'; subst gb'. clear Hrun'.
  destruct (create_patches_fill pos (GraphBuilder_init cfg Dict.empty) w Hdist)
    as (gb' & w' & Hrun' & Hfill & Htrees & Hrocks & _).
  { intros k _ []. }
  { constructor. }
  rewrite Hrun in Hrun'. inversion Hrun'; subst gb' w'. clear Hrun'.
  simpl in Hfill, Htrees, Hrocks, Htable.
  change (Dict.len (@Dict.empty ref)) with 0 in *.
  split.
  - intros id a Hin. rewrite Htable in Hin.
    destruct (built_entries_In _ _ _ _ Hin) as (i & p & Hi & ->).
    destruct (built_lookup cfg pos i id p (length (objs w)) 0 0
                (length (dicts w)) Hi) as (_ & tree & Hobj).
    exists (built_patch cfg tree id p (length (dicts w) + i)%nat).
    split.
    + rewrite Hobjs, H1. simpl. rewrite lookup_app_r by lia.
      now replace (length (objs w) + i - length (objs w))%nat with i by lia.
    + destruct (built_patch_colour cfg tree id p (length (dicts w) + i)%nat)
        as [-> ->]. reflexivity.
  - unfold count_trees, count_rocks, is_tree_at, is_rock_at in *.
    rewrite Hobjs. simpl in Htrees, Hrocks. rewrite <- Hfill. f_equal; lia.
Qed.

(** The first two stages of [Land.__init__], when every edge joins two
    positions and the firefighters can be spawned. *)
Lemma Land_init_spawned
    (cfg : Config) (edges : list (Z * Z)) (pos : Dict.t (float * float))
    (firefighters0 : Dict.t Firefighter) (w : World) :
  distinct (Dict.keys pos) = true ->
  endpoints_in (Dict.keys pos) edges = true ->
  spawnable cfg pos = true ->
  exists gb w1 self1 w2,
    create_landpatches (GraphBuilder_init cfg Dict.empty) edges pos w
      = Ok gb w1 /\
    spawn_firefighters (mkLand cfg (gb_land_patches gb) edges pos firefighters0)
      w1 = Ok self1 w2 /\
    (configs self1 = cfg /\ land_patches self1 = gb_land_patches gb /\
     edgelist self1 = edges /\ positions self1 = pos) /\
    Dict.keys (gb_land_patches gb) = Dict.keys pos /\
    graph_closed w2 (gb_land_patches gb) (Dict.keys pos) = true /\
    table_ok w2 (gb_land_patches gb) /\
    freshly_coloured w2 (gb_land_patches gb) /\
    (count_trees w2 (gb_land_patches gb), count_rocks w2 (gb_land_patches gb))
    = fill (landscape cfg) (length pos) 0 0 0.
Proof.
  intros Hdist Hends Hspawnable. unfold spawnable in Hspawnable.
  destruct (create_landpatches_graph cfg edges pos w Hdist Hends)
    as (gb & w1 & Hbuild & Hkeys & _ & _ & Hwired & Hgraph).
  destruct (create_landpatches_census cfg edges pos w gb w1 Hdist Hends Hbuild)
    as [Hfresh Hcensus].
  set (self0 := mkLand cfg (gb_land_patches gb) edges pos firefighters0).
  assert (Hspawn : exists self1 w2,
             spawn_firefighters self0 w1 = Ok self1 w2 /\
             configs self1 = cfg /\ land_patches self1 = gb_land_patches gb /\
             edgelist self1 = edges /\ positions self1 = pos /\
             dicts w2 = dicts w1 /\
             forall a p, objs w1 !! a = Some p ->
               exists p', objs w2 !! a = Some p' /\ flagged p p').
  { destruct (Nat.eq_dec (length pos) 0%nat) as [Hlen|Hlen].
    - rewrite Hlen in Hspawnable. simpl in Hspawnable.
      apply Z.leb_le in Hspawnable.
      exists self0, w1. unfold spawn_firefighters.
      replace (Z.to_nat (fst (firefighters_config (configs self0)))) with 0%nat
        by (subst self0; simpl; lia).
      split; [reflexivity|]. repeat (split; [reflexivity|]).
      intros a p Ha. exists p. split; [exact Ha | apply flagged_refl].
    - destruct (spawn_loop_places
                  (Z.to_nat (fst (firefighters_config (configs self0)))) 0
                  self0 w1)
        as (self1 & w2 & Hrun & (Hc & Hlp & He & Hp) & (Hd & _) & Hobjs & _).
      + subst self0. simpl. intros Hnil. now rewrite Hnil in Hlen.
      + intros id Hid. subst self0. simpl in *. rewrite <- Hkeys in Hid.
        apply dict_keys_get in Hid as [a Ha]. exists a. split; [exact Ha|].
        destruct Hwired as (_ & Hent & _).
        destruct (Hent id a (dict_get_In _ _ _ Ha)) as (p & Hpa & _).
        eapply lookup_lt_Some, Hpa.
      + exists self1, w2. split; [exact Hrun|]. repeat split; assumption. }
  destruct Hspawn as (self1 & w2 & Hrun & Hc & Hlp & He & Hp & Hd & Hobjs).
  exists gb, w1, self1, w2.
  split; [exact Hbuild|]. split; [exact Hrun|]. split; [auto|].
  split; [exact Hkeys|]. split; [|split; [|split]].
  - unfold graph_closed. apply forallb_forall. intros e He'.
    rewrite <- Hkeys in He'. apply dict_keys_get in He' as [a Ha].
    cbv beta. rewrite Ha.
    destruct (Hgraph e a Ha) as (p & nd & Hpa & Hnd & Hnames).
    destruct (Hobjs a p Hpa) as (p' & Hp' & Hfl).
    unfold ref in *. rewrite Hp'.
    rewrite (flagged_neighbors _ _ Hfl), Hd. unfold dref in *. rewrite Hnd.
    apply forallb_forall. intros n Hn. apply list_in_In.
    apply (joined_endpoints _ edges e n Hends). now apply Hnames.
  - destruct Hwired as (Hd' & Hent & _). split; [exact Hd'|].
    intros id a Hin. destruct (Hent id a Hin) as (p & Hpa & Hid & _).
    destruct (Hobjs a p Hpa) as (p' & Hp' & Hfl). exists p'.
    split; [exact Hp'|]. destruct (flagged_kind _ _ Hfl) as (_ & _ & ->).
    exact Hid.
  - intros id a Hin. destruct (Hfresh id a Hin) as (p & Hpa & Hcol).
    destruct (Hobjs a p Hpa) as (p' & Hp' & Hfl). exists p'.
    split; [exact Hp'|]. destruct (flagged_kind _ _ Hfl) as (-> & -> & _).
    exact Hcol.
  - rewrite <- Hcensus. unfold count_trees, count_rocks.
    assert (Hsame : Forall (fun a => is_tree_at w2 a = is_tree_at w1 a /\
                                     is_rock_at w2 a = is_rock_at w1 a)
                           (Dict.values (gb_land_patches gb))).
    { apply Forall_forall. intros a Ha. apply list_elem_of_In in Ha.
      apply in_map_iff in Ha as ([id a'] & <- & Hin). simpl.
      destruct (Hfresh id a' Hin) as (p & Hpa & _).
      destruct (Hobjs a' p Hpa) as (p' & Hp' & Hfl).
      destruct (flagged_kind _ _ Hfl) as (Hk & _ & _).
      unfold is_tree_at, is_rock_at, ref in *. rewrite Hp', Hpa.
      destruct p, p'; simpl in Hk; try discriminate; auto. }
    f_equal; apply count_where_ext; eapply Forall_impl; try exact Hsame;
      intros a [H1 H2]; assumption.
Qed.

(** X12: the outcome of [Land.__init__] on positions with pairwise
    distinct ids, started with an empty patch table, for every bound on
    the loops above some number: [KeyError] when an edge has an end that
    is no position; otherwise [IndexError] when firefighters are to be
    spawned on a land without positions; otherwise [ValueError] when the
    planarity test rejects the edges; otherwise the land is returned,
    with one patch per position.  The [RuntimeError] of the connectivity
    check is never raised, whether the graph is connected or not. *)
Theorem Land_init_outcome
    (edges_planar : list (Z * Z) -> bool) (cfg : Config)
    (edges : list (Z * Z)) (pos : Dict.t (float * float))
    (firefighters0 : Dict.t Firefighter) (w : World) :
  distinct (Dict.keys pos) = true ->
  exists fuel0, forall fuel, (fuel0 <= fuel)%nat ->
    let r := Land_init edges_planar fuel cfg Dict.empty edges pos
               firefighters0 w in
    let known := endpoints_in (Dict.keys pos) edges in
    (known = false -> r = Raise KeyError) /\
    (known = true -> spawnable cfg pos = false -> r = Raise IndexError) /\
    (known = true -> spawnable cfg pos = true -> edges_planar edges = false ->
     r = Raise ValueError) /\
    (known = true -> spawnable cfg pos = true -> edges_planar edges = true ->
     exists self w',
       r = Ok self w' /\
       configs self = cfg /\ edgelist self = edges /\ positions self = pos /\
       Dict.keys (land_patches self) = Dict.keys pos).
Proof.
  intros Hdist.
  destruct (endpoints_in (Dict.keys pos) edges) eqn:Hends.
  2:{ exists 0%nat. intros fuel _. cbv zeta.
      split; [|repeat split; intros; discriminate].
      intros _.
      destruct (create_patches_wired cfg pos w Hdist)
        as (gb & w1 & Hrun & _ & Hkeys & _ & _ & Hwired & _).
      assert (Hknown : edges_known (gb_land_patches gb) edges = false)
        by (unfold edges_known; rewrite Hkeys; exact Hends).
      unfold Land_init, create_landpatches, bind. rewrite Hrun.
      now rewrite (connect_patches_unknown_end _ _ _ Hwired Hknown). }
  destruct (spawnable cfg pos) eqn:Hspawnable.
  2:{ exists 0%nat. intros fuel _. cbv zeta.
      split; [intros; discriminate|]. split; [|split; intros; discriminate].
      intros _ _.
      destruct (create_landpatches_graph cfg edges pos w Hdist Hends)
        as (gb & w1 & Hbuild & _).
      unfold Land_init. rewrite (bind_Ok _ _ _ _ _ Hbuild).
      apply orb_false_iff in Hspawnable as [Hlen Hcount].
      apply negb_false_iff, Nat.eqb_eq in Hlen. apply Z.leb_gt in Hcount.
      destruct pos; [|discriminate]. unfold bind, spawn_firefighters.
      cbn [configs].
      destruct (Z.to_nat (fst (firefighters_config cfg))) eqn:Hn; [lia|].
      reflexivity. }
  destruct (Land_init_spawned cfg edges pos firefighters0 w Hdist Hends
              Hspawnable)
    as (gb & w1 & self1 & w2 & Hbuild & Hrun & (Hc & Hlp & He & Hp) & Hkeys
        & Hclosed & _).
  exists (validate_fuel w2 (length pos)). intros fuel Hfuel. cbv zeta.
  split; [intros; discriminate|]. split; [intros; discriminate|].
  split.
  - intros _ _ Hplanar. unfold Land_init.
    rewrite (bind_Ok _ _ _ _ _ Hbuild), (bind_Ok _ _ _ _ _ Hrun).
    now rewrite He, Hplanar.
  - intros _ _ Hplanar. exists self1, w2.
    split; [|repeat split; try assumption; now rewrite Hlp].
    unfold Land_init.
    rewrite (bind_Ok _ _ _ _ _ Hbuild), (bind_Ok _ _ _ _ _ Hrun).
    rewrite He, Hplanar. simpl. rewrite Hp, Hlp.
    now rewrite (bind_Ok _ _ _ _ _
                   (validate_graph_always_true w2 (gb_land_patches gb) pos fuel
                      Hdist Hclosed Hfuel)).
Qed.

Lemma Land_init_outcome_witness :
  exists fuel0, forall fuel, (fuel0 <= fuel)%nat ->
    exists self w',
      Land_init planar_ok fuel config_default Dict.empty two_component_edges
        four_positions Dict.empty (empty_world (fun _ => O)) = Ok self w' /\
      Dict.keys (land_patches self) = [1; 2; 3; 4].
Proof.
  destruct (Land_init_outcome planar_ok config_default two_component_edges
              four_positions Dict.empty (empty_world (fun _ => O)))
    as [fuel0 Hout].
  - reflexivity.
  - exists fuel0. intros fuel Hfuel.
    destruct (Hout fuel Hfuel) as (_ & _ & _ & Hok).
    destruct Hok as (self & w' & Hrun & _ & _ & _ & Hkeys);
      [reflexivity | reflexivity | reflexivity |].
    exists self, w'. split; [exact Hrun | exact Hkeys].
Defined.

(** ** Colour maps and the population report *)

Lemma coloured_keys_table w (table : Dict.t ref) k :
  In k (Dict.keys (coloured w table)) -> In k (Dict.keys table).
Proof.
  induction table as [|[id a] rest IH]; simpl; [auto|].
  unfold coloured in *. simpl. destruct (colour_at w a); simpl; intuition.
Qed.

Lemma uncoloured_keys_table w (table : Dict.t ref) k :
  In k (Dict.keys (uncoloured w table)) -> In k (Dict.keys table).
Proof.
  induction table as [|[id a] rest IH]; simpl; [auto|].
  unfold uncoloured in *. simpl. destruct (colour_at w a); simpl; intuition.
Qed.

(** The loop of [get_colour_maps] over a sound table appends to the two
    maps, in the order of the table. *)
Lemma colour_loop_appends w (table : Dict.t ref) :
  table_ok w table ->
  forall cm ncm,
    (forall k, In k (Dict.keys table) -> ~ In k (Dict.keys cm)) ->
    (forall k, In k (Dict.keys table) -> ~ In k (Dict.keys ncm)) ->
    colour_loop (Dict.values table) cm ncm w
    = Ok (cm ++ coloured w table, ncm ++ uncoloured w table) w.
Proof.
  induction table as [|[id a] rest IH]; intros [Hdist Hent] cm ncm Hcm Hncm.
  - simpl. unfold ret. now rewrite !app_nil_r.
  - simpl in Hdist. apply andb_true_iff in Hdist as [Hfresh Hdist].
    apply negb_true_iff in Hfresh.
    assert (Hnotin : ~ In id (Dict.keys rest)).
    { intros Hin. apply list_in_In in Hin. congruence. }
    destruct (Hent id a (or_introl eq_refl)) as (p & Hp & Hid).
    assert (Hok : table_ok w rest).
    { split; [exact Hdist|]. intros id' a' Hin. apply Hent. now right. }
    cbn [Dict.values map snd colour_loop].
    rewrite (bind_Ok _ _ _ _ _ (deref_Some _ _ _ Hp)). rewrite Hid.
    unfold coloured, uncoloured. cbn [flat_map fst snd].
    unfold colour_at at 1 3. rewrite Hp.
    destruct (color (base p)) as [c|].
    + rewrite (dict_set_fresh cm id c)
        by (apply Hcm; now left).
      fold (Dict.values rest). rewrite (IH Hok).
      * now rewrite <- app_assoc.
      * intros k Hk. unfold Dict.keys. rewrite map_app, in_app_iff. simpl.
        intros [H|[<-|[]]]; [|contradiction]. apply (Hcm k); [now right | exact H].
      * intros k Hk. apply Hncm. now right.
    + rewrite (dict_set_fresh ncm id tt)
        by (apply Hncm; now left).
      fold (Dict.values rest). rewrite (IH Hok).
      * now rewrite <- app_assoc.
      * intros k Hk. apply Hcm. now right.
      * intros k Hk. unfold Dict.keys. rewrite map_app, in_app_iff. simpl.
        intros [H|[<-|[]]]; [|contradiction]. apply (Hncm k); [now right | exact H].
Qed.

Lemma dict_get_notin {V} (d : Dict.t V) k :
  ~ In k (Dict.keys d) -> Dict.get d k = None.
Proof.
  intros Hnot. destruct (Dict.get d k) eqn:E; [|reflexivity].
  exfalso. apply Hnot. eapply dict_get_Some_keys, E.
Qed.

Lemma coloured_get w (table : Dict.t ref) id a :
  distinct (Dict.keys table) = true ->
  Dict.get table id = Some a ->
  Dict.get (coloured w table) id = colour_at w a /\
  Dict.get (uncoloured w table) id
  = match colour_at w a with Some _ => None | None => Some tt end.
Proof.
  induction table as [|[id0 a0] rest IH]; intros Hdist Hget; [discriminate|].
  simpl in Hdist. apply andb_true_iff in Hdist as [Hfresh Hdist].
  apply negb_true_iff in Hfresh.
  assert (Hnotin : ~ In id0 (Dict.keys rest)).
  { intros Hin. apply list_in_In in Hin. congruence. }
  unfold coloured, uncoloured. cbn [flat_map fst snd].
  fold (coloured w rest). fold (uncoloured w rest).
  simpl in Hget. destruct (Z.eqb_spec id0 id) as [->|Hne].
  - inversion Hget; subst a0.
    destruct (colour_at w a) as [c|]; simpl; rewrite Z.eqb_refl.
    + split; [reflexivity|]. apply dict_get_notin.
      intros Hin. now apply uncoloured_keys_table in Hin.
    + split; [|reflexivity]. apply dict_get_notin.
      intros Hin. now apply coloured_keys_table in Hin.
  - destruct (IH Hdist Hget) as [Hc Hu].
    destruct (colour_at w a0) as [c0|]; simpl;
      rewrite ?(proj2 (Z.eqb_neq id0 id) Hne); now split.
Qed.

Lemma coloured_length w (table : Dict.t ref) :
  (length (coloured w table) + length (uncoloured w table) = length table)%nat.
Proof.
  induction table as [|[id a] rest IH]; [reflexivity|].
  unfold coloured, uncoloured in *. cbn [flat_map fst snd].
  destruct (colour_at w a); simpl; lia.
Qed.

(** X13: on a table with pairwise distinct keys whose patches carry their
    key as id, [Land.get_colour_maps] returns, without any change to the
    store, the ids of the patches that have a colour with that colour and
    the ids of the patches whose colour is [None], both in the order of
    the table.  Every patch of the table is in exactly one of the two
    maps, so their sizes add up to the size of the table. *)
Theorem get_colour_maps_partition (self : Land) (w : World) :
  table_ok w (land_patches self) ->
  get_colour_maps self w
  = Ok (coloured w (land_patches self), uncoloured w (land_patches self)) w /\
  (forall id a,
     Dict.get (land_patches self) id = Some a ->
     match colour_at w a with
     | Some c =>
         Dict.get (coloured w (land_patches self)) id = Some c /\
         Dict.get (uncoloured w (land_patches self)) id = None
     | None =>
         Dict.get (coloured w (land_patches self)) id = None /\
         Dict.get (uncoloured w (land_patches self)) id = Some tt
     end) /\
  (length (coloured w (land_patches self))
   + length (uncoloured w (land_patches self))
   = length (land_patches self))%nat.
Proof.
  intros Hok. split; [|split].
  - unfold get_colour_maps.
    now rewrite (colour_loop_appends w _ Hok Dict.empty Dict.empty).
  - intros id a Hget. destruct Hok as [Hdist _].
    destruct (coloured_get w _ id a Hdist Hget) as [Hc Hu].
    destruct (colour_at w a); now split.
  - apply coloured_length.
Qed.

Lemma get_colour_maps_partition_witness :
  get_colour_maps pair_land pair_world = Ok ([(1, 256)], [(2, tt)]) pair_world.
Proof.
  destruct (get_colour_maps_partition pair_land pair_world) as (Hrun & _).
  - split; [reflexivity|]. intros id a Hin. simpl in Hin.
    destruct Hin as [Hin|[Hin|[]]]; inversion Hin; subst;
      eexists; split; reflexivity.
  - exact Hrun.
Defined.

(** In a store where every tree of the table has colour 256 and no rock
    has a colour, the sizes the report is computed from are the numbers
    of trees and of rocks. *)
Lemma census_counts w (table : Dict.t ref) :
  freshly_coloured w table ->
  Dict.len (coloured w table) = count_trees w table /\
  list_count 256 (Dict.values (coloured w table)) = count_trees w table /\
  Z.of_nat (length (Dict.values (uncoloured w table))) = count_rocks w table.
Proof.
  unfold Dict.len, list_count, count_trees, count_rocks, Dict.values.
  induction table as [|[id a] rest IH]; intros Hfresh; [now simpl|].
  destruct IH as (IH1 & IH2 & IH3).
  { intros id' a' Hin. apply (Hfresh id' a'). now right. }
  destruct (Hfresh id a (or_introl eq_refl)) as (p & Hp & Hcol).
  change (coloured w ((id, a) :: rest))
    with ((match colour_at w a with Some c => [(id, c)] | None => [] end)
            ++ coloured w rest).
  change (uncoloured w ((id, a) :: rest))
    with ((match colour_at w a with Some _ => [] | None => [(id, tt)] end)
            ++ uncoloured w rest).
  assert (Hc : colour_at w a = color (base p))
    by (unfold colour_at; now rewrite Hp).
  assert (Ht : is_tree_at w a = isinstance_Treepatch p)
    by (unfold is_tree_at; rewrite Hp; now destruct p).
  assert (Hr : is_rock_at w a = negb (isinstance_Treepatch p))
    by (unfold is_rock_at; rewrite Hp; now destruct p).
  rewrite Hc, Hcol. cbn [map snd count_where]. rewrite Ht, Hr.
  destruct p; cbn [isinstance_Treepatch negb app map snd List.filter length].
  - change (256 =? 256) with true. cbn [length]. lia.
  - lia.
Qed.

(** X14: on a land that [Land.__init__] has just returned when it was
    called with an empty patch table, as the first land of a process is
    (positions with pairwise distinct ids, edges between positions,
    firefighters spawnable, planarity test passed), the colour maps give
    the report [(trees, rocks, wildfires)] with [trees] and [rocks] the
    two counters of the greedy fill started at 0 and [wildfires = - rocks]:
    the number of rocks is subtracted from a count that never included
    them. *)
Theorem fresh_land_population
    (edges_planar : list (Z * Z) -> bool) (cfg : Config)
    (edges : list (Z * Z)) (pos : Dict.t (float * float))
    (firefighters0 : Dict.t Firefighter) (w : World) :
  distinct (Dict.keys pos) = true ->
  endpoints_in (Dict.keys pos) edges = true ->
  spawnable cfg pos = true ->
  edges_planar edges = true ->
  exists fuel0, forall fuel, (fuel0 <= fuel)%nat ->
    exists self w' maps,
      Land_init edges_planar fuel cfg Dict.empty edges pos firefighters0 w
        = Ok self w' /\
      get_colour_maps self w' = Ok maps w' /\
      population maps
      = (let '(trees, rocks) := fill (landscape cfg) (length pos) 0 0 0 in
         (trees, rocks, - rocks)).
Proof.
  intros Hdist Hends Hspawnable Hplanar.
  destruct (Land_init_spawned cfg edges pos firefighters0 w Hdist Hends
              Hspawnable)
    as (gb & w1 & self1 & w2 & Hbuild & Hrun & (Hc & Hlp & He & Hp) & Hkeys
        & Hclosed & Hok & Hfresh & Hcensus).
  exists (validate_fuel w2 (length pos)). intros fuel Hfuel.
  exists self1, w2,
    (coloured w2 (land_patches self1), uncoloured w2 (land_patches self1)).
  split; [|split].
  - unfold Land_init.
    rewrite (bind_Ok _ _ _ _ _ Hbuild), (bind_Ok _ _ _ _ _ Hrun).
    rewrite He, Hplanar. simpl. rewrite Hp, Hlp.
    now rewrite (bind_Ok _ _ _ _ _
                   (validate_graph_always_true w2 (gb_land_patches gb) pos fuel
                      Hdist Hclosed Hfuel)).
  - unfold get_colour_maps. rewrite Hlp.
    now rewrite (colour_loop_appends w2 _ Hok Dict.empty Dict.empty).
  - rewrite Hlp. rewrite <- Hcensus.
    destruct (census_counts w2 (gb_land_patches gb) Hfresh) as (H1 & H2 & H3).
    unfold population. rewrite H1, H2, H3. f_equal. lia.
Qed.

Lemma fresh_land_population_witness :
  exists fuel0, forall fuel, (fuel0 <= fuel)%nat ->
    exists self w' maps,
      Land_init planar_ok fuel config_default Dict.empty cycle_edges
        four_positions Dict.empty (empty_world (fun _ => O)) = Ok self w' /\
      get_colour_maps self w' = Ok maps w' /\
      population maps = (3, 1, -1).
Proof.
  destruct (fresh_land_population planar_ok config_default cycle_edges
              four_positions Dict.empty (empty_world (fun _ => O)))
    as [fuel0 Hout]; try reflexivity.
  exists fuel0. intros fuel Hfuel.
  destruct (Hout fuel Hfuel) as (self & w' & maps & Hrun & Hmaps & Hpop).
  exists self, w', maps. split; [exact Hrun|]. split; [exact Hmaps|].
  exact Hpop.
Defined.

(** ** Steps of the simulation without firefighters *)

(** The third loop of [Land.update] in a calm store keeps the store calm,
    closed and sound for the table, keeps the ids of the table, and keeps
    every unlit tree. *)
Lemma update_patches_steady (size : nat) :
  forall (todo i : nat) (self : Land) (w : World),
    (i + todo = size)%nat ->
    length (land_patches self) = size ->
    steady w (land_patches self) ->
    returns (update_patches todo i size self) w
      (fun self' w' =>
         firefighters self' = firefighters self /\
         Dict.keys (land_patches self') = Dict.keys (land_patches self) /\
         steady w' (land_patches self') /\
         forall id a,
           Dict.get (land_patches self) id = Some a -> unlit_tree_at w a ->
           Dict.get (land_patches self') id = Some a /\ unlit_tree_at w' a).
Proof.
  induction todo as [|todo IH]; intros i self w Hi Hsize Hsteady.
  - simpl. rewrite Hsize, Nat.eqb_refl. simpl. apply returns_ret. auto.
  - simpl. rewrite Hsize, Nat.eqb_refl. simpl.
    pose proof Hsteady as (Hclosed & Hcalm & Htable).
    destruct (lookup_lt_is_Some_2 (Dict.values (land_patches self)) i)
      as [a Hai].
    { unfold Dict.values. rewrite length_map. lia. }
    destruct (dict_values_lookup _ _ _ Hai) as [id0 Hentry].
    assert (Hin : In (id0, a) (land_patches self)).
    { apply list_elem_of_In, list_elem_of_lookup. eauto. }
    destruct Htable as [Hdist Hent].
    destruct (Hent id0 a Hin) as (p & Ha & Hpid).
    assert (Hkey : In id0 (Dict.keys (land_patches self)))
      by (apply (in_map fst _ _ Hin)).
    apply returns_bind. exists a, w. split; [now rewrite Hai|].
    apply returns_bind. exists p, w. split; [now apply deref_Some|].
    apply returns_bind.
    assert (Hfire : returns
              (if isinstance_Treepatch p
               then update_fire_transmition self a else ret tt) w
              (fun _ w' => exists k, w' = advance k w)).
    { destruct (isinstance_Treepatch p).
      - now apply (update_fire_transmition_only_draws self a p).
      - apply returns_ret. exists O. now rewrite advance_0. }
    eapply returns_weaken; [|exact Hfire]. intros _ w1 [k ->].
    apply returns_bind.
    assert (Hsteady1 : steady (advance k w) (land_patches self))
      by exact Hsteady.
    eapply returns_weaken;
      [|apply (Landpatch_update_steady _ _ a p Hsteady1 Ha)].
    intros res w2 (Hsteady2 & Hunlit2 & Hres & p2 & Ha2 & Hpid2).
    destruct res.
    + apply returns_bind.
      eapply returns_weaken;
        [|apply (mutate_landpatch_steady self w2 a p2 Hsteady2 Ha2);
          rewrite Hpid2, Hpid; exact Hkey].
      intros self3 w3 (-> & Hsteady3 & Hunlit3).
      eapply returns_weaken; [|apply (IH (S i))]; try assumption; try lia.
      * simpl. intros self' w' (Hff & Hkeys & Hst & Hpost).
        split; [exact Hff|]. split.
        { rewrite Hkeys. apply dict_keys_set_in.
          now rewrite Hpid2, Hpid. }
        split; [exact Hst|].
        intros id b Hget Hb.
        assert (Hb2 : unlit_tree_at w2 b) by now apply Hunlit2.
        assert (Hne : patch_id (base p2) <> id).
        { intros <-. rewrite Hpid2, Hpid in Hget.
          rewrite (dict_In_get _ _ _ Hdist Hin) in Hget.
          inversion Hget; subst. now apply Hres. }
        apply Hpost; [|now apply Hunlit3].
        now rewrite dict_get_set_ne.
      * simpl. rewrite dict_set_length_in; [assumption|].
        now rewrite Hpid2, Hpid.
    + apply returns_bind. apply returns_ret.
      eapply returns_weaken; [|apply (IH (S i))]; try assumption; try lia.
      simpl. intros self' w' (Hff & Hkeys & Hst & Hpost).
      repeat (split; [assumption|]).
      intros id b Hget Hb. apply Hpost; auto.
Qed.

(** X15: with no firefighter on the land and no tree able to ignite by
    itself, any number of consecutive [Land.update] calls returns; the
    store stays closed, calm and sound for the table, the table keeps its
    ids, and every patch that was an unlit tree at the start is still the
    same object, unlit, at the end: a fire never reaches another tree,
    whatever the graph, the transmission probability and the draws. *)
Theorem simulation_never_spreads (fuel n : nat) :
  forall (self : Land) (w : World),
    firefighters self = Dict.empty ->
    steady w (land_patches self) ->
    returns (Land_updates fuel n self) w
      (fun self' w' =>
         Dict.keys (land_patches self') = Dict.keys (land_patches self) /\
         steady w' (land_patches self') /\
         forall id a,
           Dict.get (land_patches self) id = Some a -> unlit_tree_at w a ->
           Dict.get (land_patches self') id = Some a /\ unlit_tree_at w' a).
Proof.
  induction n as [|n IH]; intros self w Hnone Hsteady.
  - apply returns_ret. auto.
  - cbn [Land_updates]. apply returns_bind.
    assert (Hstep : returns (Land_update fuel self) w
              (fun self' w' =>
                 firefighters self' = firefighters self /\
                 Dict.keys (land_patches self') = Dict.keys (land_patches self) /\
                 steady w' (land_patches self') /\
                 forall id a,
                   Dict.get (land_patches self) id = Some a ->
                   unlit_tree_at w a ->
                   Dict.get (land_patches self') id = Some a /\
                   unlit_tree_at w' a)).
    { unfold Land_update. rewrite Hnone. simpl.
      apply returns_bind. apply returns_ret. simpl.
      apply returns_bind. apply returns_ret.
      eapply returns_weaken;
        [|apply (update_patches_steady _ _ 0%nat self w); auto].
      simpl. intros self' w' (Hff & Hrest). split; [|exact Hrest].
      now rewrite Hff. }
    eapply returns_weaken; [|exact Hstep].
    intros self1 w1 (Hff & Hkeys & Hst & Hkeep).
    eapply returns_weaken; [|apply IH; [congruence | exact Hst]].
    simpl. intros self' w' (Hkeys' & Hst' & Hkeep').
    split; [congruence|]. split; [exact Hst'|].
    intros id a Hget Hunlit.
    destruct (Hkeep id a Hget Hunlit) as [Hget1 Hunlit1].
    now apply Hkeep'.
Qed.

Lemma simulation_never_spreads_witness :
  returns (Land_updates 0 3 ring_land) (ring_world (fun _ => O))
    (fun self' w' =>
       Dict.get (land_patches self') 2 = Some 1%nat /\ unlit_tree_at w' 1%nat).
Proof.
  eapply returns_weaken;
    [|apply (simulation_never_spreads 0 3 ring_land (ring_world (fun _ => O)));
      [reflexivity | apply ring_world_steady]].
  simpl. intros self' w' (_ & _ & Hkeep). apply (Hkeep 2 1%nat).
  - reflexivity.
  - eexists. split; reflexivity.
Defined.

(** ** Random destinations of a firefighter *)

Lemma choice_advance (ids : list Z) (d : Z) w j :
  move_pick ids w j = Some d ->
  choice ids (advance j w) = Ok d (advance (S j) w).
Proof.
  intros Hpick. rewrite (choice_Ok ids d (advance j w)).
  - rewrite advance_advance. now rewrite Nat.add_1_r.
  - exact Hpick.
Qed.

Lemma choice_nonempty {A} (xs : list A) w :
  xs <> [] -> exists x, choice xs w = Ok x (advance 1 w) /\ In x xs.
Proof.
  intros Hne.
  destruct (lookup_lt_is_Some_2 xs (tape w (cursor w) mod length xs)%nat)
    as [x Hx].
  { apply Nat.mod_upper_bound. destruct xs; [contradiction | simpl; lia]. }
  exists x. split; [now apply choice_Ok|].
  apply list_elem_of_In, list_elem_of_lookup. eauto.
Qed.

(** The [while] loop of [move]: the draws are repeated until one picks a
    free id. *)
Lemma move_retry_picks (lp : ref) (q : Landpatch) (nd : Dict.t ref)
    (occupied : list Z) (w : World) (d : Z) :
  objs w !! lp = Some q ->
  dicts w !! neighbors (base q) = Some nd ->
  forall (k fuel j : nat) (d0 : Z),
    (k <= fuel)%nat ->
    move_pick (Dict.keys nd) w j = Some d0 ->
    (forall i, (j <= i < j + k)%nat ->
       exists x, move_pick (Dict.keys nd) w i = Some x /\ In x occupied) ->
    move_pick (Dict.keys nd) w (j + k) = Some d ->
    ~ In d occupied ->
    move_retry fuel lp occupied d0 (advance (S j) w)
    = Ok d (advance (S (j + k)) w).
Proof.
  intros Hq Hnd. induction k as [|k IH]; intros fuel j d0 Hfuel Hd0 Hocc Hd Hfree.
  - rewrite Nat.add_0_r in *. rewrite Hd0 in Hd. inversion Hd; subst d0.
    assert (Hnot : list_in d occupied = false).
    { destruct (list_in d occupied) eqn:E; [|reflexivity].
      apply list_in_In in E. contradiction. }
    destruct fuel; simpl; now rewrite Hnot.
  - destruct fuel as [|fuel]; [lia|].
    destruct (Hocc j ltac:(lia)) as (x & Hx & Hin).
    rewrite Hd0 in Hx. inversion Hx; subst x.
    apply list_in_In in Hin. cbn [move_retry]. rewrite Hin.
    assert (Hq' : objs (advance (S j) w) !! lp = Some q) by exact Hq.
    assert (Hnd' : dicts (advance (S j) w) !! neighbors (base q) = Some nd)
      by exact Hnd.
    rewrite (bind_Ok _ _ _ _ _ (get_neighbors_id_Ok _ _ _ _ Hq' Hnd')).
    destruct (move_pick (Dict.keys nd) w (S j)) as [d1|] eqn:Hnext.
    + rewrite (bind_Ok _ _ _ _ _ (choice_advance _ _ _ _ Hnext)).
      replace (S (j + S k)) with (S (S j + k)) by lia.
      apply (IH fuel (S j) d1); [lia | exact Hnext | | | exact Hfree].
      * intros i Hi. apply Hocc. lia.
      * now replace (S j + k)%nat with (j + S k)%nat by lia.
    + exfalso. destruct k as [|k].
      * replace (j + 1)%nat with (S j) in Hd by lia. congruence.
      * destruct (Hocc (S j) ltac:(lia)) as (x & Hx' & _). congruence.
Qed.

(** The [while] loop of [move] when every id it can draw is occupied: it
    is still running after any number of iterations. *)
Lemma move_retry_stuck (lp : ref) (q : Landpatch) (nd : Dict.t ref)
    (occupied : list Z) (w : World) :
  objs w !! lp = Some q ->
  dicts w !! neighbors (base q) = Some nd ->
  nd <> [] ->
  (forall i, In i (Dict.keys nd) -> In i occupied) ->
  forall (fuel k : nat) (d0 : Z),
    In d0 occupied ->
    move_retry fuel lp occupied d0 (advance k w) = Raise OutOfFuel.
Proof.
  intros Hq Hnd Hne Hall. induction fuel as [|fuel IH]; intros k d0 Hd0;
    apply list_in_In in Hd0; cbn [move_retry]; rewrite Hd0; [reflexivity|].
  assert (Hq' : objs (advance k w) !! lp = Some q) by exact Hq.
  assert (Hnd' : dicts (advance k w) !! neighbors (base q) = Some nd)
    by exact Hnd.
  rewrite (bind_Ok _ _ _ _ _ (get_neighbors_id_Ok _ _ _ _ Hq' Hnd')).
  destruct (choice_nonempty (Dict.keys nd) (advance k w)) as (x & Hx & Hin).
  { destruct nd; [contradiction | discriminate]. }
  rewrite (bind_Ok _ _ _ _ _ Hx), advance_advance.
  apply IH. now apply Hall.
Qed.

(** X16: [Firefighter.move] when no neighbour of the patch is a lit tree
    on a free patch.  The destination is drawn among the neighbour ids of
    the last neighbour of the patch (of the patch itself when it has no
    neighbour), again and again while the id drawn is occupied: when the
    first [k] draws pick occupied ids and the next one picks a free id
    [d], [move] returns [d] after [k + 1] draws, leaving every object and
    dictionary as it was. *)
Theorem Firefighter_move_first_free
    (fuel : nat) (f : Firefighter) (here : ref) (p q : Landpatch)
    (nd nd' : Dict.t ref) (occupied : list Z) (w : World) (k : nat) (d : Z) :
  objs w !! here = Some p ->
  dicts w !! neighbors (base p) = Some nd ->
  Forall (fun b => is_Some (objs w !! b)) (Dict.values nd) ->
  List.find (burning_free w occupied) (Dict.values nd) = None ->
  objs w !! List.last (Dict.values nd) here = Some q ->
  dicts w !! neighbors (base q) = Some nd' ->
  (forall i, (i < k)%nat ->
     exists x, move_pick (Dict.keys nd') w i = Some x /\ In x occupied) ->
  move_pick (Dict.keys nd') w k = Some d ->
  ~ In d occupied ->
  (k <= fuel)%nat ->
  Firefighter_move fuel f here occupied w = Ok d (advance (S k) w).
Proof.
  intros Hp Hnd Hvalid Hfind Hq Hnd' Hocc Hd Hfree Hfuel.
  rewrite (Firefighter_move_random fuel f here p nd occupied w Hp Hnd Hvalid
             Hfind).
  rewrite (bind_Ok _ _ _ _ _ (get_neighbors_id_Ok _ _ _ _ Hq Hnd')).
  assert (Hfirst : exists d0, move_pick (Dict.keys nd') w 0 = Some d0).
  { destruct k as [|k]; [eauto|].
    destruct (Hocc 0%nat ltac:(lia)) as (x & Hx & _). eauto. }
  destruct Hfirst as [d0 Hd0].
  pose proof (choice_advance _ _ w 0 Hd0) as Hchoice.
  rewrite advance_0 in Hchoice. rewrite (bind_Ok _ _ _ _ _ Hchoice).
  apply (move_retry_picks _ q nd' occupied w d Hq Hnd' k fuel 0%nat d0);
    auto.
  intros i Hi. apply Hocc. lia.
Qed.

Lemma Firefighter_move_first_free_witness :
  Firefighter_move 0 (mkFirefighter 0 50) 0%nat [] pair_world
  = Ok 1 (advance 1 pair_world).
Proof.
  apply (Firefighter_move_first_free 0 (mkFirefighter 0 50) 0%nat
           (IsTree (TreepatchM.init 1 0%nat false 1%float))
           (IsRock (RockpatchM.init 2 1%nat 10%float))
           [(2, 1%nat)] [(1, 0%nat)] [] pair_world 0 1).
  - reflexivity.
  - reflexivity.
  - repeat constructor; eexists; reflexivity.
  - reflexivity.
  - reflexivity.
  - reflexivity.
  - intros i Hi. lia.
  - reflexivity.
  - intros [].
  - lia.
Defined.

(** X17: [Firefighter.move] when no neighbour of the patch is a lit tree
    on a free patch and the patch the destination is drawn from (the last
    neighbour) has no free neighbour id.  If it has no neighbour id at
    all, [random.choice] raises [IndexError]; if it has some and all of
    them are occupied, the [while] loop never ends: for every bound on
    its iterations the run is cut off. *)
Theorem Firefighter_move_no_destination
    (fuel : nat) (f : Firefighter) (here : ref) (p q : Landpatch)
    (nd nd' : Dict.t ref) (occupied : list Z) (w : World) :
  objs w !! here = Some p ->
  dicts w !! neighbors (base p) = Some nd ->
  Forall (fun b => is_Some (objs w !! b)) (Dict.values nd) ->
  List.find (burning_free w occupied) (Dict.values nd) = None ->
  objs w !! List.last (Dict.values nd) here = Some q ->
  dicts w !! neighbors (base q) = Some nd' ->
  (forall i, In i (Dict.keys nd') -> In i occupied) ->
  Firefighter_move fuel f here occupied w
  = Raise (if Nat.eqb (length nd') 0 then IndexError else OutOfFuel).
Proof.
  intros Hp Hnd Hvalid Hfind Hq Hnd' Hall.
  rewrite (Firefighter_move_random fuel f here p nd occupied w Hp Hnd Hvalid
             Hfind).
  rewrite (bind_Ok _ _ _ _ _ (get_neighbors_id_Ok _ _ _ _ Hq Hnd')).
  destruct nd' as [|entry rest] eqn:Hshape; [reflexivity|].
  rewrite <- Hshape in *.
  destruct (choice_nonempty (Dict.keys nd') w) as (x & Hx & Hin).
  { rewrite Hshape. discriminate. }
  rewrite (bind_Ok _ _ _ _ _ Hx).
  replace (length nd' =? 0)%nat with false by (rewrite Hshape; reflexivity).
  apply (move_retry_stuck _ q nd' occupied w Hq Hnd'); auto.
  rewrite Hshape. discriminate.
Qed.

Lemma Firefighter_move_no_destination_witness :
  Firefighter_move 7 (mkFirefighter 0 50) 0%nat [1] pair_world
  = Raise OutOfFuel.
Proof.
  apply (Firefighter_move_no_destination 7 (mkFirefighter 0 50) 0%nat
           (IsTree (TreepatchM.init 1 0%nat false 1%float))
           (IsRock (RockpatchM.init 2 1%nat 10%float))
           [(2, 1%nat)] [(1, 0%nat)] [1] pair_world).
  - reflexivity.
  - reflexivity.
  - repeat constructor; eexists; reflexivity.
  - reflexivity.
  - reflexivity.
  - reflexivity.
  - intros i [<-|[]]. now left.
Defined.

(** ** What fire transmission does *)

Lemma fire_transmition_loop_draws (self : Land) (values : list ref) (w : World) :
  Forall (fun b => is_Some (objs w !! b)) values ->
  forall k,
    fire_transmition_loop self values (advance k w)
    = Ok tt (advance (k + length (List.filter (lit_tree_at w) values)) w).
Proof.
  induction 1 as [|b rest [o Ho] _ IH]; intros k.
  - simpl. unfold ret. now rewrite Nat.add_0_r.
  - cbn [fire_transmition_loop List.filter].
    assert (Ho' : objs (advance k w) !! b = Some o) by exact Ho.
    rewrite (bind_Ok _ _ _ _ _ (deref_Some _ _ _ Ho')).
    unfold lit_tree_at at 1. rewrite Ho.
    destruct o as [t|r].
    + destruct (lit_state t) eqn:Hlit.
      * assert (Hstep :
          (roll <- randint 1 100 ;;
           if int_lt_float roll (prob_ignition (configs self))
           then set_lit_state b true else ret tt) (advance k w)
          = Ok tt (advance (S k) w)).
        { rewrite (bind_Ok _ _ _ _ _ (randint_Ok 1 100 (advance k w))).
          rewrite advance_advance, Nat.add_1_r.
          destruct (int_lt_float _ _); [|reflexivity].
          apply (set_lit_state_lit _ t); [exact Ho | exact Hlit]. }
        rewrite (bind_Ok _ _ _ _ _ Hstep). rewrite IH. cbn [length].
        now replace (S k + length (List.filter (lit_tree_at w) rest))%nat
          with (k + S (length (List.filter (lit_tree_at w) rest)))%nat by lia.
      * unfold bind at 1, ret at 1. apply IH.
    + unfold bind at 1, ret at 1. apply IH.
Qed.

(** X20: [Land.update_fire_transmition] on a patch whose neighbours are
    objects of the store returns after exactly one draw per neighbour
    that is a lit tree, and that is all it does: no object and no
    dictionary is changed, whatever the draws and the probabilities.  An
    unlit neighbour is never rolled for, and a lit one is set to lit. *)
Theorem update_fire_transmition_draws
    (self : Land) (a : ref) (p : Landpatch) (nd : Dict.t ref) (w : World) :
  objs w !! a = Some p ->
  dicts w !! neighbors (base p) = Some nd ->
  Forall (fun b => is_Some (objs w !! b)) (Dict.values nd) ->
  update_fire_transmition self a w
  = Ok tt (advance (length (List.filter (lit_tree_at w) (Dict.values nd))) w).
Proof.
  intros Ha Hnd Hvalid. unfold update_fire_transmition.
  rewrite (bind_Ok _ _ _ _ _ (get_neighbors_Some _ _ _ Ha)).
  rewrite (bind_Ok _ _ _ _ _ (deref_dict_Some _ _ _ Hnd)).
  pose proof (fire_transmition_loop_draws self _ w Hvalid 0) as Hloop.
  now rewrite advance_0 in Hloop.
Qed.

Lemma update_fire_transmition_draws_witness :
  update_fire_transmition ring_land 1%nat (ring_world (fun _ => O))
  = Ok tt (advance 1 (ring_world (fun _ => O))).
Proof.
  apply (update_fire_transmition_draws ring_land 1%nat
           (forest_tree 2 1%nat false) [(1, 0%nat); (3, 2%nat)]
           (ring_world (fun _ => O))).
  - reflexivity.
  - reflexivity.
  - repeat constructor; eexists; reflexivity.
Defined.

(** ** Adding and removing a neighbour *)

Lemma dict_remove_set_fresh {V} (d : Dict.t V) k v :
  ~ In k (Dict.keys d) -> Dict.remove (Dict.set d k v) k = d.
Proof.
  induction d as [|[k0 v0] d IH]; simpl; intros Hnot.
  - now rewrite Z.eqb_refl.
  - destruct (Z.eqb_spec k0 k) as [->|Hne]; [tauto|].
    simpl. rewrite (proj2 (Z.eqb_neq k0 k) Hne). f_equal. apply IH. tauto.
Qed.

Lemma dict_remove_set_keys {V} (d : Dict.t V) k v k' :
  distinct (Dict.keys d) = true ->
  In k' (Dict.keys (Dict.remove (Dict.set d k v) k)) <->
  In k' (Dict.keys d) /\ k' <> k.
Proof.
  induction d as [|[k0 v0] d IH]; simpl; intros Hd.
  - rewrite Z.eqb_refl. simpl. tauto.
  - apply andb_true_iff in Hd as [Hfresh Hd].
    apply negb_true_iff in Hfresh.
    assert (Hnot : ~ In k0 (Dict.keys d)).
    { intros Hin. apply list_in_In in Hin. congruence. }
    destruct (Z.eqb_spec k0 k) as [->|Hne]; simpl.
    + rewrite Z.eqb_refl. split.
      * intros Hin. split; [now right|]. intros ->. contradiction.
      * intros [[->|Hin] Hk]; [contradiction | exact Hin].
    + rewrite (proj2 (Z.eqb_neq k0 k) Hne). simpl. rewrite (IH Hd).
      split.
      * intros [->|[Hin Hk]]; auto.
      * intros [[->|Hin] Hk]; auto.
Qed.

Lemma add_then_remove_run
    (a b : ref) (p q : Landpatch) (nd : Dict.t ref) (w : World) :
  objs w !! a = Some p ->
  objs w !! b = Some q ->
  dicts w !! neighbors (base p) = Some nd ->
  (add_landpatch_to_neighbour a b ;;
   remove_landpatch_to_neighbour a (patch_id (base q))) w
  = Ok tt (with_dict (neighbors (base p))
             (Dict.remove (Dict.set nd (patch_id (base q)) b)
                (patch_id (base q))) w).
Proof.
  intros Ha Hb Hnd.
  unfold add_landpatch_to_neighbour, remove_landpatch_to_neighbour.
  unfold bind at 1.
  rewrite (bind_Ok _ _ _ _ _ (get_neighbors_Some _ _ _ Ha)).
  rewrite (bind_Ok _ _ _ _ _ (deref_dict_Some _ _ _ Hnd)).
  rewrite (bind_Ok _ _ _ _ _ (get_patch_id_Some _ _ _ Hb)).
  unfold assign_dict.
  set (w1 := mkWorld _ _ _ _).
  assert (Ha1 : objs w1 !! a = Some p) by exact Ha.
  assert (Hnd1 : dicts w1 !! neighbors (base p)
                 = Some (Dict.set nd (patch_id (base q)) b)).
  { subst w1. simpl. apply list_lookup_insert_eq.
    eapply lookup_lt_Some, Hnd. }
  rewrite (bind_Ok _ _ _ _ _ (get_neighbors_Some _ _ _ Ha1)).
  rewrite (bind_Ok _ _ _ _ _ (deref_dict_Some _ _ _ Hnd1)).
  rewrite dict_get_set_eq. unfold assign_dict, with_dict. subst w1. simpl.
  now rewrite list_insert_insert_eq.
Qed.

(** X21: [remove_landpatch_to_neighbour] undoes
    [add_landpatch_to_neighbour] only for a new neighbour.  When the id
    of [b] is not yet a key of the neighbour dictionary of [a], removing
    it raises [KeyError], and adding [b] and then removing its id leaves
    the store exactly as it was.  When the id is already a key, adding
    [b] and removing its id returns too, but the entry that was there
    before is gone: the dictionary has lost this id and kept the others. *)
Theorem add_then_remove_neighbour
    (a b : ref) (p q : Landpatch) (nd : Dict.t ref) (w : World) :
  objs w !! a = Some p ->
  objs w !! b = Some q ->
  dicts w !! neighbors (base p) = Some nd ->
  distinct (Dict.keys nd) = true ->
  (~ In (patch_id (base q)) (Dict.keys nd) ->
   remove_landpatch_to_neighbour a (patch_id (base q)) w = Raise KeyError /\
   (add_landpatch_to_neighbour a b ;;
    remove_landpatch_to_neighbour a (patch_id (base q))) w = Ok tt w) /\
  (In (patch_id (base q)) (Dict.keys nd) ->
   exists nd',
     (add_landpatch_to_neighbour a b ;;
      remove_landpatch_to_neighbour a (patch_id (base q))) w
     = Ok tt (with_dict (neighbors (base p)) nd' w) /\
     forall k, In k (Dict.keys nd') <->
               In k (Dict.keys nd) /\ k <> patch_id (base q)).
Proof.
  intros Ha Hb Hnd Hd. split.
  - intros Hnot. split.
    + unfold remove_landpatch_to_neighbour.
      rewrite (bind_Ok _ _ _ _ _ (get_neighbors_Some _ _ _ Ha)).
      rewrite (bind_Ok _ _ _ _ _ (deref_dict_Some _ _ _ Hnd)).
      now rewrite (dict_get_notin _ _ Hnot).
    + rewrite (add_then_remove_run a b p q nd w Ha Hb Hnd).
      rewrite (dict_remove_set_fresh _ _ _ Hnot).
      unfold with_dict. rewrite list_insert_id by exact Hnd. now destruct w.
  - intros _. eexists. split.
    + apply (add_then_remove_run a b p q nd w Ha Hb Hnd).
    + intros k. now apply dict_remove_set_keys.
Qed.

Lemma add_then_remove_neighbour_witness :
  remove_landpatch_to_neighbour 0%nat 1 pair_world = Raise KeyError /\
  (add_landpatch_to_neighbour 0%nat 0%nat ;;
   remove_landpatch_to_neighbour 0%nat 1) pair_world = Ok tt pair_world.
Proof.
  destruct (add_then_remove_neighbour 0%nat 0%nat
              (IsTree (TreepatchM.init 1 0%nat false 1%float))
              (IsTree (TreepatchM.init 1 0%nat false 1%float))
              [(2, 1%nat)] pair_world)
    as (Hfresh & _);
    [reflexivity | reflexivity | reflexivity | reflexivity |].
  apply Hfresh. simpl. intros [H|[]]. discriminate.
Defined.

(** ** Firefighters during a step *)

Ltac bind_inv H x w Hx :=
  match type of H with
  | bind ?c ?k ?w0 = ?r =>
      change (match c w0 with
              | Ok a w' => k a w'
              | Raise e => Raise e
              end = r) in H;
      revert H; destruct (c w0) as [x w|] eqn:Hx; intros H;
      [cbv beta iota in H | discriminate H]
  end.

Lemma of_option_Ok {A} e (o : option A) w a w' :
  of_option e o w = Ok a w' -> o = Some a /\ w' = w.
Proof. destruct o; simpl; [intros [= -> ->]; auto | discriminate]. Qed.

Lemma dict_set_NoDup {V} (d : Dict.t V) k v :
  List.NoDup (Dict.keys d) -> List.NoDup (Dict.keys (Dict.set d k v)).
Proof.
  intros Hnd. destruct (in_dec Z.eq_dec k (Dict.keys d)) as [Hin|Hnot].
  - now rewrite dict_keys_set_in.
  - rewrite dict_set_fresh by assumption. rewrite dict_keys_app. simpl.
    apply List.NoDup_app; [exact Hnd | |].
    + repeat constructor. intros [].
    + intros x Hx [<-|[]]. contradiction.
Qed.

Lemma dict_remove_keys {V} (d : Dict.t V) k k' :
  List.NoDup (Dict.keys d) ->
  In k' (Dict.keys (Dict.remove d k)) <-> In k' (Dict.keys d) /\ k' <> k.
Proof.
  induction d as [|[k0 v0] d IH]; simpl; intros Hnd; [tauto|].
  inversion Hnd as [|? ? Hfresh Hrest]; subst.
  destruct (Z.eqb_spec k0 k) as [->|Hne]; simpl.
  - split.
    + intros Hin. split; [now right|]. intros ->. contradiction.
    + intros [[->|Hin] Hk]; [congruence | exact Hin].
  - rewrite (IH Hrest). split.
    + intros [->|[Hin Hk]]; auto.
    + intros [[->|Hin] Hk]; auto.
Qed.

Lemma dict_remove_NoDup {V} (d : Dict.t V) k :
  List.NoDup (Dict.keys d) -> List.NoDup (Dict.keys (Dict.remove d k)).
Proof.
  induction d as [|[k0 v0] d IH]; simpl; intros Hnd; [constructor|].
  inversion Hnd as [|? ? Hfresh Hrest]; subst.
  destruct (Z.eqb k0 k); simpl; [exact Hrest|].
  constructor; [|auto]. intros Hin.
  apply (dict_remove_keys d k k0 Hrest) in Hin. tauto.
Qed.

Lemma dict_remove_values {V} (d : Dict.t V) k v :
  Dict.get d k = Some v ->
  Permutation (v :: Dict.values (Dict.remove d k)) (Dict.values d).
Proof.
  induction d as [|[k0 v0] d IH]; simpl; [discriminate|].
  destruct (Z.eqb k0 k); simpl.
  - intros [= ->]. reflexivity.
  - intros Hget. rewrite perm_swap. constructor. now apply IH.
Qed.

Lemma dict_set_values_fresh {V} (d : Dict.t V) k v :
  ~ In k (Dict.keys d) ->
  Permutation (Dict.values (Dict.set d k v)) (v :: Dict.values d).
Proof.
  intros Hnot. rewrite dict_set_fresh by assumption.
  rewrite dict_values_app. simpl. symmetry. apply Permutation_cons_append.
Qed.

(** [move] never returns an occupied position. *)
Lemma move_scan_free (occupied : list Z) (values : list ref) :
  forall w id w',
    move_scan values occupied w = Ok (Some id) w' ->
    list_in id occupied = false.
Proof.
  induction values as [|a rest IH]; intros w id w' Hrun; [discriminate|].
  cbn [move_scan] in Hrun. bind_inv Hrun o w1 Ho.
  destruct o as [t|r]; [|eauto].
  destruct (lit_state t && negb (list_in (patch_id (tree_base t)) occupied))
    eqn:Htest; [|eauto].
  inversion Hrun; subst. apply andb_true_iff in Htest as [_ Hfree].
  now apply negb_true_iff in Hfree.
Qed.

Lemma move_retry_free (lp : ref) (occupied : list Z) (fuel : nat) :
  forall d0 w d w',
    move_retry fuel lp occupied d0 w = Ok d w' ->
    list_in d occupied = false.
Proof.
  induction fuel as [|fuel IH]; intros d0 w d w' Hrun; cbn [move_retry] in Hrun;
    destruct (list_in d0 occupied) eqn:Hd0; try discriminate;
    try (inversion Hrun; subst; exact Hd0).
  bind_inv Hrun ids w1 Hids. bind_inv Hrun d1 w2 Hd1. eauto.
Qed.

Lemma Firefighter_move_free fuel f here occupied w d w' :
  Firefighter_move fuel f here occupied w = Ok d w' ->
  list_in d occupied = false.
Proof.
  intros Hrun. unfold Firefighter_move in Hrun.
  bind_inv Hrun nb w1 Hnb. bind_inv Hrun nd w2 Hnd.
  bind_inv Hrun found w3 Hscan. destruct found as [id|].
  - inversion Hrun; subst. eapply move_scan_free, Hscan.
  - bind_inv Hrun ids w4 Hids. bind_inv Hrun d1 w5 Hd1.
    eapply move_retry_free, Hrun.
Qed.

(** The first loop of [Land.update] marks firefighter positions only. *)
Lemma fight_or_mark_marks (self : Land) (keys : list Z) :
  forall lp marked w lp' marked' w',
    fight_or_mark self keys lp marked w = Ok (lp', marked') w' ->
    List.NoDup (Dict.keys marked) ->
    List.NoDup (Dict.keys marked') /\
    forall k, In k (Dict.keys marked') -> In k (Dict.keys marked) \/ In k keys.
Proof.
  induction keys as [|position rest IH]; intros lp marked w lp' marked' w' Hrun Hnd.
  - inversion Hrun; subst. auto.
  - cbn [fight_or_mark] in Hrun.
    bind_inv Hrun f w1 Hf. bind_inv Hrun a w2 Ha. bind_inv Hrun o w3 Ho.
    bind_inv Hrun should w4 Hshould.
    apply IH in Hrun as [Hnd' Hkeys].
    + split; [exact Hnd'|]. intros k Hk.
      destruct (Hkeys k Hk) as [Hin|Hin]; [|right; now right].
      destruct should; [|now left].
      apply dict_keys_set in Hin as [->|Hin]; [right; now left | now left].
    + destruct should; [now apply dict_set_NoDup | exact Hnd].
Qed.

(** The second loop of [Land.update] moves firefighters without losing
    or duplicating one. *)
Lemma relocate_firefighters (fuel : nat) (lp : option ref) (keys : list Z) :
  forall self w self' w',
    relocate fuel self keys lp w = Ok self' w' ->
    List.NoDup keys ->
    (forall k, In k keys -> In k (Dict.keys (firefighters self))) ->
    List.NoDup (Dict.keys (firefighters self)) ->
    land_patches self' = land_patches self /\
    List.NoDup (Dict.keys (firefighters self')) /\
    Permutation (Dict.values (firefighters self'))
                (Dict.values (firefighters self)).
Proof.
  induction keys as [|position rest IH]; intros self w self' w' Hrun Hkeys Hin Hnd.
  - inversion Hrun; subst. auto.
  - cbn [relocate] in Hrun.
    bind_inv Hrun f w1 Hf. apply of_option_Ok in Hf as [Hf ->].
    bind_inv Hrun old w2 Hold. bind_inv Hrun u w3 Hu.
    bind_inv Hrun current w4 Hcur. bind_inv Hrun d w5 Hmove.
    bind_inv Hrun new_patch w6 Hnew. bind_inv Hrun u' w7 Hu'.
    apply Firefighter_move_free in Hmove.
    unfold get_firefighters, with_firefighters in *.
    cbn [firefighters land_patches] in *.
    assert (Hfree : ~ In d (Dict.keys (Dict.remove (firefighters self) position))).
    { intros Hd. apply list_in_In in Hd. congruence. }
    inversion Hkeys as [|? ? Hposition Hrest]; subst.
    apply IH in Hrun as (Hlp & Hnd' & Hperm); cbn [firefighters land_patches] in *.
    + split; [exact Hlp|]. split; [exact Hnd'|].
      rewrite Hperm. rewrite (dict_set_values_fresh _ _ _ Hfree).
      now apply dict_remove_values.
    + exact Hrest.
    + intros k Hk. apply dict_keys_set. right.
      apply dict_remove_keys; [exact Hnd|]. split; [apply Hin; now right|].
      intros ->. contradiction.
    + now apply dict_set_NoDup, dict_remove_NoDup.
Qed.

Lemma mutate_landpatch_firefighters (self : Land) a w self' w' :
  mutate_landpatch self a w = Ok self' w' ->
  firefighters self' = firefighters self.
Proof.
  intros Hrun. unfold mutate_landpatch in Hrun.
  bind_inv Hrun m w1 Hm. bind_inv Hrun key w2 Hkey.
  inversion Hrun; subst. reflexivity.
Qed.

Lemma update_patches_firefighters (size : nat) :
  forall todo i self w self' w',
    update_patches todo i size self w = Ok self' w' ->
    firefighters self' = firefighters self.
Proof.
  induction todo as [|todo IH]; intros i self w self' w' Hrun;
    cbn [update_patches] in Hrun;
    destruct (negb (Nat.eqb (length (land_patches self)) size));
    try discriminate.
  - inversion Hrun; subst. reflexivity.
  - bind_inv Hrun a w1 Ha. bind_inv Hrun o w2 Ho. bind_inv Hrun u w3 Hu.
    bind_inv Hrun should w4 Hshould. bind_inv Hrun self1 w5 Hself1.
    apply IH in Hrun. rewrite Hrun.
    destruct should.
    + eapply mutate_landpatch_firefighters, Hself1.
    + inversion Hself1; subst. reflexivity.
Qed.

(** X22: whenever [Land.update] returns, the land has the same
    firefighters as before the step, each on a patch of its own: the
    firefighter objects of the mapping are a permutation of those before
    the step (none is lost, none is duplicated) and the positions are
    pairwise distinct.  A firefighter is moved to a free position only. *)
Theorem Land_update_keeps_firefighters
    (fuel : nat) (self self' : Land) (w w' : World) :
  Land_update fuel self w = Ok self' w' ->
  List.NoDup (get_firefighters self) ->
  Permutation (Dict.values (firefighters self'))
              (Dict.values (firefighters self)) /\
  List.NoDup (get_firefighters self') /\
  length (firefighters self') = length (firefighters self).
Proof.
  unfold get_firefighters. intros Hrun Hnd. unfold Land_update in Hrun.
  bind_inv Hrun marked w1 Hmark. destruct marked as [lp to_move].
  bind_inv Hrun self1 w2 Hmove.
  apply update_patches_firefighters in Hrun.
  apply fight_or_mark_marks in Hmark as [Hmarked Hsub]; [|constructor].
  apply relocate_firefighters in Hmove as (_ & Hnd1 & Hperm); auto.
  - rewrite Hrun. split; [exact Hperm|]. split; [exact Hnd1|].
    apply Permutation_length in Hperm. unfold Dict.values in Hperm.
    now rewrite !length_map in Hperm.
  - intros k Hk. destruct (Hsub k Hk) as [[]|Hin]. exact Hin.
Qed.

Lemma Land_update_keeps_firefighters_witness :
  exists self' w',
    Land_update 5 guarded_pair_land pair_world = Ok self' w' /\
    length (firefighters self') = 1%nat.
Proof.
  destruct (Land_update 5 guarded_pair_land pair_world) as [self' w'|e] eqn:Hrun;
    [|vm_compute in Hrun; discriminate].
  exists self', w'. split; [reflexivity|].
  destruct (Land_update_keeps_firefighters 5 guarded_pair_land self'
              pair_world w' Hrun) as (_ & _ & Hlen).
  - repeat constructor. intros [].
  - exact Hlen.
Defined.

Lemma dict_get_remove_ne {V} (d : Dict.t V) k k' :
  k <> k' -> Dict.get (Dict.remove d k) k' = Dict.get d k'.
Proof.
  intros Hne. induction d as [|[k0 v0] d IH]; simpl; [reflexivity|].
  destruct (Z.eqb_spec k0 k) as [->|Hk].
  - now rewrite (proj2 (Z.eqb_neq k k') Hne).
  - simpl. now rewrite IH.
Qed.

(** The first loop of [Land.update] never marks a position whose patch
    is a lit tree. *)
Lemma fight_or_mark_skips (self : Land) (pos : Z) (a : ref) :
  Dict.get (land_patches self) pos = Some a ->
  (forall k b, Dict.get (land_patches self) k = Some b -> k <> pos -> b <> a) ->
  forall keys lp marked w lp' marked' w' t,
    fight_or_mark self keys lp marked w = Ok (lp', marked') w' ->
    List.NoDup keys ->
    List.NoDup (Dict.keys marked) ->
    objs w !! a = Some (IsTree t) -> lit_state t = true ->
    ~ In pos (Dict.keys marked) ->
    ~ In pos (Dict.keys marked').
Proof.
  intros Hpos Hsep.
  induction keys as [|k rest IH];
    intros lp marked w lp' marked' w' t Hrun Hkeys Hnd Ha Hlit Hnot.
  - inversion Hrun; subst. exact Hnot.
  - inversion Hkeys as [|? ? Hk Hrest]; subst.
    cbn [fight_or_mark] in Hrun.
    bind_inv Hrun f w1 Hf. apply of_option_Ok in Hf as [Hf ->].
    bind_inv Hrun b w2 Hb. apply of_option_Ok in Hb as [Hb ->].
    bind_inv Hrun o w3 Ho. unfold deref in Ho.
    apply of_option_Ok in Ho as [Ho ->].
    bind_inv Hrun should w4 Hshould.
    destruct (Z.eq_dec k pos) as [->|Hne].
    + rewrite Hpos in Hb. inversion Hb; subst b.
      rewrite Ha in Ho. inversion Ho; subst o. rewrite Hlit in Hshould.
      bind_inv Hshould u w5 Hu. inversion Hshould; subst.
      apply fight_or_mark_marks in Hrun as [_ Hsub]; [|exact Hnd].
      intros Hin. destruct (Hsub pos Hin); contradiction.
    + assert (Hba : b <> a) by (eapply Hsep; eauto).
      assert (Hstate : objs w4 !! a = Some (IsTree t) /\
                       (should = true \/ should = false)).
      { destruct o as [tp|r].
        - destruct (lit_state tp).
          + bind_inv Hshould u w5 Hu. inversion Hshould; subst.
            unfold Firefighter_fight_fire in Hu.
            bind_inv Hu tp' w6 Htp. unfold as_tree in Htp.
            bind_inv Htp o' w7 Ho'. unfold deref in Ho'.
            apply of_option_Ok in Ho' as [Ho' ->].
            destruct o'; [|discriminate]. inversion Htp; subst.
            inversion Hu; subst. simpl.
            rewrite list_lookup_insert_ne by assumption. auto.
          + inversion Hshould; subst. auto.
        - inversion Hshould; subst. auto. }
      destruct Hstate as [Ha4 _].
      eapply (IH _ _ w4 lp' marked' w' t Hrun Hrest); auto.
      * destruct should; [now apply dict_set_NoDup | exact Hnd].
      * destruct should; [|exact Hnot].
        intros Hin. apply dict_keys_set in Hin as [->|Hin]; contradiction.
Qed.

(** The second loop of [Land.update] leaves the entry of a position it
    is not asked to move. *)
Lemma relocate_keeps (fuel : nat) (lp : option ref) (pos : Z) (f : Firefighter) :
  forall keys self w self' w',
    relocate fuel self keys lp w = Ok self' w' ->
    ~ In pos keys ->
    Dict.get (firefighters self) pos = Some f ->
    Dict.get (firefighters self') pos = Some f.
Proof.
  induction keys as [|k rest IH]; intros self w self' w' Hrun Hnot Hget.
  - inversion Hrun; subst. exact Hget.
  - cbn [relocate] in Hrun.
    bind_inv Hrun f0 w1 Hf. bind_inv Hrun old w2 Hold. bind_inv Hrun u w3 Hu.
    bind_inv Hrun current w4 Hcur. bind_inv Hrun d w5 Hmove.
    bind_inv Hrun new_patch w6 Hnew. bind_inv Hrun u' w7 Hu'.
    apply Firefighter_move_free in Hmove.
    unfold get_firefighters, with_firefighters in *.
    cbn [firefighters land_patches] in *.
    assert (Hk : k <> pos) by (intros ->; apply Hnot; now left).
    assert (Hget1 : Dict.get (Dict.remove (firefighters self) k) pos = Some f)
      by (now rewrite dict_get_remove_ne).
    assert (Hd : d <> pos).
    { intros ->. apply dict_get_Some_keys, list_in_In in Hget1. congruence. }
    apply (IH _ _ _ _ Hrun); [intros Hin; apply Hnot; now right|].
    cbn [firefighters]. now rewrite dict_get_set_ne.
Qed.

(** X23: a firefighter standing on a lit tree is not moved by
    [Land.update]: whenever the step returns, the same firefighter is
    still at this position (the table having pairwise distinct keys and
    patches that carry their key as id).  Only firefighters on rocks and
    on unlit trees are sent away. *)
Theorem firefighter_on_fire_stays
    (fuel : nat) (self self' : Land) (w w' : World)
    (pos : Z) (f : Firefighter) (a : ref) (t : Treepatch) :
  Land_update fuel self w = Ok self' w' ->
  List.NoDup (get_firefighters self) ->
  table_ok w (land_patches self) ->
  Dict.get (firefighters self) pos = Some f ->
  Dict.get (land_patches self) pos = Some a ->
  objs w !! a = Some (IsTree t) ->
  lit_state t = true ->
  Dict.get (firefighters self') pos = Some f.
Proof.
  unfold get_firefighters. intros Hrun Hnd [Hdist Hent] Hf Ha Hobj Hlit.
  unfold Land_update in Hrun.
  bind_inv Hrun marked w1 Hmark. destruct marked as [lp to_move].
  bind_inv Hrun self1 w2 Hmove.
  apply update_patches_firefighters in Hrun. rewrite Hrun.
  apply (relocate_keeps fuel lp pos f _ _ _ _ _ Hmove); [|exact Hf].
  apply (fight_or_mark_skips self pos a Ha) with (t := t) in Hmark; auto.
  - intros k b Hb Hne ->.
    destruct (Hent k a (dict_get_In _ _ _ Hb)) as (p1 & Hp1 & Hid1).
    destruct (Hent pos a (dict_get_In _ _ _ Ha)) as (p2 & Hp2 & Hid2).
    congruence.
  - constructor.
Qed.

Lemma firefighter_on_fire_stays_witness :
  exists self' w',
    Land_update 5 guarded_ring_land (ring_world (fun _ => O)) = Ok self' w' /\
    Dict.get (firefighters self') 1 = Some (mkFirefighter 0 50).
Proof.
  destruct (Land_update 5 guarded_ring_land (ring_world (fun _ => O)))
    as [self' w'|e] eqn:Hrun; [|vm_compute in Hrun; discriminate].
  exists self', w'. split; [reflexivity|].
  apply (firefighter_on_fire_stays 5 guarded_ring_land self'
           (ring_world (fun _ => O)) w' 1 (mkFirefighter 0 50) 0%nat
           (TreepatchM.init 1 0%nat true 0%float) Hrun).
  - repeat constructor. intros [].
  - apply ring_world_steady.
  - reflexivity.
  - reflexivity.
  - reflexivity.
  - reflexivity.
Defined.

(** ** Steps that cannot fail *)

Lemma tree_update_base roll t :
  patch_id (tree_base (fst (TreepatchM.update roll t)))
    = patch_id (tree_base t) /\
  neighbors (tree_base (fst (TreepatchM.update roll t)))
    = neighbors (tree_base t).
Proof.
  unfold TreepatchM.update.
  destruct (int_le_float roll (prob_autcombustion t)); simpl;
    destruct (lit_state t); simpl;
    repeat match goal with
           | |- context [if ?b then _ else _] => destruct b; simpl
           end; auto.
Qed.

(** [landpatch.update()] on an object of a closed store with a sound
    table: it returns and keeps both, for every roll and probability. *)
Lemma Landpatch_update_sound w table a p :
  closed w -> table_ok w table -> objs w !! a = Some p ->
  returns (Landpatch_update a) w
    (fun _ w' =>
       closed w' /\ table_ok w' table /\
       exists p', objs w' !! a = Some p' /\
                  patch_id (base p') = patch_id (base p)).
Proof.
  intros Hclosed Htable Ha. unfold Landpatch_update.
  apply returns_bind. exists p, w. split; [now apply deref_Some|].
  apply returns_bind. eexists _, _. split; [apply randint_Ok|].
  set (x := tape w (cursor w)).
  assert (Ha1 : objs (advance 1 w) !! a = Some p) by exact Ha.
  destruct p as [t|r].
  - destruct (tree_update_base (randint_of 1 100 x) t) as [Hid Hnb].
    destruct (TreepatchM.update (randint_of 1 100 x) t) as [t' res] eqn:Hrun.
    simpl in Hid, Hnb.
    exists res, (with_obj a (IsTree t') (advance 1 w)).
    split; [reflexivity|]. split; [|split].
    + now apply (closed_with_obj (advance 1 w) a (IsTree t) (IsTree t')).
    + now apply (table_ok_with_obj (advance 1 w) table a (IsTree t) (IsTree t')).
    + exists (IsTree t'). split; [|exact Hid]. simpl.
      apply list_lookup_insert_eq. eapply lookup_lt_Some, Ha.
  - exists (RockpatchM.update (randint_of 1 100 x) r), (advance 1 w).
    split; [reflexivity|]. split; [exact Hclosed|]. split; [exact Htable|].
    exists (IsRock r). now split.
Qed.

Lemma mutate_landpatch_sound (self : Land) w a p :
  closed w -> table_ok w (land_patches self) -> objs w !! a = Some p ->
  In (patch_id (base p)) (Dict.keys (land_patches self)) ->
  returns (mutate_landpatch self a) w
    (fun self' w' =>
       self' = with_land_patches
                 (Dict.set (land_patches self) (patch_id (base p))
                           (length (objs w))) self /\
       closed w' /\ table_ok w' (land_patches self')).
Proof.
  intros Hclosed Htable Ha Hkey.
  assert (Hid : patch_id (base (mutate p)) = patch_id (base p)) by now destruct p.
  assert (Hnb : neighbors (base (mutate p)) = neighbors (base p)) by now destruct p.
  unfold mutate_landpatch.
  apply returns_bind. eexists _, _.
  split; [apply (Landpatch_mutate_Ok _ _ _ Ha)|].
  fold (with_new_obj (mutate p) w).
  apply returns_bind. eexists _, _. split.
  { apply (get_patch_id_Some _ (mutate p)). simpl. now apply list_lookup_middle. }
  apply returns_ret. rewrite Hid. split; [reflexivity|]. simpl. split.
  - now apply (closed_with_new_obj w a p).
  - now apply (table_ok_with_new_obj w (land_patches self) p).
Qed.

Lemma update_patches_sound (size : nat) :
  forall (todo i : nat) (self : Land) (w : World),
    (i + todo = size)%nat ->
    length (land_patches self) = size ->
    closed w -> table_ok w (land_patches self) ->
    returns (update_patches todo i size self) w
      (fun self' w' =>
         firefighters self' = firefighters self /\
         Dict.keys (land_patches self') = Dict.keys (land_patches self) /\
         closed w' /\ table_ok w' (land_patches self')).
Proof.
  induction todo as [|todo IH]; intros i self w Hi Hsize Hclosed Htable.
  - simpl. rewrite Hsize, Nat.eqb_refl. simpl. apply returns_ret. auto.
  - simpl. rewrite Hsize, Nat.eqb_refl. simpl.
    destruct (lookup_lt_is_Some_2 (Dict.values (land_patches self)) i)
      as [a Hai].
    { unfold Dict.values. rewrite length_map. lia. }
    destruct (dict_values_lookup _ _ _ Hai) as [id0 Hentry].
    assert (Hin : In (id0, a) (land_patches self)).
    { apply list_elem_of_In, list_elem_of_lookup. eauto. }
    pose proof Htable as [Hdist Hent].
    destruct (Hent id0 a Hin) as (p & Ha & Hpid).
    assert (Hkey : In id0 (Dict.keys (land_patches self)))
      by (apply (in_map fst _ _ Hin)).
    apply returns_bind. exists a, w. split; [now rewrite Hai|].
    apply returns_bind. exists p, w. split; [now apply deref_Some|].
    apply returns_bind.
    assert (Hfire : returns
              (if isinstance_Treepatch p
               then update_fire_transmition self a else ret tt) w
              (fun _ w' => exists k, w' = advance k w)).
    { destruct (isinstance_Treepatch p).
      - now apply (update_fire_transmition_only_draws self a p).
      - apply returns_ret. exists O. now rewrite advance_0. }
    eapply returns_weaken; [|exact Hfire]. intros _ w1 [k ->].
    apply returns_bind.
    assert (Hclosed1 : closed (advance k w)) by exact Hclosed.
    assert (Htable1 : table_ok (advance k w) (land_patches self)) by exact Htable.
    eapply returns_weaken;
      [|apply (Landpatch_update_sound _ _ a p Hclosed1 Htable1 Ha)].
    intros res w2 (Hclosed2 & Htable2 & p2 & Ha2 & Hpid2).
    destruct res.
    + apply returns_bind.
      eapply returns_weaken;
        [|apply (mutate_landpatch_sound self w2 a p2 Hclosed2 Htable2 Ha2);
          rewrite Hpid2, Hpid; exact Hkey].
      intros self3 w3 (-> & Hclosed3 & Htable3).
      eapply returns_weaken; [|apply (IH (S i))]; try assumption; try lia.
      * simpl. intros self' w' (Hff & Hkeys & Hrest).
        split; [exact Hff|]. split; [|exact Hrest].
        rewrite Hkeys. apply dict_keys_set_in. now rewrite Hpid2, Hpid.
      * simpl. rewrite dict_set_length_in; [assumption|].
        now rewrite Hpid2, Hpid.
    + apply returns_bind. apply returns_ret.
      eapply returns_weaken; [|apply (IH (S i))]; try assumption; try lia.
      simpl. auto.
Qed.

(** X24: with no firefighter on the land, in a store whose neighbour
    dictionaries refer to existing objects and with a table of pairwise
    distinct keys whose patches carry their key as id, any number of
    consecutive [Land.update] calls returns, for all probabilities and
    all draws: no exception is raised (replacing a patch while the table
    is iterated never changes its size) and the table keeps its ids,
    stays sound and the store stays closed. *)
Theorem Land_updates_return (fuel n : nat) :
  forall (self : Land) (w : World),
    firefighters self = Dict.empty ->
    closed w -> table_ok w (land_patches self) ->
    returns (Land_updates fuel n self) w
      (fun self' w' =>
         firefighters self' = Dict.empty /\
         Dict.keys (land_patches self') = Dict.keys (land_patches self) /\
         closed w' /\ table_ok w' (land_patches self')).
Proof.
  induction n as [|n IH]; intros self w Hnone Hclosed Htable.
  - apply returns_ret. auto.
  - cbn [Land_updates]. apply returns_bind.
    assert (Hstep : returns (Land_update fuel self) w
              (fun self' w' =>
                 firefighters self' = firefighters self /\
                 Dict.keys (land_patches self') = Dict.keys (land_patches self) /\
                 closed w' /\ table_ok w' (land_patches self'))).
    { unfold Land_update. rewrite Hnone. simpl.
      apply returns_bind. apply returns_ret. simpl.
      apply returns_bind. apply returns_ret.
      eapply returns_weaken;
        [|apply (update_patches_sound _ _ 0%nat self w); auto].
      simpl. intros self' w' (Hff & Hrest). split; [|exact Hrest].
      now rewrite Hff. }
    eapply returns_weaken; [|exact Hstep].
    intros self1 w1 (Hff & Hkeys & Hclosed1 & Htable1).
    eapply returns_weaken; [|apply IH; [congruence | exact Hclosed1 | exact Htable1]].
    simpl. intros self' w' (Hff' & Hkeys' & Hrest).
    split; [exact Hff'|]. split; [congruence | exact Hrest].
Qed.

Lemma Land_updates_return_witness :
  returns (Land_updates 0 4 pair_land) pair_world
    (fun self' w' => Dict.keys (land_patches self') = [1; 2]).
Proof.
  eapply returns_weaken;
    [|apply (Land_updates_return 0 4 pair_land pair_world);
      [reflexivity | apply pair_world_closed |]].
  - simpl. intros self' w' (_ & Hkeys & _). exact Hkeys.
  - split; [reflexivity|]. intros id a Hin. simpl in Hin.
    destruct Hin as [Hin|[Hin|[]]]; inversion Hin; subst;
      eexists; split; reflexivity.
Defined.
